(** * minifed: topology builder, host dispatcher and trust materializer

    A shallow embedding of [main.go] (functions [mustParseConfig] and
    [main]) together with the parts of the Go standard library the
    program's behaviour depends on ([strings.Split], [strings.TrimSpace],
    [URL.Hostname], [http.ServeMux]).

    Go pointers [*Entity] are addresses into an explicit heap, the map
    [map[string]*Entity] is a [gmap string ptr], and every [log.Fatalf]
    and run-time panic is an explicit outcome. *)

From Stdlib Require Import Ascii String.
From stdpp Require Import gmap strings list fin_maps.

Set Default Proof Using "Type".
#[local] Set Warnings "-clear-no-such-hyp".

(** ** Go's [strings] package (the functions [mustParseConfig] calls) *)

Module GoStrings.

(** [s[n:]] for [n <= len(s)] *)
Fixpoint drop_bytes (n : nat) (s : string) : string :=
  match n, s with
  | 0, _ => s
  | S n', String _ s' => drop_bytes n' s'
  | S _, EmptyString => EmptyString
  end.

(** [s[:n]] for [n <= len(s)] *)
Fixpoint take_bytes (n : nat) (s : string) : string :=
  match n, s with
  | 0, _ => EmptyString
  | S n', String c s' => String c (take_bytes n' s')
  | S _, EmptyString => EmptyString
  end.

(** [strings.HasPrefix(s, prefix)] *)
Fixpoint HasPrefix (s prefix : string) {struct prefix} : bool :=
  match prefix, s with
  | EmptyString, _ => true
  | String p prefix', String c s' =>
      if decide (p = c) then HasPrefix s' prefix' else false
  | String _ _, EmptyString => false
  end.

(** [strings.Index(s, substr)]: offset of the leftmost occurrence of
    [substr] in [s]; Go's [-1] is [None]. *)
Fixpoint Index (s substr : string) : option nat :=
  if HasPrefix s substr then Some 0
  else match s with
       | EmptyString => None
       | String _ s' => S <$> Index s' substr
       end.

(** [strings.Count(s, substr)] for a non-empty [substr]: the loop
    [for { i := Index(s, substr); if i == -1 { return n }; n++;
    s = s[i+len(substr):] }].  Each round drops at least one byte, so
    [len(s)] rounds are enough. *)
Fixpoint Count_loop (fuel : nat) (s substr : string) : nat :=
  match fuel with
  | 0 => 0
  | S fuel' =>
      match Index s substr with
      | None => 0
      | Some i => S (Count_loop fuel' (drop_bytes (i + String.length substr) s) substr)
      end
  end.

Definition Count (s substr : string) : nat :=
  Count_loop (String.length s) s substr.

(** The loop of [genSplit(s, sep, 0, n)]: at most [n] cuts, then the
    rest of the string is the last piece. *)
Fixpoint genSplit_loop (n : nat) (s sep : string) : list string :=
  match n with
  | 0 => [s]
  | S n' =>
      match Index s sep with
      | None => [s]
      | Some m => take_bytes m s :: genSplit_loop n' (drop_bytes (m + String.length sep) s) sep
      end
  end.

(** [strings.Split(s, sep)] for a non-empty separator, which is
    [genSplit(s, sep, 0, -1)] with [n = Count(s, sep) + 1] pieces. *)
Definition Split (s sep : string) : list string :=
  genSplit_loop (Count s sep) s sep.

(** White space as [unicode.IsSpace] sees it, on the UTF-8 bytes of
    the string.  The runes are U+0009..U+000D and U+0020 (one byte,
    [asciiSpace]), U+0085 and U+00A0 (two bytes, [space2]), U+1680,
    U+2000..U+200A, U+2028, U+2029, U+202F, U+205F and U+3000 (three
    bytes, [space3]).  A byte sequence that is not the encoding of one
    of them decodes to a rune that is not white space. *)
Definition asciiSpace (c : ascii) : bool :=
  match c with
  | "009" | "010" | "011" | "012" | "013" | " " => true
  | _ => false
  end%char.

Definition space3 (b1 b2 b3 : nat) : bool :=
  match b1, b2 with
  | 225, 154 => b3 =? 128
  | 226, 128 => ((128 <=? b3) && (b3 <=? 138)) || (b3 =? 168) || (b3 =? 169) || (b3 =? 175)
  | 226, 129 => b3 =? 159
  | 227, 128 => b3 =? 128
  | _, _ => false
  end.

Definition space2 (b1 b2 : nat) : bool :=
  (b1 =? 194) && ((b2 =? 133) || (b2 =? 160)).

(** [strings.TrimLeftFunc(s, unicode.IsSpace)] *)
Fixpoint TrimLeftSpace (s : string) : string :=
  match s with
  | EmptyString => EmptyString
  | String c1 r1 =>
      if asciiSpace c1 then TrimLeftSpace r1
      else match r1 with
           | EmptyString => s
           | String c2 r2 =>
               if space2 (nat_of_ascii c1) (nat_of_ascii c2) then TrimLeftSpace r2
               else match r2 with
                    | EmptyString => s
                    | String c3 r3 =>
                        if space3 (nat_of_ascii c1) (nat_of_ascii c2) (nat_of_ascii c3)
                        then TrimLeftSpace r3
                        else s
                    end
           end
  end.

(** The same from the right end, on the reversed bytes: a rune's
    bytes arrive last byte first. *)
Fixpoint TrimLeftSpace_rev (s : string) : string :=
  match s with
  | EmptyString => EmptyString
  | String c1 r1 =>
      if asciiSpace c1 then TrimLeftSpace_rev r1
      else match r1 with
           | EmptyString => s
           | String c2 r2 =>
               if space2 (nat_of_ascii c2) (nat_of_ascii c1) then TrimLeftSpace_rev r2
               else match r2 with
                    | EmptyString => s
                    | String c3 r3 =>
                        if space3 (nat_of_ascii c3) (nat_of_ascii c2) (nat_of_ascii c1)
                        then TrimLeftSpace_rev r3
                        else s
                    end
           end
  end.

Definition rev_bytes (s : string) : string :=
  string_of_list_ascii (rev (list_ascii_of_string s)).

(** [strings.TrimRightFunc(s, unicode.IsSpace)] *)
Definition TrimRightSpace (s : string) : string :=
  rev_bytes (TrimLeftSpace_rev (rev_bytes s)).

(** [strings.TrimSpace(s)] *)
Definition TrimSpace (s : string) : string :=
  TrimRightSpace (TrimLeftSpace s).

(** [strings.LastIndexByte(s, c)] *)
Fixpoint LastIndexByte (s : string) (c : ascii) : option nat :=
  match s with
  | EmptyString => None
  | String d s' =>
      match LastIndexByte s' c with
      | Some i => Some (S i)
      | None => if decide (d = c) then Some 0 else None
      end
  end.

(** [strings.HasSuffix(s, suffix)] *)
Definition HasSuffix (s suffix : string) : bool :=
  HasPrefix (rev_bytes s) (rev_bytes suffix).

End GoStrings.

Example Split_edge : GoStrings.Split "TA-A -> OP-A" "->" = ["TA-A "; " OP-A"].
Proof. reflexivity. Qed.

Example Split_no_separator : GoStrings.Split "TA-A" "->" = ["TA-A"].
Proof. reflexivity. Qed.

Example Split_three : GoStrings.Split "a->b->c" "->" = ["a"; "b"; "c"].
Proof. reflexivity. Qed.

Example TrimSpace_edge : GoStrings.TrimSpace "  IM-A	 " = "IM-A".
Proof. reflexivity. Qed.

(** ** Outcomes of a run

    [log.Fatalf] terminates the process; each call site is a constructor
    carrying the arguments of its format string.  Run-time panics are
    kept apart from them. *)

Inductive fatal : Type :=
  | FatalKindMissing (key : string)
      (* "%s: kind must be present" *)
  | FatalIdentifierMissing (key : string)
      (* "%s: identifier must be present" *)
  | FatalUndefinedReference (node : string) (index : nat)
      (* "undefined reference to node %s in edge %d" *)
  | FatalInvalidURL (node : string) (err : string)
      (* "invalid url for node %s: %s" *)
  | FatalGenerateKey (err : string)
      (* log.Fatal(err) in mustGenerateECDSAPrivateKey *)
  | FatalNewFedEntity (entity : string) (err : string)
      (* "%s: %s" after fedentities.NewFedEntity *)
  | FatalNewStorage (entity : string) (err : string)
      (* "%s: %s" after storage.NewInMemoryBadgerStorage *)
  | FatalWrite (parent child : string) (err : string).
      (* "%s -> %s: %s" after SubordinateStorage().Write *)

Inductive panic : Type :=
  | PanicIndexOutOfRange (index len : nat)
      (* index out of range [index] with length len *)
  | PanicNilDereference
      (* invalid memory address or nil pointer dereference *)
  | PanicInvalidPattern
      (* http: invalid pattern *)
  | PanicMultipleRegistrations (pattern : string).
      (* http: multiple registrations for pattern *)

Inductive outcome (A : Type) : Type :=
  | Ok (a : A)
  | Fatal (f : fatal)
  | Panic (p : panic).
Arguments Ok {A} a.
Arguments Fatal {A} f.
Arguments Panic {A} p.

Global Instance outcome_ret : MRet outcome := λ A a, Ok a.
Global Instance outcome_bind : MBind outcome := λ A B k m,
  match m with
  | Ok a => k a
  | Fatal f => Fatal f
  | Panic p => Panic p
  end.

(** The ConfigError class of the error taxonomy: the four messages
    [mustParseConfig] prints about the configuration itself. *)
Definition is_config_error (f : fatal) : bool :=
  match f with
  | FatalKindMissing _ | FatalIdentifierMissing _
  | FatalUndefinedReference _ _ | FatalInvalidURL _ _ => true
  | _ => false
  end.

(** ** External collaborators

    [net/url], [crypto/ecdsa], the federation entity engine
    ([go-oidfed]'s [fedentities]) and its Badger storage are not part of
    the program; their results are taken as given.  Calls that can
    return an error return [inl err]. *)

Class Externals := {
  (** pointer to [url.URL] *)
  URL : Type;
  (** [url.Parse] *)
  url_Parse : string → string + URL;
  (** [URL.String] method *)
  URL_String : URL → string;
  (** the field [URL.Host]: host or host:port *)
  URL_Host : URL → string;
  (** [crypto.Signer] *)
  Signer : Type;
  (** [ecdsa.GenerateKey(elliptic.P521(), rand.Reader)]: what the [n]-th
      call of the process (counting from 0) returns *)
  GenerateKey : nat → string + Signer;
  (** pointer to [fedentities.FedEntity] *)
  fedentities_FedEntity : Type;
  (** [fedentities.NewFedEntity(entityID, authorityHints, &Metadata{},
      key, jwa.ES512, 60*60*24*365, SubordinateStatementsConfig{})] *)
  NewFedEntity : string → list string → Signer → string + fedentities_FedEntity;
  (** [jwk.Set] *)
  JWKSet : Type;
  (** [FedEntity.EntityConfigurationPayload().JWKS] *)
  EntityConfigurationPayload_JWKS : fedentities_FedEntity → JWKSet;
  (** [storage.Status] and its constant [storage.StatusActive] *)
  Status : Type;
  StatusActive : Status;
  (** the error, if any, of [storage.NewInMemoryBadgerStorage()] when it
      is called for the entity of that name *)
  NewInMemoryBadgerStorage_err : string → option string;
  (** the error, if any, of [Write(entityID, info)] on the storage of the
      entity of that name *)
  Write_err : string → string → option string;
}.

(** ** [URL.Hostname] and [http.ServeMux] *)

Module GoNet.
Import GoStrings.

Definition is_digit (c : ascii) : bool :=
  let n := nat_of_ascii c in (48 <=? n) && (n <=? 57).

Fixpoint all_digits (s : string) : bool :=
  match s with
  | EmptyString => true
  | String c s' => is_digit c && all_digits s'
  end.

(** [validOptionalPort(port)]: empty, or a colon followed by digits *)
Definition validOptionalPort (port : string) : bool :=
  match port with
  | EmptyString => true
  | String c rest => if decide (c = ":"%char) then all_digits rest else false
  end.

(** [splitHostPort(hostPort)], first component: the port is cut at the
    last colon when what follows is a valid port, then the square
    brackets of an IPv6 literal are removed. *)
Definition stripPort (hostPort : string) : string :=
  let host :=
    match LastIndexByte hostPort ":"%char with
    | Some colon =>
        if validOptionalPort (drop_bytes colon hostPort)
        then take_bytes colon hostPort else hostPort
    | None => hostPort
    end in
  if HasPrefix host "[" && HasSuffix host "]"
  then take_bytes (String.length host - 2) (drop_bytes 1 host)
  else host.

(** [ServeMux], as [net/http] documents it: patterns name fixed paths or
    subtrees (ending in a slash), may start with a host name, longer
    patterns win over shorter ones and host-specific patterns over
    general ones; "if a handler already exists for pattern, Handle
    panics".  The matching below is the one of the classic multiplexer
    ([match] and [handler] in server.go); the pattern-aware multiplexer
    of later Go releases treats the host patterns registered here in the
    same way and also panics on a second registration of a pattern.
    The request host is taken with its port already stripped and the
    path already cleaned, as [ServeMux.Handler] passes them on.

    The table is the list of registered patterns with their handlers,
    in registration order.  [H] is the type of handlers. *)
Definition ServeMux (H : Type) : Type := list (string * H).

(** [mux.m[pattern]] *)
Fixpoint mux_lookup {H} (mux : ServeMux H) (pattern : string) : option H :=
  match mux with
  | [] => None
  | (p, h) :: mux' => if decide (p = pattern) then Some h else mux_lookup mux' pattern
  end.

(** [ServeMux.Handle(pattern, handler)]: an empty pattern or a
    pattern that is already registered panics. *)
Definition Handle {H} (mux : ServeMux H) (pattern : string) (h : H)
    : outcome (ServeMux H) :=
  if decide (pattern = EmptyString) then Panic PanicInvalidPattern
  else match mux_lookup mux pattern with
       | Some _ => Panic (PanicMultipleRegistrations pattern)
       | None => Ok (mux ++ [(pattern, h)])
       end.

Definition ends_in_slash (pattern : string) : bool :=
  HasSuffix pattern "/".

(** One step of the scan for the longest subtree pattern (one ending
    in a slash) that is a prefix of the path. *)
Definition longer_match {H} (path : string)
    (best : option (string * H)) (e : string * H) : option (string * H) :=
  if ends_in_slash e.1 && HasPrefix path e.1 then
    match best with
    | Some b => if String.length b.1 <? String.length e.1 then Some e else best
    | None => Some e
    end
  else best.

(** [ServeMux.match(path)]: an exact match first, then the longest
    subtree pattern. *)
Definition mux_match {H} (mux : ServeMux H) (path : string) : option H :=
  match mux_lookup mux path with
  | Some h => Some h
  | None => snd <$> foldl (longer_match path) None mux
  end.

(** [mux.hosts]: some pattern does not start with a slash *)
Definition mux_hosts {H} (mux : ServeMux H) : bool :=
  existsb (λ e : string * H, negb (HasPrefix e.1 "/")) mux.

(** [ServeMux.handler(host, path)]: host-specific patterns take
    precedence over generic ones; [None] is the NotFound handler. *)
Definition mux_handler {H} (mux : ServeMux H) (host path : string) : option H :=
  match (if mux_hosts mux then mux_match mux (host +:+ path) else None) with
  | Some h => Some h
  | None => mux_match mux path
  end.

End GoNet.

Example stripPort_port : GoNet.stripPort "ta.example.com:8443" = "ta.example.com".
Proof. reflexivity. Qed.

Example stripPort_plain : GoNet.stripPort "ta.example.com" = "ta.example.com".
Proof. reflexivity. Qed.

Example stripPort_ipv6 : GoNet.stripPort "[::1]:8080" = "::1".
Proof. reflexivity. Qed.

(** ** The program's data *)

(** [EntityKind] is a string type; any non-empty string passes the
    configuration check. *)
Abbreviation EntityKind := string (only parsing).
Definition EntityKindLeaf : EntityKind := "leaf".
Definition EntityKindTrustAnchor : EntityKind := "trust-anchor".
Definition EntityKindIntermediate : EntityKind := "intermediate".

(** One entry of [Config.Entities] *)
Record EntityConfig : Type := {
  cfg_Kind : EntityKind;
  cfg_Identifier : string;
}.

Record Config : Type := {
  Entities : gmap string EntityConfig;
  Edges : list string;
}.

(** A pointer to an [Entity]: an address in the heap of entities. *)
Abbreviation ptr := nat (only parsing).

Section Minifed.
Context `{W : Externals}.
Import GoStrings GoNet.

(** [storage.SubordinateInfo], the fields [main] fills in *)
Record SubordinateInfo : Type := {
  JWKS : JWKSet;
  EntityTypes : list string;
  EntityID : string;
  InfoStatus : Status;
}.

(** The subordinate storage of a [BadgerStorage]: records by entity
    identifier. *)
Definition BadgerStorage : Type := gmap string SubordinateInfo.

Record Entity : Type := {
  Superiors : list ptr;
  Subordinates : list ptr;
  Name : string;
  Kind : EntityKind;
  Identifier : URL;
  SigningPrivateKey : Signer;
  FedEntity : option fedentities_FedEntity;
  Storage : option BadgerStorage;
}.

Definition set_Superiors (f : list ptr → list ptr) (e : Entity) : Entity :=
  {| Superiors := f (Superiors e); Subordinates := Subordinates e; Name := Name e;
     Kind := Kind e; Identifier := Identifier e;
     SigningPrivateKey := SigningPrivateKey e; FedEntity := FedEntity e;
     Storage := Storage e |}.

Definition set_Subordinates (f : list ptr → list ptr) (e : Entity) : Entity :=
  {| Superiors := Superiors e; Subordinates := f (Subordinates e); Name := Name e;
     Kind := Kind e; Identifier := Identifier e;
     SigningPrivateKey := SigningPrivateKey e; FedEntity := FedEntity e;
     Storage := Storage e |}.

Definition set_FedEntity (fe : option fedentities_FedEntity) (e : Entity) : Entity :=
  {| Superiors := Superiors e; Subordinates := Subordinates e; Name := Name e;
     Kind := Kind e; Identifier := Identifier e;
     SigningPrivateKey := SigningPrivateKey e; FedEntity := fe;
     Storage := Storage e |}.

Definition set_Storage (db : option BadgerStorage) (e : Entity) : Entity :=
  {| Superiors := Superiors e; Subordinates := Subordinates e; Name := Name e;
     Kind := Kind e; Identifier := Identifier e;
     SigningPrivateKey := SigningPrivateKey e; FedEntity := FedEntity e;
     Storage := db |}.

(** The state [mustParseConfig] builds: the allocated entities, the
    map [entityNodes] and the number of keys drawn so far. *)
Record Graph : Type := {
  heap : list Entity;
  entityNodes : gmap string ptr;
  keygen_calls : nat;
}.

Definition empty_graph : Graph :=
  {| heap := []; entityNodes := ∅; keygen_calls := 0 |}.

(** ** [mustParseConfig] *)

(** The loop over [config.Entities], in the order [range] visits it. *)
Fixpoint check_entities (l : list (string * EntityConfig)) : outcome () :=
  match l with
  | [] => Ok ()
  | (key, entity) :: l' =>
      if decide (cfg_Kind entity = "") then Fatal (FatalKindMissing key)
      else if decide (cfg_Identifier entity = "") then Fatal (FatalIdentifierMissing key)
      else check_entities l'
  end.

(** [range m] in the order [order] of its keys. *)
Definition range_map {V} (m : gmap string V) (order : list string) : list (string * V) :=
  omap (λ k, (λ v, (k, v)) <$> m !! k) order.

(** [order] is one of the orders in which [range m] can visit [m]. *)
Definition range_order {V} (m : gmap string V) (order : list string) : Prop :=
  NoDup order ∧ list_to_set order = dom m.

(** [mustGenerateECDSAPrivateKey] *)
Definition mustGenerateECDSAPrivateKey (calls : nat) : outcome Signer :=
  match GenerateKey calls with
  | inl err => Fatal (FatalGenerateKey err)
  | inr sk => Ok sk
  end.

(** Lines 120-133 for the head and 135-148 for the tail, which are the
    same code: the node of [name] in [entityNodes], created on a miss. *)
Definition lookupOrCreate (g : Graph) (name : string) (config : EntityConfig)
    : outcome (Graph * ptr) :=
  match entityNodes g !! name with
  | Some node => Ok (g, node)
  | None =>
      match url_Parse (cfg_Identifier config) with
      | inl err => Fatal (FatalInvalidURL name err)
      | inr identifier =>
          sk ← mustGenerateECDSAPrivateKey (keygen_calls g);
          let node := length (heap g) in
          Ok ({| heap := heap g ++ [{| Superiors := []; Subordinates := [];
                                       Name := name; Kind := cfg_Kind config;
                                       Identifier := identifier;
                                       SigningPrivateKey := sk;
                                       FedEntity := None; Storage := None |}];
                 entityNodes := <[name := node]> (entityNodes g);
                 keygen_calls := S (keygen_calls g) |}, node)
      end
  end.

(** Lines 150-151 *)
Definition link (g : Graph) (headNode tailNode : ptr) : Graph :=
  let heap1 := alter (set_Subordinates (λ l, l ++ [tailNode])) headNode (heap g) in
  let heap2 := alter (set_Superiors (λ l, l ++ [headNode])) tailNode heap1 in
  {| heap := heap2; entityNodes := entityNodes g; keygen_calls := keygen_calls g |}.

(** The body of the loop over [config.Edges] *)
Definition edge_step (config : Config) (g : Graph) (index : nat) (edge : string)
    : outcome Graph :=
  let split := Split edge "->" in
  match split !! 0, split !! 1 with
  | Some split0, Some split1 =>
      let head := TrimSpace split0 in
      let tail := TrimSpace split1 in
      match Entities config !! head with
      | None => Fatal (FatalUndefinedReference head index)
      | Some headConfig =>
          match Entities config !! tail with
          | None => Fatal (FatalUndefinedReference head index)
          | Some tailConfig =>
              '(g1, headNode) ← lookupOrCreate g head headConfig;
              '(g2, tailNode) ← lookupOrCreate g1 tail tailConfig;
              Ok (link g2 headNode tailNode)
          end
      end
  | Some _, None => Panic (PanicIndexOutOfRange 1 (length split))
  | None, _ => Panic (PanicIndexOutOfRange 0 (length split))
  end.

Fixpoint edge_loop (config : Config) (g : Graph) (index : nat) (edges : list string)
    : outcome Graph :=
  match edges with
  | [] => Ok g
  | edge :: edges' =>
      g' ← edge_step config g index edge;
      edge_loop config g' (S index) edges'
  end.

(** [mustParseConfig], from the parsed [config] on.  [order0] is the
    order in which [range config.Entities] visits the declarations. *)
Definition mustParseConfig (config : Config) (order0 : list string) : outcome Graph :=
  _ ← check_entities (range_map (Entities config) order0);
  edge_loop config empty_graph 0 (Edges config).

(** ** [main] *)

(** Reading through a pointer; an address outside the heap stands for
    a nil pointer. *)
Definition deref (h : list Entity) (p : ptr) : outcome Entity :=
  match h !! p with
  | Some e => Ok e
  | None => Panic PanicNilDereference
  end.

(** Lines 163-166 *)
Fixpoint authorityHints (h : list Entity) (superiors : list ptr) : outcome (list string) :=
  match superiors with
  | [] => Ok []
  | a :: superiors' =>
      authority ← deref h a;
      hints ← authorityHints h superiors';
      Ok (URL_String (Identifier authority) :: hints)
  end.

(** The test of line 196 *)
Definition owns_trust_store (kind : EntityKind) : bool :=
  bool_decide (kind = EntityKindIntermediate) || bool_decide (kind = EntityKindTrustAnchor).

(** The process after [mustParseConfig]: the entities and the
    dispatch table.  A handler is named by the entity whose
    [FedEntity] it closes over. *)
Record Process : Type := {
  entities_heap : list Entity;
  mux : ServeMux ptr;
}.

(** The body of the first loop of [main], lines 162-218 *)
Definition register_entity (st : Process) (p : ptr) : outcome Process :=
  let h := entities_heap st in
  entity ← deref h p;
  hints ← authorityHints h (Superiors entity);
  match NewFedEntity (URL_String (Identifier entity)) hints (SigningPrivateKey entity) with
  | inl err => Fatal (FatalNewFedEntity (Name entity) err)
  | inr fedentity =>
      let h1 := alter (set_FedEntity (Some fedentity)) p h in
      h2 ← (if owns_trust_store (Kind entity) then
              match NewInMemoryBadgerStorage_err (Name entity) with
              | Some err => Fatal (FatalNewStorage (Name entity) err)
              | None => Ok (alter (set_Storage (Some ∅)) p h1)
              end
            else Ok h1);
      let host := stripPort (URL_Host (Identifier entity)) in
      mux' ← Handle (mux st) (host +:+ "/") p;
      Ok {| entities_heap := h2; mux := mux' |}
  end.

Fixpoint register_loop (st : Process) (entities : list ptr) : outcome Process :=
  match entities with
  | [] => Ok st
  | p :: entities' => st' ← register_entity st p; register_loop st' entities'
  end.

(** The body of the inner loop of lines 222-240 *)
Definition establish_trust (h : list Entity) (parent sub : ptr) : outcome (list Entity) :=
  entity ← deref h parent;
  subordinate ← deref h sub;
  match FedEntity subordinate with
  | None => Panic PanicNilDereference
  | Some fe =>
      let info := {| JWKS := EntityConfigurationPayload_JWKS fe;
                     EntityTypes := [];
                     EntityID := URL_String (Identifier subordinate);
                     InfoStatus := StatusActive |} in
      match Storage entity with
      | None => Panic PanicNilDereference
      | Some db =>
          match Write_err (Name entity) (URL_String (Identifier subordinate)) with
          | Some err => Fatal (FatalWrite (Name entity) (Name subordinate) err)
          | None =>
              Ok (alter (set_Storage (Some (<[URL_String (Identifier subordinate) := info]> db)))
                        parent h)
          end
      end
  end.

Fixpoint subordinates_loop (h : list Entity) (parent : ptr) (subs : list ptr)
    : outcome (list Entity) :=
  match subs with
  | [] => Ok h
  | sub :: subs' => h' ← establish_trust h parent sub; subordinates_loop h' parent subs'
  end.

(** The second loop of [main], lines 221-241 *)
Fixpoint trust_loop (h : list Entity) (entities : list ptr) : outcome (list Entity) :=
  match entities with
  | [] => Ok h
  | p :: entities' =>
      entity ← deref h p;
      h' ← subordinates_loop h p (Subordinates entity);
      trust_loop h' entities'
  end.

(** [main] up to the call of [ListenAndServe]: [Ok] is the process
    that starts listening.  [order1] and [order2] are the orders in
    which the two [range entities] loops visit the map. *)
Definition main (config : Config) (order0 order1 order2 : list string) : outcome Process :=
  g ← mustParseConfig config order0;
  st ← register_loop {| entities_heap := heap g; mux := [] |}
                     (snd <$> range_map (entityNodes g) order1);
  h ← trust_loop (entities_heap st) (snd <$> range_map (entityNodes g) order2);
  Ok {| entities_heap := h; mux := mux st |}.

End Minifed.

(** ** A concrete world to run the program in

    Identifiers of the form [scheme://host[:port][/path]] are parsed as
    [net/url] parses them; a string starting with a colon is rejected
    ("missing protocol scheme").  Keys are numbered in the order they
    are drawn, an entity's key set is its key, and nothing in the
    environment fails. *)

Module Sample.
Import GoStrings.

Record url := { url_text : string; url_host : string }.

Definition parse (s : string) : string + url :=
  if HasPrefix s ":" then inl "missing protocol scheme"
  else match Index s "://" with
       | None => inr {| url_text := s; url_host := "" |}
       | Some i =>
           let rest := drop_bytes (i + 3) s in
           let authority :=
             match Index rest "/" with
             | Some j => take_bytes j rest
             | None => rest
             end in
           inr {| url_text := s; url_host := authority |}
       end.

Definition world : Externals := {|
  URL := url;
  url_Parse := parse;
  URL_String := url_text;
  URL_Host := url_host;
  Signer := nat;
  GenerateKey := λ n, inr n;
  fedentities_FedEntity := string * list string * nat;
  NewFedEntity := λ id hints sk, inr (id, hints, sk);
  JWKSet := list nat;
  EntityConfigurationPayload_JWKS := λ fe, [fe.2];
  Status := ();
  StatusActive := ();
  NewInMemoryBadgerStorage_err := λ _, None;
  Write_err := λ _ _, None;
|}.

(** The example of the specification: a trust anchor with a leaf and
    an intermediate below it. *)
Definition example_config : Config := {|
  Entities := list_to_map
    [("TA-A", {| cfg_Kind := "trust-anchor"; cfg_Identifier := "https://ta-a.example.com" |});
     ("IM-A", {| cfg_Kind := "intermediate"; cfg_Identifier := "https://im-a.example.com" |});
     ("OP-A", {| cfg_Kind := "leaf"; cfg_Identifier := "https://op-a.example.com" |})];
  Edges := ["TA-A -> OP-A"; "TA-A -> IM-A"];
|}.

Definition example_order : list string := ["TA-A"; "IM-A"; "OP-A"].

End Sample.

(** * Properties *)

(** ** Splitting and trimming *)

Module GoStringsFacts.
Import GoStrings.

Lemma length_drop_bytes n s : String.length (drop_bytes n s) = String.length s - n.
Proof.
  revert s; induction n as [|n IH]; intros [|c s]; simpl; auto with lia.
Qed.

Lemma HasPrefix_length s p : HasPrefix s p = true → String.length p ≤ String.length s.
Proof.
  revert s; induction p as [|c p IH]; intros [|d s]; simpl; try lia; try discriminate.
  destruct (decide (c = d)); [|discriminate]. intros Hp%IH. lia.
Qed.

Lemma Index_bound s sep i :
  Index s sep = Some i → i + String.length sep ≤ String.length s.
Proof.
  revert i; induction s as [|c s IH]; intros i; cbn [Index].
  - destruct sep; simpl; [|discriminate]. intros [= <-]. simpl. lia.
  - destruct (HasPrefix (String c s) sep) eqn:Hp.
    + intros [= <-]. apply HasPrefix_length in Hp. simpl in *. lia.
    + destruct (Index s sep) as [j|] eqn:Hj; simpl; [|discriminate].
      intros [= <-]. specialize (IH j eq_refl). lia.
Qed.

Lemma Index_empty sep : sep ≠ EmptyString → Index EmptyString sep = None.
Proof. destruct sep; simpl; congruence. Qed.

(** The fuel of [Count_loop] does not matter once it covers the
    length of the string. *)
Lemma Count_loop_fuel sep f1 f2 s :
  sep ≠ EmptyString →
  String.length s ≤ f1 → String.length s ≤ f2 →
  Count_loop f1 s sep = Count_loop f2 s sep.
Proof.
  intros Hsep. revert f2 s. induction f1 as [|f1 IH]; intros f2 s H1 H2.
  - destruct s; [|simpl in H1; lia].
    destruct f2; cbn [Count_loop]; [done|]. by rewrite Index_empty.
  - destruct f2 as [|f2].
    + destruct s; [|simpl in H2; lia]. cbn [Count_loop]. by rewrite Index_empty.
    + cbn [Count_loop]. destruct (Index s sep) as [i|] eqn:Hi; [|done].
      f_equal. pose proof (Index_bound _ _ _ Hi) as Hb.
      assert (0 < String.length sep) by (destruct sep; simpl; [done|lia]).
      apply IH; rewrite length_drop_bytes; lia.
Qed.

Lemma Split_no_sep s sep : Index s sep = None → Split s sep = [s].
Proof.
  intros Hi. unfold Split, Count.
  destruct (String.length s); cbn [Count_loop genSplit_loop]; [done|]. by rewrite Hi.
Qed.

(** A string with an occurrence of the separator is cut at the
    leftmost one. *)
Lemma Split_cut s sep i :
  sep ≠ EmptyString → Index s sep = Some i →
  Split s sep = take_bytes i s :: Split (drop_bytes (i + String.length sep) s) sep.
Proof.
  intros Hsep Hi. unfold Split at 1. unfold Count.
  pose proof (Index_bound _ _ _ Hi) as Hb.
  assert (0 < String.length sep) by (destruct sep; simpl; [done|lia]).
  destruct (String.length s) as [|n] eqn:Hn; [lia|].
  cbn [Count_loop]. rewrite Hi. cbn [genSplit_loop]. rewrite Hi. f_equal.
  unfold Split, Count. f_equal.
  apply Count_loop_fuel; [done| |done].
  rewrite length_drop_bytes. lia.
Qed.

Lemma take_bytes_app a r : take_bytes (String.length a) (a +:+ r) = a.
Proof. induction a as [|c a IH]; simpl; [by destruct r|by rewrite IH]. Qed.

Lemma drop_bytes_app a r : drop_bytes (String.length a) (a +:+ r) = r.
Proof. induction a as [|c a IH]; simpl; done. Qed.

Lemma drop_bytes_add n m s : drop_bytes (n + m) s = drop_bytes m (drop_bytes n s).
Proof.
  revert s; induction n as [|n IH]; intros s; simpl; [done|].
  destruct s; [by destruct m|]. apply IH.
Qed.

Lemma HasPrefix_arrow s : HasPrefix s "->" = true ↔ ∃ r, s = "->" +:+ r.
Proof.
  split.
  - destruct s as [|c [|d s]]; cbn [HasPrefix]; try discriminate.
    + by case_decide.
    + repeat case_decide; try discriminate. subst. intros _. by exists s.
  - intros [r ->]. reflexivity.
Qed.

Lemma Index_cons_None c s sep :
  Index (String c s) sep = None ↔ HasPrefix (String c s) sep = false ∧ Index s sep = None.
Proof.
  cbn [Index]. destruct (HasPrefix (String c s) sep); [by split; [|intros []]|].
  destruct (Index s sep); simpl; by split; [|intros []].
Qed.

(** In [a ++ "->" ++ r] with no arrow inside [a], the leftmost arrow
    is the one written. *)
Lemma Index_arrow a r :
  Index a "->" = None → Index (a +:+ "->" +:+ r) "->" = Some (String.length a).
Proof.
  induction a as [|c a IH].
  - intros _. reflexivity.
  - intros [Hp Ha]%Index_cons_None.
    change (Index (String c (a +:+ "->" +:+ r)) "->" = Some (S (String.length a))).
    cbn [Index]. rewrite (IH Ha).
    destruct (HasPrefix (String c (a +:+ "->" +:+ r)) "->") eqn:Hq; [|done].
    apply HasPrefix_arrow in Hq as [q Hq]. exfalso.
    destruct a as [|d a].
    + vm_compute in Hq. congruence.
    + injection Hq as -> -> _.
      rewrite (proj2 (HasPrefix_arrow _)) in Hp by (by eexists); discriminate.
Qed.

Lemma Split_arrow a r :
  Index a "->" = None → Split (a +:+ "->" +:+ r) "->" = a :: Split r "->".
Proof.
  intros Ha. rewrite (Split_cut _ _ (String.length a)); [|done|by apply Index_arrow].
  rewrite take_bytes_app, drop_bytes_add, drop_bytes_app. done.
Qed.

Lemma Split_nonempty s sep : ∃ p ps, Split s sep = p :: ps.
Proof.
  unfold Split. destruct (Count s sep); simpl; [by eauto|].
  destruct (Index s sep); eauto.
Qed.

(** *** Bytes that do not occur *)

Lemma LastIndexByte_cons_None d s c :
  LastIndexByte (String d s) c = None ↔ d ≠ c ∧ LastIndexByte s c = None.
Proof.
  cbn [LastIndexByte]. destruct (LastIndexByte s c); [naive_solver|].
  case_decide; naive_solver.
Qed.

Lemma LastIndexByte_take n s c :
  LastIndexByte s c = None → LastIndexByte (take_bytes n s) c = None.
Proof.
  revert s; induction n as [|n IH]; intros [|d s]; try done.
  intros [? ?]%LastIndexByte_cons_None. cbn [take_bytes].
  apply LastIndexByte_cons_None. auto.
Qed.

Lemma LastIndexByte_drop n s c :
  LastIndexByte s c = None → LastIndexByte (drop_bytes n s) c = None.
Proof.
  revert s; induction n as [|n IH]; intros [|d s]; try done.
  intros [? ?]%LastIndexByte_cons_None. cbn [drop_bytes]. auto.
Qed.

Lemma append_nil_l s : "" +:+ s = s.
Proof. done. Qed.

Lemma append_cons c a s : String c a +:+ s = String c (a +:+ s).
Proof. done. Qed.

Lemma append_assoc a b c : (a +:+ b) +:+ c = a +:+ b +:+ c.
Proof. induction a as [|d a IH]; [done|]. by rewrite !append_cons, IH. Qed.

Lemma append_nil_r a : a +:+ "" = a.
Proof. induction a as [|d a IH]; [done|]. by rewrite append_cons, IH. Qed.

Lemma HasPrefix_cons c s d p :
  HasPrefix (String c s) (String d p) = if decide (d = c) then HasPrefix s p else false.
Proof. done. Qed.

Lemma HasPrefix_app a r : HasPrefix (a +:+ r) a = true.
Proof.
  induction a as [|c a IH]; [done|].
  rewrite append_cons, HasPrefix_cons. by case_decide.
Qed.

Lemma HasPrefix_refl a : HasPrefix a a = true.
Proof. rewrite <-(append_nil_r a) at 1. apply HasPrefix_app. Qed.

(** Two strings without the byte [c] that are each followed by [c]:
    one is a prefix of the other only when they are equal. *)
Lemma HasPrefix_terminated c a b r :
  LastIndexByte a c = None → LastIndexByte b c = None →
  HasPrefix (b +:+ String c r) (a +:+ String c "") = true → a = b.
Proof.
  revert b; induction a as [|x a IH]; intros [|y b] Ha Hb; try done.
  - apply LastIndexByte_cons_None in Hb as [Hy _].
    rewrite append_nil_l, append_cons, HasPrefix_cons. by case_decide.
  - apply LastIndexByte_cons_None in Ha as [Hx _].
    rewrite append_nil_l, append_cons, HasPrefix_cons. by case_decide.
  - apply LastIndexByte_cons_None in Ha as [_ Ha].
    apply LastIndexByte_cons_None in Hb as [_ Hb].
    rewrite !append_cons, HasPrefix_cons. case_decide; [|done].
    intros ->%IH; [|done..]. congruence.
Qed.

Lemma rev_bytes_snoc a c : rev_bytes (a +:+ String c "") = String c (rev_bytes a).
Proof.
  unfold rev_bytes.
  assert (list_ascii_of_string (a +:+ String c "") = list_ascii_of_string a ++ [c]) as ->.
  { induction a as [|d a IH]; [done|]. rewrite append_cons. simpl. by rewrite IH. }
  by rewrite rev_unit.
Qed.

Lemma HasSuffix_snoc a c : HasSuffix (a +:+ String c "") (String c "") = true.
Proof.
  unfold HasSuffix. rewrite rev_bytes_snoc.
  change (rev_bytes (String c "")) with (String c "").
  rewrite HasPrefix_cons. by case_decide.
Qed.

Lemma HasPrefix_take n t p : HasPrefix (take_bytes n t) p = true → HasPrefix t p = true.
Proof.
  revert n t. induction p as [|d p IH]; intros n t; [done|].
  destruct n as [|n], t as [|x t]; try done.
  cbn [take_bytes]. rewrite !HasPrefix_cons. case_decide; [|done]. apply IH.
Qed.

(** The leftmost occurrence is the first: nothing occurs in what
    precedes it. *)
Lemma Index_take s sep i :
  sep ≠ "" → Index s sep = Some i → Index (take_bytes i s) sep = None.
Proof.
  intros Hsep. revert i. induction s as [|c s IH]; intros i.
  - by rewrite Index_empty.
  - cbn [Index]. destruct (HasPrefix (String c s) sep) eqn:Hp.
    + intros [= <-]. cbn [take_bytes]. by apply Index_empty.
    + destruct (Index s sep) as [j|] eqn:Hj; [|done]. intros [= <-].
      cbn [take_bytes]. apply Index_cons_None. split; [|by apply IH].
      destruct (HasPrefix (String c (take_bytes j s)) sep) eqn:Hq; [|done].
      apply (HasPrefix_take (S j) (String c s)) in Hq. congruence.
Qed.

Lemma Index_split s sep i :
  Index s sep = Some i →
  s = take_bytes i s +:+ sep +:+ drop_bytes (i + String.length sep) s.
Proof.
  revert i. induction s as [|c s IH]; intros i.
  - cbn [Index]. destruct sep; [|done]. by intros [= <-].
  - cbn [Index]. destruct (HasPrefix (String c s) sep) eqn:Hp.
    + intros [= <-]. cbn [take_bytes]. rewrite append_nil_l. simpl.
      revert Hp. generalize (String c s). clear. intros t.
      revert t. induction sep as [|d sep IHs]; intros t; [done|].
      destruct t as [|x t]; [done|]. rewrite HasPrefix_cons.
      case_decide; [|done]. subst. intros Hp. rewrite append_cons. simpl.
      f_equal. by apply IHs.
    + destruct (Index s sep) as [j|] eqn:Hj; [|done]. intros [= <-].
      cbn [take_bytes]. rewrite append_cons. simpl. f_equal. by apply IH.
Qed.

End GoStringsFacts.

(** ** The topology builder *)

Section BuildFacts.
Context `{W : Externals}.
Import GoStrings GoNet.

(** What an edge string denotes: the trimmed first two pieces of the
    split, when there are two. *)
Definition edge_names (edge : string) : option (string * string) :=
  match Split edge "->" with
  | split0 :: split1 :: _ => Some (TrimSpace split0, TrimSpace split1)
  | _ => None
  end.

Lemma edge_step_malformed config g index edge :
  edge_names edge = None →
  edge_step config g index edge = Panic (PanicIndexOutOfRange 1 1).
Proof.
  unfold edge_names, edge_step.
  destruct (GoStringsFacts.Split_nonempty edge "->") as (p & ps & ->).
  by destruct ps.
Qed.

Lemma edge_step_names config g index edge head tail :
  edge_names edge = Some (head, tail) →
  edge_step config g index edge =
    match Entities config !! head with
    | None => Fatal (FatalUndefinedReference head index)
    | Some headConfig =>
        match Entities config !! tail with
        | None => Fatal (FatalUndefinedReference head index)
        | Some tailConfig =>
            '(g1, headNode) ← lookupOrCreate g head headConfig;
            '(g2, tailNode) ← lookupOrCreate g1 tail tailConfig;
            (Ok (link g2 headNode tailNode) : outcome Graph)
        end
    end.
Proof.
  unfold edge_names, edge_step.
  destruct (Split edge "->") as [|p [|q ps]]; try discriminate.
  by intros [= <- <-].
Qed.

(** The entity [lookupOrCreate] allocates for [name]. *)
Definition new_entity (name : string) (config : EntityConfig) (identifier : URL)
    (sk : Signer) : Entity :=
  {| Superiors := []; Subordinates := []; Name := name; Kind := cfg_Kind config;
     Identifier := identifier; SigningPrivateKey := sk;
     FedEntity := None; Storage := None |}.

Definition alloc (g : Graph) (name : string) (e : Entity) : Graph :=
  {| heap := heap g ++ [e];
     entityNodes := <[name := length (heap g)]> (entityNodes g);
     keygen_calls := S (keygen_calls g) |}.

(** The two ways [lookupOrCreate] returns: a hit leaves the graph as
    it is, a miss parses the identifier, draws one key and allocates. *)
Lemma lookupOrCreate_Ok g name config g' p :
  lookupOrCreate g name config = Ok (g', p) ↔
    (entityNodes g !! name = Some p ∧ g' = g) ∨
    (entityNodes g !! name = None ∧ p = length (heap g) ∧
     ∃ u sk, url_Parse (cfg_Identifier config) = inr u ∧
             GenerateKey (keygen_calls g) = inr sk ∧
             g' = alloc g name (new_entity name config u sk)).
Proof.
  unfold lookupOrCreate, mustGenerateECDSAPrivateKey, alloc, new_entity.
  destruct (entityNodes g !! name) as [q|] eqn:Hq.
  { split; [intros [= <- <-]; by left|]. intros [[[= ->] ->]|[? _]]; done. }
  destruct (url_Parse (cfg_Identifier config)) as [err|u] eqn:Hu.
  { split; [done|]. intros [[? _]|(_ & _ & ? & ? & ? & _)]; done. }
  destruct (GenerateKey (keygen_calls g)) as [err|sk] eqn:Hk; simpl.
  { split; [done|]. intros [[? _]|(_ & _ & ? & ? & _ & ? & _)]; done. }
  split.
  - intros [= <- <-]. right. eauto 10.
  - intros [[? _]|(_ & -> & ? & ? & [= <-] & [= <-] & ->)]; done.
Qed.

(** Well-formedness of the graph under construction: names and
    addresses are in bijection, every node carries what its
    declaration says, and its key is the one drawn when it was
    allocated. *)
Record graph_wf (config : Config) (g : Graph) : Prop := {
  wf_node : ∀ n p, entityNodes g !! n = Some p →
              ∃ e, heap g !! p = Some e ∧ Name e = n;
  wf_name : ∀ p e, heap g !! p = Some e → entityNodes g !! Name e = Some p;
  wf_calls : keygen_calls g = length (heap g);
  wf_size : size (entityNodes g) = length (heap g);
  wf_key : ∀ p e, heap g !! p = Some e → GenerateKey p = inr (SigningPrivateKey e);
  wf_config : ∀ p e, heap g !! p = Some e →
                ∃ c, Entities config !! Name e = Some c ∧ Kind e = cfg_Kind c ∧
                     url_Parse (cfg_Identifier c) = inr (Identifier e);
  wf_fresh : ∀ p e, heap g !! p = Some e → FedEntity e = None ∧ Storage e = None;
}.

(** The links of the graph are those of the edges [pairs] read so far. *)
Record graph_links (g : Graph) (pairs : list (string * string)) : Prop := {
  links_dom : ∀ h t, (h, t) ∈ pairs →
                is_Some (entityNodes g !! h) ∧ is_Some (entityNodes g !! t);
  links_sub : ∀ p e q, heap g !! p = Some e →
                (q ∈ Subordinates e ↔
                 ∃ h t, (h, t) ∈ pairs ∧ entityNodes g !! h = Some p ∧
                        entityNodes g !! t = Some q);
  links_sup : ∀ q e p, heap g !! q = Some e →
                (p ∈ Superiors e ↔
                 ∃ h t, (h, t) ∈ pairs ∧ entityNodes g !! h = Some p ∧
                        entityNodes g !! t = Some q);
}.

Lemma empty_graph_wf config : graph_wf config empty_graph.
Proof. split; simpl; try done. Qed.

Lemma empty_graph_links : graph_links empty_graph [].
Proof.
  split; simpl.
  - intros h t Hin. by apply elem_of_nil in Hin.
  - intros p e q Hp. done.
  - intros p e q Hp. done.
Qed.

Lemma wf_node_lt config g n p :
  graph_wf config g → entityNodes g !! n = Some p → p < length (heap g).
Proof. intros Hwf Hn. destruct (wf_node _ _ Hwf _ _ Hn) as (e & He & _). by eapply lookup_lt_Some. Qed.

Lemma wf_inj config g n m p :
  graph_wf config g → entityNodes g !! n = Some p → entityNodes g !! m = Some p → n = m.
Proof.
  intros Hwf Hn Hm.
  destruct (wf_node _ _ Hwf _ _ Hn) as (e & He & <-).
  destruct (wf_node _ _ Hwf _ _ Hm) as (e' & He' & <-). congruence.
Qed.

Lemma alloc_wf config g name c u sk :
  graph_wf config g →
  entityNodes g !! name = None →
  Entities config !! name = Some c →
  url_Parse (cfg_Identifier c) = inr u →
  GenerateKey (keygen_calls g) = inr sk →
  graph_wf config (alloc g name (new_entity name c u sk)).
Proof.
  intros Hwf Hnone Hc Hu Hk. split; simpl.
  - intros n p. rewrite lookup_insert. case_decide as Hn.
    + intros [= <-]. subst n. rewrite lookup_app_r, Nat.sub_diag by done. eauto.
    + intros Hp. destruct (wf_node _ _ Hwf _ _ Hp) as (e & He & <-).
      exists e. split; [|done]. by apply lookup_app_l_Some.
  - intros p e [[_ He]|[-> <-]]%lookup_snoc_Some; simpl.
    + rewrite lookup_insert_ne; [by apply (wf_name _ _ Hwf)|].
      intros ->. pose proof (wf_name _ _ Hwf _ _ He). congruence.
    + by rewrite lookup_insert_eq.
  - rewrite length_app. simpl. rewrite (wf_calls _ _ Hwf). lia.
  - rewrite map_size_insert_None by done. rewrite length_app. simpl.
    rewrite (wf_size _ _ Hwf). lia.
  - intros p e [[_ He]|[-> <-]]%lookup_snoc_Some; simpl.
    + by apply (wf_key _ _ Hwf p).
    + by rewrite <-(wf_calls _ _ Hwf).
  - intros p e [[_ He]|[-> <-]]%lookup_snoc_Some; simpl.
    + by apply (wf_config _ _ Hwf p).
    + eauto.
  - intros p e [[_ He]|[-> <-]]%lookup_snoc_Some; simpl.
    + by apply (wf_fresh _ _ Hwf p).
    + done.
Qed.

Lemma alloc_links config g pairs name e :
  graph_wf config g →
  graph_links g pairs →
  entityNodes g !! name = None →
  Subordinates e = [] → Superiors e = [] →
  graph_links (alloc g name e) pairs.
Proof.
  intros Hwf Hl Hnone Hsub Hsup.
  assert (∀ h t, (h, t) ∈ pairs → h ≠ name ∧ t ≠ name) as Hne.
  { intros h t [[? Hh] [? Ht]]%(links_dom _ _ Hl). split; congruence. }
  assert (∀ n, n ≠ name → entityNodes g !! n ≠ Some (length (heap g))) as Hlen.
  { intros n _ Hn%(wf_node_lt _ _ _ _ Hwf). lia. }
  split; simpl.
  - intros h t Hin. destruct (Hne _ _ Hin) as [? ?].
    rewrite !lookup_insert_ne by done. by eapply links_dom.
  - intros p e' q [[_ He]|[-> <-]]%lookup_snoc_Some.
    + rewrite (links_sub _ _ Hl _ _ q He). split.
      * intros (h & t & Hin & Hh & Ht). exists h, t.
        destruct (Hne _ _ Hin). by rewrite !lookup_insert_ne.
      * intros (h & t & Hin & Hh & Ht). exists h, t.
        destruct (Hne _ _ Hin). by rewrite !lookup_insert_ne in Hh, Ht.
    + rewrite Hsub. split; [by intros ?%elem_of_nil|].
      intros (h & t & Hin & Hh & Ht). destruct (Hne _ _ Hin).
      rewrite lookup_insert_ne in Hh by done. by eapply Hlen in Hh.
  - intros q e' p [[_ He]|[-> <-]]%lookup_snoc_Some.
    + rewrite (links_sup _ _ Hl _ _ p He). split.
      * intros (h & t & Hin & Hh & Ht). exists h, t.
        destruct (Hne _ _ Hin). by rewrite !lookup_insert_ne.
      * intros (h & t & Hin & Hh & Ht). exists h, t.
        destruct (Hne _ _ Hin). by rewrite !lookup_insert_ne in Hh, Ht.
    + rewrite Hsup. split; [by intros ?%elem_of_nil|].
      intros (h & t & Hin & Hh & Ht). destruct (Hne _ _ Hin).
      rewrite lookup_insert_ne in Ht by done. by eapply Hlen in Ht.
Qed.

(** What [link] does to the entity at an address. *)
Definition linked (headNode tailNode p : ptr) (e : Entity) : Entity :=
  set_Superiors (λ l, if decide (tailNode = p) then l ++ [headNode] else l)
    (set_Subordinates (λ l, if decide (headNode = p) then l ++ [tailNode] else l) e).

Lemma link_lookup g headNode tailNode p :
  heap (link g headNode tailNode) !! p = linked headNode tailNode p <$> heap g !! p.
Proof.
  unfold link, linked; simpl. rewrite !list_lookup_alter.
  repeat case_decide; simplify_eq; destruct (heap g !! p) as [[]|]; done.
Qed.

Lemma link_lookup_Some g headNode tailNode p e' :
  heap (link g headNode tailNode) !! p = Some e' ↔
  ∃ e, heap g !! p = Some e ∧ e' = linked headNode tailNode p e.
Proof.
  rewrite link_lookup. destruct (heap g !! p); simpl; naive_solver.
Qed.

Lemma link_wf config g headNode tailNode :
  graph_wf config g → graph_wf config (link g headNode tailNode).
Proof.
  intros Hwf. split.
  - intros n q Hn. destruct (wf_node _ _ Hwf _ _ Hn) as (e & He & <-).
    exists (linked headNode tailNode q e). by rewrite link_lookup, He.
  - intros q e' (e & He & ->)%link_lookup_Some; simpl. by apply (wf_name _ _ Hwf).
  - simpl. rewrite !length_alter. by apply wf_calls with config.
  - simpl. rewrite !length_alter. by apply wf_size with config.
  - intros q e' (e & He & ->)%link_lookup_Some; simpl. by apply (wf_key _ _ Hwf q).
  - intros q e' (e & He & ->)%link_lookup_Some; simpl. by apply (wf_config _ _ Hwf q).
  - intros q e' (e & He & ->)%link_lookup_Some; simpl. by apply (wf_fresh _ _ Hwf q).
Qed.

Lemma link_links config g pairs h t headNode tailNode :
  graph_wf config g →
  graph_links g pairs →
  entityNodes g !! h = Some headNode →
  entityNodes g !! t = Some tailNode →
  graph_links (link g headNode tailNode) (pairs ++ [(h, t)]).
Proof.
  intros Hwf Hl Hh Ht. split.
  - intros h' t' [Hin|Heq%list_elem_of_singleton]%elem_of_app; simpl.
    + by apply (links_dom _ _ Hl).
    + injection Heq as -> ->. eauto.
  - intros p e' q (e & He & ->)%link_lookup_Some. simpl.
    setoid_rewrite elem_of_app. setoid_rewrite list_elem_of_singleton.
    case_decide as Hp.
    + subst p. rewrite elem_of_app, list_elem_of_singleton, (links_sub _ _ Hl _ _ q He).
      split.
      * intros [(h' & t' & ? & ? & ?)| ->]; [by eauto 10|]. exists h, t. eauto.
      * intros (h' & t' & [?|[= -> ->]] & Hh' & Ht'); [by eauto 10|].
        right. congruence.
    + rewrite (links_sub _ _ Hl _ _ q He). split.
      * intros (h' & t' & ? & ? & ?). eauto 10.
      * intros (h' & t' & [?|[= -> ->]] & Hh' & Ht'); [by eauto 10|]. congruence.
  - intros q e' p (e & He & ->)%link_lookup_Some. simpl.
    setoid_rewrite elem_of_app. setoid_rewrite list_elem_of_singleton.
    case_decide as Hq.
    + subst q. rewrite elem_of_app, list_elem_of_singleton, (links_sup _ _ Hl _ _ p He).
      split.
      * intros [(h' & t' & ? & ? & ?)| ->]; [by eauto 10|]. exists h, t. eauto.
      * intros (h' & t' & [?|[= -> ->]] & Hh' & Ht'); [by eauto 10|].
        right. congruence.
    + rewrite (links_sup _ _ Hl _ _ p He). split.
      * intros (h' & t' & ? & ? & ?). eauto 10.
      * intros (h' & t' & [?|[= -> ->]] & Hh' & Ht'); [by eauto 10|]. congruence.
Qed.

(** A later graph keeps every node of an earlier one at its address,
    with its name, kind, identifier and key. *)
Record graph_extends (g g' : Graph) : Prop := {
  ext_nodes : ∀ n p, entityNodes g !! n = Some p → entityNodes g' !! n = Some p;
  ext_calls : keygen_calls g ≤ keygen_calls g';
  ext_heap : ∀ p e, heap g !! p = Some e →
               ∃ e', heap g' !! p = Some e' ∧ Name e' = Name e ∧ Kind e' = Kind e ∧
                     Identifier e' = Identifier e ∧
                     SigningPrivateKey e' = SigningPrivateKey e;
}.

Lemma graph_extends_refl g : graph_extends g g.
Proof. split; eauto 10. Qed.

Lemma graph_extends_trans g1 g2 g3 :
  graph_extends g1 g2 → graph_extends g2 g3 → graph_extends g1 g3.
Proof.
  intros H12 H23. split.
  - intros n p Hn. by apply (ext_nodes _ _ H23), (ext_nodes _ _ H12).
  - pose proof (ext_calls _ _ H12). pose proof (ext_calls _ _ H23). lia.
  - intros p e He.
    destruct (ext_heap _ _ H12 _ _ He) as (e2 & He2 & ? & ? & ? & ?).
    destruct (ext_heap _ _ H23 _ _ He2) as (e3 & He3 & ? & ? & ? & ?).
    exists e3. repeat split; congruence.
Qed.

Lemma alloc_extends g name e :
  entityNodes g !! name = None → graph_extends g (alloc g name e).
Proof.
  intros Hnone. split; simpl.
  - intros n p Hn. rewrite lookup_insert_ne; [done|congruence].
  - lia.
  - intros p e' He. exists e'. split_and!; [by apply lookup_app_l_Some|done..].
Qed.

Lemma link_extends g headNode tailNode : graph_extends g (link g headNode tailNode).
Proof.
  split; simpl; [done|done|].
  intros p e He. exists (linked headNode tailNode p e).
  change (alter _ _ (alter _ _ (heap g))) with (heap (link g headNode tailNode)).
  by rewrite link_lookup, He.
Qed.

(** [lookupOrCreate] keeps the invariants, returns the node of [name]
    and adds at most that name. *)
Lemma lookupOrCreate_inv config g pairs name c g' p :
  graph_wf config g → graph_links g pairs →
  Entities config !! name = Some c →
  lookupOrCreate g name c = Ok (g', p) →
  graph_wf config g' ∧ graph_links g' pairs ∧ graph_extends g g' ∧
  entityNodes g' !! name = Some p ∧
  (∀ n, is_Some (entityNodes g' !! n) ↔ is_Some (entityNodes g !! n) ∨ n = name).
Proof.
  intros Hwf Hl Hc [[Hp ->]|(Hnone & -> & u & sk & Hu & Hk & ->)]%lookupOrCreate_Ok.
  - split_and!; [done|done|apply graph_extends_refl|done|]. naive_solver.
  - split_and!.
    + by apply alloc_wf.
    + by eapply alloc_links.
    + by apply alloc_extends.
    + simpl. by rewrite lookup_insert_eq.
    + intros n. simpl. rewrite lookup_insert. case_decide; naive_solver.
Qed.

(** One round of the loop over the edges. *)
Lemma edge_step_inv config g pairs index edge g' :
  graph_wf config g → graph_links g pairs →
  edge_step config g index edge = Ok g' →
  ∃ h t, edge_names edge = Some (h, t) ∧
    graph_wf config g' ∧ graph_links g' (pairs ++ [(h, t)]) ∧ graph_extends g g' ∧
    (∀ n, is_Some (entityNodes g' !! n) ↔ is_Some (entityNodes g !! n) ∨ n = h ∨ n = t).
Proof.
  intros Hwf Hl Hstep.
  destruct (edge_names edge) as [[h t]|] eqn:Hnames;
    [|by rewrite edge_step_malformed in Hstep].
  rewrite (edge_step_names _ _ _ _ _ _ Hnames) in Hstep.
  destruct (Entities config !! h) as [hc|] eqn:Hhc; [|done].
  destruct (Entities config !! t) as [tc|] eqn:Htc; [|done].
  destruct (lookupOrCreate g h hc) as [[g1 hp]| |] eqn:H1; [|done..].
  simpl in Hstep.
  destruct (lookupOrCreate g1 t tc) as [[g2 tp]| |] eqn:H2; [|done..].
  simpl in Hstep. injection Hstep as <-.
  destruct (lookupOrCreate_inv _ _ _ _ _ _ _ Hwf Hl Hhc H1)
    as (Hwf1 & Hl1 & Hx1 & Hh1 & Hd1).
  destruct (lookupOrCreate_inv _ _ _ _ _ _ _ Hwf1 Hl1 Htc H2)
    as (Hwf2 & Hl2 & Hx2 & Ht2 & Hd2).
  exists h, t. split_and!; [done|..].
  - by apply link_wf.
  - eapply link_links; [done..| |done]. by apply (ext_nodes _ _ Hx2).
  - eapply graph_extends_trans; [done|].
    eapply graph_extends_trans; [done|]. apply link_extends.
  - intros n. simpl. rewrite Hd2, Hd1. naive_solver.
Qed.

(** The whole loop: the edges read are the [pairs'] they denote. *)
Lemma edge_loop_inv config edges : ∀ g pairs index g',
  graph_wf config g → graph_links g pairs →
  edge_loop config g index edges = Ok g' →
  ∃ pairs', edge_names <$> edges = Some <$> pairs' ∧
    graph_wf config g' ∧ graph_links g' (pairs ++ pairs') ∧ graph_extends g g' ∧
    (∀ n, is_Some (entityNodes g' !! n) ↔
          is_Some (entityNodes g !! n) ∨ ∃ h t, (h, t) ∈ pairs' ∧ (n = h ∨ n = t)).
Proof.
  induction edges as [|edge edges IH]; intros g pairs index g' Hwf Hl Hloop.
  - injection Hloop as <-. exists []. rewrite app_nil_r.
    split_and!; [done|done|done|apply graph_extends_refl|].
    intros n. split; [by left|]. intros [?|(h & t & []%elem_of_nil & _)]. done.
  - simpl in Hloop.
    destruct (edge_step config g index edge) as [g1| |] eqn:Hstep; [|done..].
    simpl in Hloop.
    destruct (edge_step_inv _ _ _ _ _ _ Hwf Hl Hstep) as (h & t & Hn & Hwf1 & Hl1 & Hx1 & Hd1).
    destruct (IH _ _ _ _ Hwf1 Hl1 Hloop) as (pairs' & Hns & Hwf' & Hl' & Hx' & Hd').
    exists ((h, t) :: pairs'). split_and!.
    + by rewrite !fmap_cons, Hn, Hns.
    + done.
    + by rewrite <-app_assoc in Hl'.
    + by eapply graph_extends_trans.
    + intros n. rewrite Hd', Hd1. setoid_rewrite elem_of_cons. naive_solver.
Qed.

(** *** Visiting a map in some order *)

Lemma range_order_elem {V} (m : gmap string V) order k :
  range_order m order → k ∈ order ↔ is_Some (m !! k).
Proof.
  intros [_ Hdom]. rewrite <-elem_of_dom, <-Hdom. by rewrite elem_of_list_to_set.
Qed.

Lemma elem_of_range_map {V} (m : gmap string V) order k v :
  (k, v) ∈ range_map m order ↔ k ∈ order ∧ m !! k = Some v.
Proof.
  unfold range_map. rewrite list_elem_of_omap. split.
  - intros (k' & Hin & Hk). destruct (m !! k') as [v'|] eqn:Hv; simplify_eq/=. done.
  - intros [Hin Hk]. exists k. by rewrite Hk.
Qed.

Lemma range_map_values {V} (m : gmap string V) order v :
  range_order m order →
  v ∈ (range_map m order).*2 ↔ ∃ k, m !! k = Some v.
Proof.
  intros Hord. rewrite list_elem_of_fmap. split.
  - intros ([k v'] & -> & [_ Hk]%elem_of_range_map). eauto.
  - intros [k Hk]. exists (k, v). split; [done|].
    apply elem_of_range_map. split; [|done]. apply (range_order_elem m); eauto.
Qed.

(** *** Why a build does not return a graph *)

(** The identifier declared for [name] does not parse. *)
Definition url_fails (config : Config) (name : string) : bool :=
  match Entities config !! name with
  | Some c => match url_Parse (cfg_Identifier c) with inl _ => true | inr _ => false end
  | None => false
  end.

(** The edge names an entity that has no declaration. *)
Definition edge_undefined (config : Config) (edge : string) : bool :=
  match edge_names edge with
  | Some (h, t) =>
      bool_decide (Entities config !! h = None) || bool_decide (Entities config !! t = None)
  | None => false
  end.

(** The edge names a declared entity whose identifier does not parse. *)
Definition edge_invalid_url (config : Config) (edge : string) : bool :=
  match edge_names edge with
  | Some (h, t) => url_fails config h || url_fails config t
  | None => false
  end.

(** The edge has no separator. *)
Definition edge_malformed (edge : string) : bool :=
  bool_decide (edge_names edge = None).

(** A declaration with an empty kind or an empty identifier. *)
Definition entity_invalid (c : EntityConfig) : bool :=
  bool_decide (cfg_Kind c = "") || bool_decide (cfg_Identifier c = "").

Lemma check_entities_Ok l :
  check_entities l = Ok () ↔ Forall (λ kc, entity_invalid kc.2 = false) l.
Proof.
  unfold entity_invalid. induction l as [|[k c] l IH]; simpl; [done|].
  rewrite Forall_cons, <-IH. simpl.
  repeat case_decide; rewrite ?bool_decide_eq_true_2, ?bool_decide_eq_false_2 by done;
    simpl; naive_solver.
Qed.

Lemma check_entities_not_Ok l :
  match check_entities l with
  | Ok _ => True
  | Fatal f => is_config_error f = true ∧ Exists (λ kc, entity_invalid kc.2 = true) l
  | Panic _ => False
  end.
Proof.
  unfold entity_invalid. induction l as [|[k c] l IH]; simpl; [done|].
  repeat case_decide; simpl.
  - split; [done|]. apply Exists_cons_hd. simpl. by rewrite bool_decide_eq_true_2.
  - split; [done|]. apply Exists_cons_hd. simpl.
    rewrite (bool_decide_eq_true_2 (cfg_Identifier c = "")) by done. apply orb_true_r.
  - destruct (check_entities l); [done| |done].
    destruct IH. split; [done|]. by apply Exists_cons_tl.
Qed.

Lemma lookupOrCreate_Fatal g name c f :
  lookupOrCreate g name c = Fatal f →
  (∃ err, f = FatalInvalidURL name err ∧ url_Parse (cfg_Identifier c) = inl err) ∨
  (∃ err, f = FatalGenerateKey err ∧ GenerateKey (keygen_calls g) = inl err).
Proof.
  unfold lookupOrCreate, mustGenerateECDSAPrivateKey.
  destruct (entityNodes g !! name); [done|].
  destruct (url_Parse (cfg_Identifier c)) as [err|u]; [intros [= <-]; eauto|].
  destruct (GenerateKey (keygen_calls g)) as [err|sk]; simpl; [|done].
  intros [= <-]; eauto.
Qed.

Lemma lookupOrCreate_no_Panic g name c p : lookupOrCreate g name c ≠ Panic p.
Proof.
  unfold lookupOrCreate, mustGenerateECDSAPrivateKey.
  destruct (entityNodes g !! name); [done|].
  destruct (url_Parse (cfg_Identifier c)); [done|].
  by destruct (GenerateKey (keygen_calls g)).
Qed.

Lemma wf_url_parses config g name p :
  graph_wf config g → entityNodes g !! name = Some p → url_fails config name = false.
Proof.
  intros Hwf Hn. destruct (wf_node _ _ Hwf _ _ Hn) as (e & He & <-).
  destruct (wf_config _ _ Hwf _ _ He) as (c & Hc & _ & Hu).
  unfold url_fails. by rewrite Hc, Hu.
Qed.

Lemma lookupOrCreate_parses config g name c g' p :
  graph_wf config g → Entities config !! name = Some c →
  lookupOrCreate g name c = Ok (g', p) → url_fails config name = false.
Proof.
  intros Hwf Hc [[Hp ->]|(Hnone & -> & u & sk & Hu & Hk & ->)]%lookupOrCreate_Ok.
  - by eapply wf_url_parses.
  - unfold url_fails. by rewrite Hc, Hu.
Qed.

Lemma lookupOrCreate_wf config g name c g' p :
  graph_wf config g → Entities config !! name = Some c →
  lookupOrCreate g name c = Ok (g', p) → graph_wf config g'.
Proof.
  intros Hwf Hc [[Hp ->]|(Hnone & -> & u & sk & Hu & Hk & ->)]%lookupOrCreate_Ok; [done|].
  by apply alloc_wf.
Qed.

(** The edge is one the loop gets past. *)
Definition edge_good (config : Config) (edge : string) : bool :=
  negb (edge_malformed edge) && negb (edge_undefined config edge) &&
  negb (edge_invalid_url config edge).

(** The edge is one a configuration error is reported for. *)
Definition edge_bad (config : Config) (edge : string) : bool :=
  edge_undefined config edge || edge_invalid_url config edge.

Lemma edge_good_not_bad config edge : edge_good config edge = true → edge_bad config edge = false.
Proof.
  unfold edge_good, edge_bad.
  destruct (edge_malformed edge), (edge_undefined config edge), (edge_invalid_url config edge); done.
Qed.

Lemma edge_good_not_malformed config edge :
  edge_good config edge = true → edge_malformed edge = false.
Proof. unfold edge_good. by destruct (edge_malformed edge). Qed.

(** What the outcome of one round says about its edge. *)
Lemma edge_step_outcome config g index edge :
  graph_wf config g →
  match edge_step config g index edge with
  | Ok _ => edge_good config edge = true
  | Fatal f =>
      edge_malformed edge = false ∧
      ((is_config_error f = true ∧ edge_bad config edge = true) ∨
       (∃ err, f = FatalGenerateKey err ∧ ∃ k, GenerateKey k = inl err))
  | Panic p => edge_malformed edge = true ∧ p = PanicIndexOutOfRange 1 1
  end.
Proof.
  intros Hwf. unfold edge_good, edge_bad, edge_malformed, edge_undefined, edge_invalid_url.
  destruct (edge_names edge) as [[h t]|] eqn:Hnames;
    [|by rewrite edge_step_malformed].
  rewrite (edge_step_names _ _ _ _ _ _ Hnames).
  rewrite (bool_decide_eq_false_2 (Some (h, t) = None)) by done.
  destruct (Entities config !! h) as [hc|] eqn:Hhc; [|by eauto].
  rewrite (bool_decide_eq_false_2 (Some hc = None)) by done.
  destruct (Entities config !! t) as [tc|] eqn:Htc;
    [|split; [done|]; left; split; [done|]; by rewrite bool_decide_eq_true_2].
  rewrite (bool_decide_eq_false_2 (Some tc = None)) by done. simpl.
  destruct (lookupOrCreate g h hc) as [[g1 hp]|f|p] eqn:H1; simpl.
  - pose proof (lookupOrCreate_parses _ _ _ _ _ _ Hwf Hhc H1) as ->.
    pose proof (lookupOrCreate_wf _ _ _ _ _ _ Hwf Hhc H1) as Hwf1.
    destruct (lookupOrCreate g1 t tc) as [[g2 tp]|f|p] eqn:H2; simpl.
    + by rewrite (lookupOrCreate_parses _ _ _ _ _ _ Hwf1 Htc H2).
    + split; [done|].
      destruct (lookupOrCreate_Fatal _ _ _ _ H2) as [(err & -> & Hu)|(err & -> & Hk)].
      * left. split; [done|]. unfold url_fails. by rewrite Htc, Hu.
      * right. eauto.
    + by apply lookupOrCreate_no_Panic in H2.
  - split; [done|].
    destruct (lookupOrCreate_Fatal _ _ _ _ H1) as [(err & -> & Hu)|(err & -> & Hk)].
    + left. split; [done|]. unfold url_fails. by rewrite Hhc, Hu.
    + right. eauto.
  - by apply lookupOrCreate_no_Panic in H1.
Qed.

Lemma edge_step_wf config g index edge g' :
  graph_wf config g → edge_step config g index edge = Ok g' → graph_wf config g'.
Proof.
  intros Hwf Hstep.
  destruct (edge_names edge) as [[h t]|] eqn:Hnames;
    [|by rewrite edge_step_malformed in Hstep].
  rewrite (edge_step_names _ _ _ _ _ _ Hnames) in Hstep.
  destruct (Entities config !! h) as [hc|] eqn:Hhc; [|done].
  destruct (Entities config !! t) as [tc|] eqn:Htc; [|done].
  destruct (lookupOrCreate g h hc) as [[g1 hp]| |] eqn:H1; [|done..].
  simpl in Hstep.
  destruct (lookupOrCreate g1 t tc) as [[g2 tp]| |] eqn:H2; [|done..].
  simpl in Hstep. injection Hstep as <-.
  apply link_wf.
  apply (lookupOrCreate_wf _ _ _ _ _ _ (lookupOrCreate_wf _ _ _ _ _ _ Hwf Hhc H1) Htc H2).
Qed.

(** What the outcome of the loop says about the edges. *)
Lemma edge_loop_outcome config edges : ∀ g index,
  graph_wf config g →
  match edge_loop config g index edges with
  | Ok _ => Forall (λ e, edge_good config e = true) edges
  | Fatal f =>
      (is_config_error f = true ∧ Exists (λ e, edge_bad config e = true) edges) ∨
      (∃ err, f = FatalGenerateKey err ∧ ∃ k, GenerateKey k = inl err)
  | Panic p =>
      Exists (λ e, edge_malformed e = true) edges ∧ p = PanicIndexOutOfRange 1 1
  end.
Proof.
  induction edges as [|edge edges IH]; intros g index Hwf; simpl; [done|].
  pose proof (edge_step_outcome config g index edge Hwf) as Hstep.
  destruct (edge_step config g index edge) as [g1|f|p] eqn:Hs; simpl.
  - pose proof (edge_step_wf _ _ _ _ _ Hwf Hs) as Hwf1.
    specialize (IH g1 (S index) Hwf1).
    destruct (edge_loop config g1 (S index) edges) as [g2|f|p].
    + by apply Forall_cons.
    + destruct IH as [[? ?]|?]; [left|by right]. split; [done|]. by apply Exists_cons_tl.
    + destruct IH as [? ->]. split; [|done]. by apply Exists_cons_tl.
  - destruct Hstep as [_ [[? ?]|?]]; [left|by right]. split; [done|]. by apply Exists_cons_hd.
  - destruct Hstep as [? ->]. split; [|done]. by apply Exists_cons_hd.
Qed.

(** The names the edges refer to. *)
Fixpoint referenced (edges : list string) : gset string :=
  match edges with
  | [] => ∅
  | edge :: edges' =>
      match edge_names edge with
      | Some (h, t) => {[h; t]}
      | None => ∅
      end ∪ referenced edges'
  end.

Lemma elem_of_referenced edges n :
  n ∈ referenced edges ↔
  ∃ e h t, e ∈ edges ∧ edge_names e = Some (h, t) ∧ (n = h ∨ n = t).
Proof.
  induction edges as [|e edges IH]; simpl.
  - split; [set_solver|]. intros (e & h & t & []%elem_of_nil & _).
  - rewrite elem_of_union, IH. setoid_rewrite elem_of_cons. split.
    + intros [Hn|(e' & h & t & ? & ? & ?)]; [|by eauto 10].
      destruct (edge_names e) as [[h t]|] eqn:He; [|set_solver].
      exists e, h, t. set_solver.
    + intros (e' & h & t & [->|?] & He & Hn); [|by eauto 10].
      left. rewrite He. set_solver.
Qed.

Lemma lookupOrCreate_progress config g name c :
  graph_wf config g → Entities config !! name = Some c →
  url_fails config name = false →
  (entityNodes g !! name = None → ∃ sk, GenerateKey (keygen_calls g) = inr sk) →
  ∃ g' p, lookupOrCreate g name c = Ok (g', p).
Proof.
  intros Hwf Hc Hu Hk. unfold lookupOrCreate, mustGenerateECDSAPrivateKey.
  destruct (entityNodes g !! name) as [p|]; [by eauto|].
  unfold url_fails in Hu. rewrite Hc in Hu.
  destruct (url_Parse (cfg_Identifier c)); [done|].
  destruct Hk as [sk ->]; [done|]. simpl. eauto.
Qed.

Lemma wf_calls_size config g :
  graph_wf config g → keygen_calls g = size (dom (entityNodes g)).
Proof.
  intros Hwf. rewrite size_dom, (wf_size _ _ Hwf). by apply wf_calls with config.
Qed.

(** Enough keys for a graph: the draws for its nodes and for the
    names still to come all succeed. *)
Definition keys_available (names : gset string) : Prop :=
  ∀ k, k < size names → ∃ sk, GenerateKey k = inr sk.

Lemma keys_available_mono names names' :
  names' ⊆ names → keys_available names → keys_available names'.
Proof.
  intros Hsub Hk k Hlt. apply Hk. apply subseteq_size in Hsub. lia.
Qed.

Lemma keys_available_next config g name names :
  graph_wf config g → keys_available names →
  name ∈ names → dom (entityNodes g) ⊆ names →
  entityNodes g !! name = None → ∃ sk, GenerateKey (keygen_calls g) = inr sk.
Proof.
  intros Hwf Hk Hin Hsub Hnone. apply Hk.
  rewrite (wf_calls_size _ _ Hwf).
  apply not_elem_of_dom in Hnone.
  assert ({[name]} ∪ dom (entityNodes g) ⊆ names) as Hs by set_solver.
  apply subseteq_size in Hs. rewrite size_union, size_singleton in Hs by set_solver. lia.
Qed.

Lemma lookupOrCreate_dom g name c g' p :
  lookupOrCreate g name c = Ok (g', p) →
  dom (entityNodes g') = {[name]} ∪ dom (entityNodes g).
Proof.
  intros [[Hp ->]|(Hnone & -> & u & sk & Hu & Hk & ->)]%lookupOrCreate_Ok.
  - apply elem_of_dom_2 in Hp. set_solver.
  - simpl. by rewrite dom_insert_L.
Qed.

(** The loop runs to its end on good edges when the keys are there. *)
Lemma edge_loop_progress config edges : ∀ g index,
  graph_wf config g →
  Forall (λ e, edge_good config e = true) edges →
  keys_available (dom (entityNodes g) ∪ referenced edges) →
  ∃ g', edge_loop config g index edges = Ok g'.
Proof.
  induction edges as [|edge edges IH]; intros g index Hwf Hgood Hkeys; simpl; [by eauto|].
  apply Forall_cons in Hgood as [Hedge Hgood].
  unfold edge_good, edge_malformed, edge_undefined, edge_invalid_url in Hedge.
  simpl in Hkeys.
  destruct (edge_names edge) as [[h t]|] eqn:Hnames;
    [|by rewrite bool_decide_eq_true_2 in Hedge].
  rewrite (edge_step_names _ _ _ _ _ _ Hnames).
  destruct (Entities config !! h) as [hc|] eqn:Hhc;
    [|by rewrite (bool_decide_eq_true_2 (None = None)), andb_false_r in Hedge].
  destruct (Entities config !! t) as [tc|] eqn:Htc;
    [|by rewrite (bool_decide_eq_true_2 (None = None)), orb_true_r, andb_false_r in Hedge].
  apply andb_prop in Hedge as [_ [Huh Hut]%negb_true_iff%orb_false_elim].
  destruct (lookupOrCreate_progress config g h hc) as (g1 & hp & H1); [done..| |].
  { eapply keys_available_next; [done..| | ]; set_solver. }
  rewrite H1. simpl.
  pose proof (lookupOrCreate_wf _ _ _ _ _ _ Hwf Hhc H1) as Hwf1.
  pose proof (lookupOrCreate_dom _ _ _ _ _ H1) as Hd1.
  destruct (lookupOrCreate_progress config g1 t tc) as (g2 & tp & H2); [done..| |].
  { eapply keys_available_next; [done..| | ]; set_solver. }
  rewrite H2. simpl.
  pose proof (lookupOrCreate_wf _ _ _ _ _ _ Hwf1 Htc H2) as Hwf2.
  pose proof (lookupOrCreate_dom _ _ _ _ _ H2) as Hd2.
  apply IH; [by apply link_wf|done|]. simpl.
  eapply keys_available_mono; [|done]. set_solver.
Qed.

Lemma edge_names_pairs (edges : list string) (pairs : list (string * string)) h t :
  edge_names <$> edges = Some <$> pairs →
  (h, t) ∈ pairs ↔ ∃ e, e ∈ edges ∧ edge_names e = Some (h, t).
Proof.
  intros Heq.
  rewrite <-(list_elem_of_fmap_inj Some pairs (h, t)), <-Heq, list_elem_of_fmap.
  split; intros (e & ? & ?); eauto.
Qed.

Lemma referenced_pairs (edges : list string) (pairs : list (string * string)) n :
  edge_names <$> edges = Some <$> pairs →
  n ∈ referenced edges ↔ ∃ h t, (h, t) ∈ pairs ∧ (n = h ∨ n = t).
Proof.
  intros Heq. rewrite elem_of_referenced. split.
  - intros (e & h & t & He & Hn & Hor). exists h, t. split; [|done].
    apply (edge_names_pairs _ _ _ _ Heq). eauto.
  - intros (h & t & (e & He & Hn)%(edge_names_pairs _ _ _ _ Heq) & Hor). eauto 10.
Qed.

(** The graph [mustParseConfig] returns: well formed, linked as the
    edges say, with exactly the names the edges refer to. *)
Lemma mustParseConfig_spec config order0 g :
  mustParseConfig config order0 = Ok g →
  ∃ pairs, edge_names <$> Edges config = Some <$> pairs ∧
    graph_wf config g ∧ graph_links g pairs ∧
    dom (entityNodes g) = referenced (Edges config).
Proof.
  unfold mustParseConfig. destruct (check_entities _); [|done..]. simpl. intros Hloop.
  destruct (edge_loop_inv _ _ _ _ _ _ (empty_graph_wf config) empty_graph_links Hloop)
    as (pairs & Hn & Hwf & Hl & _ & Hd).
  exists pairs. split_and!; [done..|].
  apply set_eq. intros n. rewrite elem_of_dom, Hd, (referenced_pairs _ _ _ Hn).
  simpl. rewrite lookup_empty. split; [|by eauto]. by intros [[? ?]|?].
Qed.

Lemma lookupOrCreate_extends g name c g' p :
  lookupOrCreate g name c = Ok (g', p) → graph_extends g g'.
Proof.
  intros [[Hp ->]|(Hnone & -> & u & sk & Hu & Hk & ->)]%lookupOrCreate_Ok.
  - apply graph_extends_refl.
  - by apply alloc_extends.
Qed.

Lemma edge_step_extends config g index edge g' :
  edge_step config g index edge = Ok g' → graph_extends g g'.
Proof.
  intros Hstep.
  destruct (edge_names edge) as [[h t]|] eqn:Hnames;
    [|by rewrite edge_step_malformed in Hstep].
  rewrite (edge_step_names _ _ _ _ _ _ Hnames) in Hstep.
  destruct (Entities config !! h) as [hc|]; [|done].
  destruct (Entities config !! t) as [tc|]; [|done].
  destruct (lookupOrCreate g h hc) as [[g1 hp]| |] eqn:H1; [|done..].
  simpl in Hstep.
  destruct (lookupOrCreate g1 t tc) as [[g2 tp]| |] eqn:H2; [|done..].
  simpl in Hstep. injection Hstep as <-.
  eapply graph_extends_trans; [by eapply lookupOrCreate_extends|].
  eapply graph_extends_trans; [by eapply lookupOrCreate_extends|]. apply link_extends.
Qed.

Lemma edge_loop_extends config edges : ∀ g index g',
  edge_loop config g index edges = Ok g' → graph_extends g g'.
Proof.
  induction edges as [|edge edges IH]; intros g index g'; simpl.
  - intros [= <-]. apply graph_extends_refl.
  - destruct (edge_step config g index edge) as [g1| |] eqn:Hs; [|done..]. simpl.
    intros Hloop. eapply graph_extends_trans; [by eapply edge_step_extends|by eapply IH].
Qed.

(** The symmetry of the two link lists, on a heap of entities. *)
Definition links_symmetric (h : list Entity) : Prop :=
  ∀ a b A B, h !! a = Some A → h !! b = Some B →
    (b ∈ Subordinates A ↔ a ∈ Superiors B).

Lemma graph_links_symmetric g pairs : graph_links g pairs → links_symmetric (heap g).
Proof.
  intros Hl a b A B Ha Hb.
  by rewrite (links_sub _ _ Hl _ _ b Ha), (links_sup _ _ Hl _ _ a Hb).
Qed.

End BuildFacts.

(** ** The dispatch table *)

Module GoNetFacts.
Import GoStrings GoNet.

Section Mux.
Context {H : Type}.
Implicit Types mux : ServeMux H.

Lemma mux_lookup_app mux1 mux2 pattern :
  mux_lookup (mux1 ++ mux2) pattern =
    match mux_lookup mux1 pattern with
    | Some h => Some h
    | None => mux_lookup mux2 pattern
    end.
Proof.
  induction mux1 as [|[p h] mux1 IH]; simpl; [done|]. by case_decide.
Qed.

Lemma mux_lookup_None mux pattern :
  mux_lookup mux pattern = None ↔ pattern ∉ mux.*1.
Proof.
  induction mux as [|[p h] mux IH]; simpl.
  - split; [|done]. intros _ []%elem_of_nil.
  - rewrite not_elem_of_cons, <-IH. case_decide; naive_solver.
Qed.

Lemma mux_lookup_Some mux pattern h :
  mux_lookup mux pattern = Some h → (pattern, h) ∈ mux.
Proof.
  induction mux as [|[p h'] mux IH]; simpl; [done|].
  case_decide; [intros [= ->]; subst; left|right; auto].
Qed.

Lemma mux_lookup_NoDup mux pattern h :
  NoDup mux.*1 → (pattern, h) ∈ mux → mux_lookup mux pattern = Some h.
Proof.
  induction mux as [|[p h'] mux IH]; simpl.
  - intros _ []%elem_of_nil.
  - intros [Hp Hnd]%NoDup_cons [[= -> ->]|Hin]%elem_of_cons.
    + by case_decide.
    + case_decide; [|by apply IH]. subst. destruct Hp.
      apply list_elem_of_fmap. by exists (pattern, h).
Qed.

Lemma Handle_Ok mux pattern h mux' :
  Handle mux pattern h = Ok mux' ↔
  pattern ≠ "" ∧ mux_lookup mux pattern = None ∧ mux' = mux ++ [(pattern, h)].
Proof.
  unfold Handle. case_decide; [naive_solver|].
  destruct (mux_lookup mux pattern); naive_solver.
Qed.

(** The scan for the longest match, when one entry [e0] alone fits. *)
Lemma foldl_longer_match_unique path (e0 : string * H) : ∀ mux acc,
  (∀ e, e ∈ mux → ends_in_slash e.1 && HasPrefix path e.1 = true → e = e0) →
  ends_in_slash e0.1 && HasPrefix path e0.1 = true →
  (acc = None ∧ e0 ∈ mux) ∨ acc = Some e0 →
  foldl (longer_match path) acc mux = Some e0.
Proof.
  intros mux. induction mux as [|e mux IH]; intros acc Huniq Hfit Hacc; simpl.
  - by destruct Hacc as [[_ []%elem_of_nil]|Hacc].
  - apply IH; [intros e' He'; apply Huniq; by right|done|].
    unfold longer_match.
    destruct (ends_in_slash e.1 && HasPrefix path e.1) eqn:He.
    + assert (e = e0) as -> by (apply Huniq; [by left|done]).
      right. destruct Hacc as [[Hacc _]|Hacc]; subst acc; [done|].
      by rewrite Nat.ltb_irrefl.
    + destruct Hacc as [[Hacc [Heq|?]%elem_of_cons]|Hacc]; subst acc;
        [congruence|by left|by right].
Qed.

Lemma mux_hosts_false mux e :
  mux_hosts mux = false → e ∈ mux → HasPrefix e.1 "/" = true.
Proof.
  unfold mux_hosts. induction mux as [|e' mux IH]; simpl.
  - by intros _ []%elem_of_nil.
  - intros [He' Hrest]%orb_false_elim [->|Hin]%elem_of_cons; [|by apply IH].
    by apply negb_false_iff.
Qed.

(** Dispatch in a table of host patterns: with one pattern
    [host ++ "/"] per host and no slash inside a host, a request for
    [host] reaches the handler registered for [host], whatever its
    path. *)
Lemma mux_handler_host mux host rest h :
  NoDup mux.*1 →
  (∀ pat q, (pat, q) ∈ mux →
     ∃ host', pat = host' +:+ "/" ∧ LastIndexByte host' "/" = None) →
  (host +:+ "/", h) ∈ mux →
  LastIndexByte host "/" = None →
  mux_handler mux host ("/" +:+ rest) = Some h.
Proof.
  intros Hnd Hpat Hin Hhost.
  assert (∀ pat q, (pat, q) ∈ mux →
            HasPrefix (host +:+ "/" +:+ rest) pat = true → (pat, q) = (host +:+ "/", h))
    as Huniq.
  { intros pat q Hq Hp. destruct (Hpat _ _ Hq) as (host' & -> & Hfree).
    apply GoStringsFacts.HasPrefix_terminated in Hp; [|done..]. subst host'.
    f_equal. pose proof (mux_lookup_NoDup _ _ _ Hnd Hq).
    pose proof (mux_lookup_NoDup _ _ _ Hnd Hin). congruence. }
  assert (mux_match mux (host +:+ "/" +:+ rest) = Some h) as Hmatch.
  { unfold mux_match.
    destruct (mux_lookup mux (host +:+ "/" +:+ rest)) as [h'|] eqn:Hl.
    - apply mux_lookup_Some in Hl.
      specialize (Huniq _ _ Hl (GoStringsFacts.HasPrefix_refl _)). congruence.
    - rewrite (foldl_longer_match_unique _ (host +:+ "/", h)); [done| | |by left].
      + intros [pat q] Hq [_ Hp]%andb_prop. by apply Huniq.
      + cbn [fst]. unfold ends_in_slash.
        rewrite GoStringsFacts.HasSuffix_snoc. cbn [andb].
        rewrite <-GoStringsFacts.append_assoc. apply GoStringsFacts.HasPrefix_app. }
  unfold mux_handler. destruct (mux_hosts mux) eqn:Hhosts; [by rewrite Hmatch|].
  apply (mux_hosts_false _ _ Hhosts) in Hin. cbn [fst] in Hin.
  destruct host as [|c host]; [done|].
  apply GoStringsFacts.LastIndexByte_cons_None in Hhost as [Hc _].
  rewrite GoStringsFacts.append_cons, GoStringsFacts.HasPrefix_cons in Hin.
  by case_decide.
Qed.

End Mux.

Lemma stripPort_free s c :
  LastIndexByte s c = None → LastIndexByte (stripPort s) c = None.
Proof.
  intros Hs. unfold stripPort.
  assert (LastIndexByte
            match LastIndexByte s ":" with
            | Some colon =>
                if validOptionalPort (drop_bytes colon s) then take_bytes colon s else s
            | None => s
            end c = None) as Hhost.
  { destruct (LastIndexByte s ":"); [|done].
    destruct (validOptionalPort _); [|done]. by apply GoStringsFacts.LastIndexByte_take. }
  destruct (HasPrefix _ "[" && HasSuffix _ "]"); [|done].
  by apply GoStringsFacts.LastIndexByte_take, GoStringsFacts.LastIndexByte_drop.
Qed.

End GoNetFacts.

(** ** Registration of the handlers *)

Section RegisterFacts.
Context `{W : Externals}.
Import GoStrings GoNet.

(** The fields of an entity that [main] never writes. *)
Definition core (e : Entity) : list ptr * list ptr * string * string * URL * Signer :=
  (Superiors e, Subordinates e, Name e, Kind e, Identifier e, SigningPrivateKey e).

Definition same_core (h h' : list Entity) : Prop :=
  ∀ p, core <$> h' !! p = core <$> h !! p.

Lemma same_core_refl h : same_core h h.
Proof. done. Qed.

Lemma same_core_trans h1 h2 h3 : same_core h1 h2 → same_core h2 h3 → same_core h1 h3.
Proof. intros H12 H23 p. by rewrite H23, H12. Qed.

Lemma same_core_alter f p h :
  (∀ e, core (f e) = core e) → same_core h (alter f p h).
Proof.
  intros Hf q. rewrite list_lookup_alter. case_decide; [subst|done].
  destruct (h !! q) as [e|]; simpl; [|done]. by rewrite Hf.
Qed.

Lemma same_core_lookup h h' p e :
  same_core h h' → h !! p = Some e → ∃ e', h' !! p = Some e' ∧ core e' = core e.
Proof.
  intros Hc Hp. specialize (Hc p). rewrite Hp in Hc.
  destruct (h' !! p) as [e'|]; [|done]. exists e'. split; [done|].
  simpl in Hc. congruence.
Qed.

Lemma same_core_lookup_inv h h' p e' :
  same_core h h' → h' !! p = Some e' → ∃ e, h !! p = Some e ∧ core e' = core e.
Proof.
  intros Hc Hp. specialize (Hc p). rewrite Hp in Hc.
  destruct (h !! p) as [e|]; [|done]. exists e. split; [done|].
  simpl in Hc. congruence.
Qed.

Lemma same_core_symmetric h h' :
  same_core h h' → links_symmetric h → links_symmetric h'.
Proof.
  intros Hc Hs a b A' B' Ha Hb.
  destruct (same_core_lookup_inv _ _ _ _ Hc Ha) as (A & HA & [= HsupA HsubA _ _ _ _]).
  destruct (same_core_lookup_inv _ _ _ _ Hc Hb) as (B & HB & [= HsupB HsubB _ _ _ _]).
  rewrite HsubA, HsupB. by apply Hs.
Qed.

Lemma authorityHints_same_core h h' superiors :
  same_core h h' → authorityHints h' superiors = authorityHints h superiors.
Proof.
  intros Hc. induction superiors as [|a superiors IH]; simpl; [done|].
  rewrite IH. unfold deref. specialize (Hc a).
  destruct (h !! a) as [e|], (h' !! a) as [e'|]; try done. simpl.
  assert (Identifier e' = Identifier e) as -> by (unfold core in Hc; simpl in Hc; congruence).
  done.
Qed.

(** Every address in the list is allocated. *)
Lemma authorityHints_valid h superiors :
  Forall (λ a, is_Some (h !! a)) superiors →
  ∃ hints, authorityHints h superiors = Ok hints.
Proof.
  induction 1 as [|a superiors [e He] _ [hints IH]]; simpl; [by eauto|].
  unfold deref. rewrite He. simpl. rewrite IH. simpl. eauto.
Qed.

Definition hostname (e : Entity) : string := stripPort (URL_Host (Identifier e)).

(** The pattern the handler of [e] is registered under. *)
Definition host_pattern (e : Entity) : string := hostname e +:+ "/".

Lemma host_pattern_core e e' : core e' = core e → host_pattern e' = host_pattern e.
Proof. unfold host_pattern, hostname. by intros [= _ _ _ _ -> _]. Qed.

(** What the first loop does to the entity it visits. *)
Definition registered (fe : fedentities_FedEntity) (e : Entity) : Entity :=
  if owns_trust_store (Kind e)
  then set_Storage (Some ∅) (set_FedEntity (Some fe) e)
  else set_FedEntity (Some fe) e.

Lemma registered_core fe e : core (registered fe e) = core e.
Proof. unfold registered. by destruct (owns_trust_store (Kind e)). Qed.

Lemma register_entity_Ok st p st' :
  register_entity st p = Ok st' →
  ∃ e hints fe,
    entities_heap st !! p = Some e ∧
    authorityHints (entities_heap st) (Superiors e) = Ok hints ∧
    NewFedEntity (URL_String (Identifier e)) hints (SigningPrivateKey e) = inr fe ∧
    mux_lookup (mux st) (host_pattern e) = None ∧
    st' = {| entities_heap := alter (registered fe) p (entities_heap st);
             mux := mux st ++ [(host_pattern e, p)] |}.
Proof.
  unfold register_entity, deref, Handle. intros Hst.
  destruct (entities_heap st !! p) as [e|] eqn:He; [|done]. simpl in Hst.
  destruct (authorityHints (entities_heap st) (Superiors e)) as [hints| |] eqn:Hh; [|done..].
  simpl in Hst.
  destruct (NewFedEntity _ _ _) as [err|fe] eqn:Hfe; [done|].
  fold (hostname e) in Hst. fold (host_pattern e) in Hst.
  exists e, hints, fe.
  destruct (owns_trust_store (Kind e)) eqn:Hown;
    [destruct (NewInMemoryBadgerStorage_err (Name e))|];
    simpl in Hst; try done; case_decide; try done;
    destruct (mux_lookup (mux st) (host_pattern e)); try done;
    simpl in Hst; injection Hst as <-; split_and!; try done; f_equal.
  - rewrite list_alter_alter_eq. apply list_alter_ext; [|done].
    intros e' He'. unfold registered. simpl. by simplify_eq; rewrite Hown.
  - apply list_alter_ext; [|done].
    intros e' He'. unfold registered. by simplify_eq; rewrite Hown.
Qed.

Lemma host_pattern_registered fe e : host_pattern (registered fe e) = host_pattern e.
Proof. apply host_pattern_core, registered_core. Qed.

(** The first loop of [main], when it runs to its end: no entity is
    visited twice, the table gains the pattern of every visited entity
    and nothing else, and only the visited entities change. *)
Lemma register_loop_inv ps : ∀ st st',
  register_loop st ps = Ok st' →
  same_core (entities_heap st) (entities_heap st') ∧
  NoDup ps ∧
  (∀ pat q, (pat, q) ∈ mux st' ↔
     (pat, q) ∈ mux st ∨
     (q ∈ ps ∧ ∃ e, entities_heap st !! q = Some e ∧ pat = host_pattern e)) ∧
  (∀ q e, q ∈ ps → entities_heap st !! q = Some e →
     mux_lookup (mux st) (host_pattern e) = None) ∧
  (NoDup (mux st).*1 → NoDup (mux st').*1) ∧
  (∀ q e, entities_heap st !! q = Some e → q ∉ ps → entities_heap st' !! q = Some e) ∧
  (∀ q e, entities_heap st !! q = Some e → q ∈ ps →
     ∃ hints fe,
       authorityHints (entities_heap st) (Superiors e) = Ok hints ∧
       NewFedEntity (URL_String (Identifier e)) hints (SigningPrivateKey e) = inr fe ∧
       entities_heap st' !! q = Some (registered fe e)).
Proof.
  induction ps as [|p ps IH]; intros st st'; simpl.
  - intros [= <-]. split_and!; try done.
    + constructor.
    + intros pat q. split; [by left|]. by intros [?|[[]%elem_of_nil _]].
    + by intros q e []%elem_of_nil.
    + by intros q e _ []%elem_of_nil.
  - destruct (register_entity st p) as [st1| |] eqn:Hstep; [|done..]. simpl.
    intros Hloop.
    destruct (register_entity_Ok _ _ _ Hstep) as (e & hints & fe & He & Hh & Hfe & Hm & ->).
    destruct (IH _ _ Hloop) as (Hc & Hnd & Hmux & Hfree & Hndm & Hout & Hin).
    simpl in *.
    assert (same_core (entities_heap st) (alter (registered fe) p (entities_heap st))) as Hc1
      by (apply same_core_alter, registered_core).
    assert (alter (registered fe) p (entities_heap st) !! p = Some (registered fe e)) as He1
      by (by rewrite list_lookup_alter_eq, He).
    assert (p ∉ ps) as Hp.
    { intros Hp. specialize (Hfree _ _ Hp He1).
      rewrite host_pattern_registered, GoNetFacts.mux_lookup_app, Hm in Hfree.
      simpl in Hfree. by case_decide. }
    split_and!.
    + by eapply same_core_trans.
    + by constructor.
    + intros pat q. rewrite Hmux, elem_of_app, list_elem_of_singleton, elem_of_cons.
      split.
      * intros [[?|[= -> ->]]|(Hq & e' & He' & ->)]; [by left|right; by eauto|].
        right. split; [by right|].
        destruct (same_core_lookup_inv _ _ _ _ Hc1 He') as (e0 & He0 & Hcore).
        exists e0. split; [done|]. by apply host_pattern_core.
      * intros [?|([->|Hq] & e' & He' & ->)]; [by left; left|..].
        { left; right. congruence. }
        right. split; [done|].
        destruct (same_core_lookup _ _ _ _ Hc1 He') as (e1 & He1' & Hcore).
        exists e1. split; [done|]. symmetry. by apply host_pattern_core.
    + intros q e' [->|Hq]%elem_of_cons He'; [congruence|].
      destruct (same_core_lookup _ _ _ _ Hc1 He') as (e1 & He1' & Hcore).
      specialize (Hfree _ _ Hq He1').
      rewrite GoNetFacts.mux_lookup_app in Hfree.
      rewrite (host_pattern_core _ _ Hcore) in Hfree.
      by destruct (mux_lookup (mux st) (host_pattern e')).
    + intros Hnd0. apply Hndm. rewrite fmap_app. simpl.
      apply NoDup_app. split_and!; [done| |apply NoDup_singleton].
      intros pat Hpat ->%list_elem_of_singleton.
      by apply GoNetFacts.mux_lookup_None in Hm.
    + intros q e' He' [Hne Hq]%not_elem_of_cons. apply Hout; [|done].
      by rewrite list_lookup_alter_ne.
    + intros q e' He' [->|Hq]%elem_of_cons.
      * exists hints, fe. simplify_eq. split_and!; [done..|]. by apply Hout.
      * assert (p ≠ q) as Hne by congruence.
        destruct (Hin q e') as (hints' & fe' & Hh' & Hfe' & Hq'); [|done|].
        { by rewrite list_lookup_alter_ne. }
        exists hints', fe'. split_and!; [|done..].
        by rewrite <-(authorityHints_same_core _ _ _ Hc1).
Qed.

End RegisterFacts.

(** ** Trust materialization *)

Section TrustFacts.
Context `{W : Externals}.
Import GoStrings GoNet.

(** The key a subordinate is recorded under. *)
Definition trust_key (s : Entity) : string := URL_String (Identifier s).

(** The record [main] builds for the subordinate [s]. *)
Definition trust_record (s : Entity) : option SubordinateInfo :=
  match FedEntity s with
  | Some fe => Some {| JWKS := EntityConfigurationPayload_JWKS fe;
                       EntityTypes := [];
                       EntityID := trust_key s;
                       InfoStatus := StatusActive |}
  | None => None
  end.

(** Everything but the storage of the entity. *)
Definition frame (e : Entity) : Entity := set_Storage None e.

Definition same_frame (h h' : list Entity) : Prop :=
  ∀ p, frame <$> h' !! p = frame <$> h !! p.

Lemma same_frame_refl h : same_frame h h.
Proof. done. Qed.

Lemma same_frame_trans h1 h2 h3 : same_frame h1 h2 → same_frame h2 h3 → same_frame h1 h3.
Proof. intros H12 H23 p. by rewrite H23, H12. Qed.

Lemma same_frame_alter db p h : same_frame h (alter (set_Storage db) p h).
Proof.
  intros q. rewrite list_lookup_alter. case_decide; [subst|done].
  by destruct (h !! q).
Qed.

Lemma frame_eq e e' :
  frame e' = frame e →
  core e' = core e ∧ FedEntity e' = FedEntity e ∧
  trust_key e' = trust_key e ∧ trust_record e' = trust_record e.
Proof.
  destruct e, e'. unfold frame, core, trust_key, trust_record. simpl.
  intros [= -> -> -> -> -> -> ->]. done.
Qed.

Lemma same_frame_lookup h h' p e :
  same_frame h h' → h !! p = Some e → ∃ e', h' !! p = Some e' ∧ frame e' = frame e.
Proof.
  intros Hf Hp. specialize (Hf p). rewrite Hp in Hf.
  destruct (h' !! p) as [e'|]; [|done]. exists e'. split; [done|].
  simpl in Hf. congruence.
Qed.

Lemma same_frame_lookup_inv h h' p e' :
  same_frame h h' → h' !! p = Some e' → ∃ e, h !! p = Some e ∧ frame e' = frame e.
Proof.
  intros Hf Hp. specialize (Hf p). rewrite Hp in Hf.
  destruct (h !! p) as [e|]; [|done]. exists e. split; [done|].
  simpl in Hf. congruence.
Qed.

Lemma same_frame_core h h' : same_frame h h' → same_core h h'.
Proof.
  intros Hf p. specialize (Hf p).
  destruct (h !! p) as [e|], (h' !! p) as [e'|]; try done. simpl in *.
  f_equal. apply frame_eq. congruence.
Qed.

(** One write into the storage [db]: the record of the entity at [q]. *)
Definition write_record (h : list Entity) (db : BadgerStorage) (q : ptr) : BadgerStorage :=
  match h !! q with
  | Some s =>
      match trust_record s with
      | Some info => <[trust_key s := info]> db
      | None => db
      end
  | None => db
  end.

Lemma write_record_frame h h' db q :
  same_frame h h' → write_record h' db q = write_record h db q.
Proof.
  intros Hf. unfold write_record. specialize (Hf q).
  destruct (h !! q) as [s|], (h' !! q) as [s'|]; try done. simpl in Hf.
  destruct (frame_eq s s') as (_ & _ & -> & ->); [congruence|done].
Qed.

Lemma foldl_write_record_frame h h' db subs :
  same_frame h h' →
  foldl (write_record h') db subs = foldl (write_record h) db subs.
Proof.
  intros Hf. revert db. induction subs as [|q subs IH]; intros db; simpl; [done|].
  by rewrite IH, (write_record_frame _ _ _ _ Hf).
Qed.

Lemma establish_trust_Ok h parent sub h' :
  establish_trust h parent sub = Ok h' →
  ∃ e s info db,
    h !! parent = Some e ∧ h !! sub = Some s ∧ trust_record s = Some info ∧
    Storage e = Some db ∧ Write_err (Name e) (trust_key s) = None ∧
    h' = alter (set_Storage (Some (write_record h db sub))) parent h.
Proof.
  unfold establish_trust, deref, write_record, trust_record, trust_key. intros Hst.
  destruct (h !! parent) as [e|] eqn:He; [|done]. simpl in Hst.
  destruct (h !! sub) as [s|] eqn:Hs; [|done]. simpl in Hst.
  destruct (FedEntity s) as [fe|] eqn:Hfe; [|done].
  destruct (Storage e) as [db|] eqn:Hdb; [|done].
  destruct (Write_err _ _) eqn:Hw; [done|]. injection Hst as <-.
  exists e, s. eexists _, db. rewrite Hfe. split_and!; done.
Qed.

(** The inner loop writes the records of [subs] one after the other
    into the storage of [parent], and touches nothing else. *)
Lemma subordinates_loop_inv parent subs : ∀ h h',
  subordinates_loop h parent subs = Ok h' →
  (subs = [] ∧ h' = h) ∨
  (∃ e db, h !! parent = Some e ∧ Storage e = Some db ∧
     Forall (λ q, ∃ s, h !! q = Some s ∧ is_Some (trust_record s)) subs ∧
     h' = alter (set_Storage (Some (foldl (write_record h) db subs))) parent h).
Proof.
  induction subs as [|sub subs IH]; intros h h'; simpl.
  - intros [= <-]. by left.
  - destruct (establish_trust h parent sub) as [h1| |] eqn:Hstep; [|done..]. simpl.
    intros Hloop. right.
    destruct (establish_trust_Ok _ _ _ _ Hstep) as (e & s & info & db & He & Hs & Hi & Hdb & _ & ->).
    exists e, db. split_and!; [done..| |].
    + apply Forall_cons. split; [by eauto|].
      destruct (IH _ _ Hloop) as [[-> _]|(e1 & db1 & _ & _ & Hall & _)]; [done|].
      eapply Forall_impl; [done|]. simpl. intros q (s' & Hs' & Hr).
      destruct (same_frame_lookup_inv _ _ _ _ (same_frame_alter _ parent h) Hs')
        as (s0 & Hs0 & Hf).
      exists s0. split; [done|]. by destruct (frame_eq _ _ Hf) as (_ & _ & _ & <-).
    + destruct (IH _ _ Hloop) as [[-> ->]|(e1 & db1 & He1 & Hdb1 & _ & ->)]; [done|].
      rewrite list_lookup_alter_eq, He in He1. simpl in He1. injection He1 as <-.
      simpl in Hdb1. injection Hdb1 as <-.
      rewrite list_alter_alter_eq.
      rewrite (foldl_write_record_frame h) by apply same_frame_alter.
      by apply list_alter_ext.
Qed.

Lemma subordinates_loop_frame parent subs h h' :
  subordinates_loop h parent subs = Ok h' → same_frame h h'.
Proof.
  intros [[_ ->]|(e & db & _ & _ & _ & ->)]%subordinates_loop_inv; [done|].
  apply same_frame_alter.
Qed.

(** The second loop of [main], when it runs to its end over entities
    visited once each: the storage of a visited entity with
    subordinates holds their records; nothing else changes. *)
Lemma trust_loop_inv ps : ∀ h h',
  NoDup ps → trust_loop h ps = Ok h' →
  same_frame h h' ∧
  (∀ p e, h !! p = Some e → p ∉ ps → h' !! p = Some e) ∧
  (∀ p e, h !! p = Some e → p ∈ ps →
     (Subordinates e = [] ∧ h' !! p = Some e) ∨
     (∃ db, Storage e = Some db ∧
        Forall (λ q, ∃ s, h !! q = Some s ∧ is_Some (trust_record s)) (Subordinates e) ∧
        h' !! p = Some (set_Storage (Some (foldl (write_record h) db (Subordinates e))) e))).
Proof.
  induction ps as [|p ps IH]; intros h h' Hnd; simpl.
  - intros [= <-]. split_and!; [done..|]. by intros p e _ []%elem_of_nil.
  - apply NoDup_cons in Hnd as [Hp Hnd]. unfold deref.
    destruct (h !! p) as [e|] eqn:He; [|done]. simpl.
    destruct (subordinates_loop h p (Subordinates e)) as [h1| |] eqn:Hsub; [|done..]. simpl.
    intros Hloop. destruct (IH _ _ Hnd Hloop) as (Hf' & Hout & Hin).
    pose proof (subordinates_loop_frame _ _ _ _ Hsub) as Hf1.
    pose proof (subordinates_loop_inv _ _ _ _ Hsub) as Hinv.
    assert (∀ q, q ≠ p → h1 !! q = h !! q) as Hne.
    { intros q Hq. destruct Hinv as [[_ ->]|(? & ? & _ & _ & _ & ->)]; [done|].
      by rewrite list_lookup_alter_ne. }
    split_and!.
    + by eapply same_frame_trans.
    + intros q e' He' [Hq Hqs]%not_elem_of_cons. apply Hout; [|done]. by rewrite Hne.
    + intros q e' He' [->|Hq]%elem_of_cons.
      * simplify_eq.
        destruct Hinv as [[Hnil ->]|(e0 & db & He0 & Hdb & Hall & ->)].
        { left. split; [done|]. by apply Hout. }
        simplify_eq. right. exists db. split_and!; [done..|].
        apply Hout; [|done]. by rewrite list_lookup_alter_eq, He.
      * assert (q ≠ p) as Hqp by congruence.
        destruct (Hin q e') as [[Hnil Hq']|(db & Hdb & Hall & Hq')];
          [by rewrite Hne|done|by left|].
        right. exists db. split_and!; [done| |].
        -- eapply Forall_impl; [done|]. simpl. intros r (s & Hs & Hr).
           destruct (same_frame_lookup_inv _ _ _ _ Hf1 Hs) as (s0 & Hs0 & Hfr).
           exists s0. split; [done|]. by destruct (frame_eq _ _ Hfr) as (_ & _ & _ & <-).
        -- by rewrite <-(foldl_write_record_frame h h1).
Qed.

(** The record found under a key after the writes for [subs], when
    only the entity at [c] has that key. *)
Lemma foldl_write_record_lookup h subs c s info : ∀ db,
  h !! c = Some s → trust_record s = Some info →
  (∀ q s', q ∈ subs → h !! q = Some s' → trust_key s' = trust_key s → q = c) →
  c ∈ subs ∨ db !! trust_key s = Some info →
  foldl (write_record h) db subs !! trust_key s = Some info.
Proof.
  unfold BadgerStorage. intros db Hc Hinfo. revert db.
  induction subs as [|q subs IH]; intros db Hkey Hor; simpl.
  - destruct Hor as [[]%elem_of_nil|?]; done.
  - apply IH.
    + intros q' s' Hq'. apply Hkey. by right.
    + destruct (decide (q = c)) as [->|Hne].
      * right. unfold write_record, BadgerStorage. rewrite Hc, Hinfo. apply lookup_insert_eq.
      * destruct Hor as [[?|?]%elem_of_cons|Hdb]; [done|by left|]. right.
        unfold write_record, BadgerStorage. destruct (h !! q) as [s'|] eqn:Hs'; [|done].
        destruct (trust_record s'); [|done].
        rewrite lookup_insert_ne; [done|]. intros Heq. apply Hne.
        eapply Hkey; [by left|done..].
Qed.

(** *** How materialization can stop *)

Lemma establish_trust_outcome h parent sub :
  match establish_trust h parent sub with
  | Ok _ => True
  | Fatal f => ∃ a b err k, f = FatalWrite a b err ∧ Write_err a k = Some err
  | Panic p => p = PanicNilDereference
  end.
Proof.
  unfold establish_trust, deref.
  destruct (h !! parent) as [e|]; [|done]. simpl.
  destruct (h !! sub) as [s|]; [|done]. simpl.
  destruct (FedEntity s); [|done]. destruct (Storage e); [|done].
  destruct (Write_err _ _) eqn:Hw; [|done]. eauto 10.
Qed.

Lemma subordinates_loop_outcome parent subs : ∀ h,
  match subordinates_loop h parent subs with
  | Ok _ => True
  | Fatal f => ∃ a b err k, f = FatalWrite a b err ∧ Write_err a k = Some err
  | Panic p => p = PanicNilDereference
  end.
Proof.
  induction subs as [|sub subs IH]; intros h; simpl; [done|].
  pose proof (establish_trust_outcome h parent sub) as Hstep.
  destruct (establish_trust h parent sub) as [h1| |]; simpl; [apply IH|done..].
Qed.

Lemma trust_loop_outcome ps : ∀ h,
  match trust_loop h ps with
  | Ok _ => True
  | Fatal f => ∃ a b err k, f = FatalWrite a b err ∧ Write_err a k = Some err
  | Panic p => p = PanicNilDereference
  end.
Proof.
  induction ps as [|p ps IH]; intros h; simpl; [done|]. unfold deref.
  destruct (h !! p) as [e|]; [|done]. simpl.
  pose proof (subordinates_loop_outcome p (Subordinates e) h) as Hsub.
  destruct (subordinates_loop h p (Subordinates e)) as [h1| |]; simpl; [apply IH|done..].
Qed.

(** The heap is ready for materialization: every subordinate has its
    handler, and every entity with subordinates has a storage. *)
Definition trust_ready (h : list Entity) : Prop :=
  ∀ p e, h !! p = Some e →
    Forall (λ q, ∃ s, h !! q = Some s ∧ is_Some (FedEntity s)) (Subordinates e) ∧
    (Subordinates e ≠ [] → is_Some (Storage e)).

Lemma trust_ready_alter h parent db :
  trust_ready h → trust_ready (alter (set_Storage (Some db)) parent h).
Proof.
  intros Hr p e'. rewrite list_lookup_alter. intros He'.
  assert (∃ e, h !! p = Some e ∧ Subordinates e' = Subordinates e ∧
               (is_Some (Storage e) → is_Some (Storage e'))) as (e & He & -> & Hst).
  { case_decide; [subst|by eauto].
    destruct (h !! p) as [e|]; [|done]. simpl in He'. injection He' as <-.
    exists e. split_and!; [done..|]. simpl. eauto. }
  destruct (Hr _ _ He) as [Hall Hsto]. split; [|by auto]. clear He'.
  eapply Forall_impl; [done|]. simpl. intros q (s & Hs & Hfe).
  rewrite list_lookup_alter. case_decide; [subst|by eauto].
  rewrite Hs. simpl. eauto.
Qed.

Lemma subordinates_loop_no_Panic parent subs : ∀ h pn,
  (∃ e, h !! parent = Some e ∧ is_Some (Storage e)) →
  Forall (λ q, ∃ s, h !! q = Some s ∧ is_Some (FedEntity s)) subs →
  subordinates_loop h parent subs ≠ Panic pn.
Proof.
  induction subs as [|sub subs IH]; intros h pn (e & He & [db Hdb]) Hall; simpl; [done|].
  apply Forall_cons in Hall as [(s & Hs & [fe Hfe]) Hall].
  destruct (establish_trust h parent sub) as [h1| |] eqn:Hstep; simpl.
  - destruct (establish_trust_Ok _ _ _ _ Hstep) as (? & ? & ? & ? & _ & _ & _ & _ & _ & ->).
    apply IH.
    + exists (set_Storage (Some (write_record h x2 sub)) e).
      rewrite list_lookup_alter_eq, He. simpl. eauto.
    + eapply Forall_impl; [done|]. simpl. intros q (s' & Hs' & Hfe').
      rewrite list_lookup_alter. case_decide; [subst|by eauto].
      rewrite Hs'. simpl. eauto.
  - done.
  - unfold establish_trust, deref in Hstep. rewrite He, Hs in Hstep. simpl in Hstep.
    rewrite Hfe, Hdb in Hstep. by destruct (Write_err _ _).
Qed.

Lemma trust_loop_no_Panic ps : ∀ h pn,
  trust_ready h → Forall (λ p, is_Some (h !! p)) ps →
  trust_loop h ps ≠ Panic pn.
Proof.
  induction ps as [|p ps IH]; intros h pn Hr Hall; simpl; [done|].
  apply Forall_cons in Hall as [[e He] Hall]. unfold deref. rewrite He. simpl.
  destruct (Hr _ _ He) as [Hsubs Hsto].
  destruct (subordinates_loop h p (Subordinates e)) as [h1| |] eqn:Hsub; simpl; [|done|].
  - destruct (subordinates_loop_inv _ _ _ _ Hsub) as [[_ ->]|(? & db & _ & _ & _ & ->)];
      [by apply IH|].
    apply IH; [by apply trust_ready_alter|].
    eapply Forall_impl; [done|]. simpl. intros q [s Hs].
    rewrite list_lookup_alter. case_decide; [subst|by eauto]. rewrite Hs. simpl. eauto.
  - destruct (Subordinates e) as [|q subs] eqn:Hse; [done|].
    intros Heq. revert Hsub. rewrite <-Hse in *. apply subordinates_loop_no_Panic; [|done].
    exists e. split; [done|]. apply Hsto. by rewrite Hse.
Qed.

End TrustFacts.

(** ** Startup as a whole *)

Section StartupFacts.
Context `{W : Externals}.
Import GoStrings GoNet.

(** The addresses the two loops of [main] visit. *)
Definition visited (g : Graph) (order : list string) : list ptr :=
  (range_map (entityNodes g) order).*2.

Lemma elem_of_visited config g order p :
  graph_wf config g → range_order (entityNodes g) order →
  p ∈ visited g order ↔ is_Some (heap g !! p).
Proof.
  intros Hwf Hord. unfold visited. rewrite (range_map_values _ _ _ Hord). split.
  - intros [n Hn]. destruct (wf_node _ _ Hwf _ _ Hn) as (e & He & _). eauto.
  - intros [e He]. exists (Name e). by apply (wf_name _ _ Hwf).
Qed.

Lemma graph_links_valid config g pairs p e :
  graph_wf config g → graph_links g pairs → heap g !! p = Some e →
  Forall (λ a, is_Some (heap g !! a)) (Superiors e) ∧
  Forall (λ a, is_Some (heap g !! a)) (Subordinates e).
Proof.
  intros Hwf Hl He. split; apply Forall_forall; intros a Ha.
  - apply (links_sup _ _ Hl _ _ a He) in Ha as (h & t & _ & Hh & _).
    destruct (wf_node _ _ Hwf _ _ Hh) as (? & ? & _). eauto.
  - apply (links_sub _ _ Hl _ _ a He) in Ha as (h & t & _ & _ & Ht).
    destruct (wf_node _ _ Hwf _ _ Ht) as (? & ? & _). eauto.
Qed.

Lemma host_pattern_nonempty e : host_pattern e ≠ "".
Proof. unfold host_pattern. by destruct (hostname e). Qed.

(** How registration can stop. *)
Definition registration_failure (f : fatal) : Prop :=
  (∃ n err id hints sk, f = FatalNewFedEntity n err ∧ NewFedEntity id hints sk = inl err) ∨
  (∃ n err, f = FatalNewStorage n err ∧ NewInMemoryBadgerStorage_err n = Some err).

Lemma register_entity_outcome st p e :
  entities_heap st !! p = Some e →
  Forall (λ a, is_Some (entities_heap st !! a)) (Superiors e) →
  match register_entity st p with
  | Ok _ => True
  | Fatal f => registration_failure f
  | Panic pn => pn = PanicMultipleRegistrations (host_pattern e)
  end.
Proof.
  intros He Hsup. unfold register_entity, deref, Handle, registration_failure.
  rewrite He. simpl.
  destruct (authorityHints_valid _ _ Hsup) as [hints ->]. simpl.
  destruct (NewFedEntity _ _ _) as [err|fe] eqn:Hfe; [left; by eauto 10|].
  fold (hostname e). fold (host_pattern e).
  destruct (owns_trust_store (Kind e));
    [destruct (NewInMemoryBadgerStorage_err (Name e)) eqn:Hs|]; simpl;
    try (right; by eauto);
    (case_decide; [by destruct (host_pattern_nonempty e)|]);
    by destruct (mux_lookup (mux st) (host_pattern e)).
Qed.

Definition superiors_valid (h : list Entity) : Prop :=
  ∀ p e, h !! p = Some e → Forall (λ a, is_Some (h !! a)) (Superiors e).

Lemma superiors_valid_core h h' :
  same_core h h' → superiors_valid h → superiors_valid h'.
Proof.
  intros Hc Hv p e' He'.
  destruct (same_core_lookup_inv _ _ _ _ Hc He') as (e & He & Hcore).
  assert (Superiors e' = Superiors e) as -> by (unfold core in Hcore; congruence).
  eapply Forall_impl; [by eapply Hv|]. simpl. intros a [x Hx].
  destruct (same_core_lookup _ _ _ _ Hc Hx) as (x' & Hx' & _). eauto.
Qed.

Lemma register_loop_outcome ps : ∀ st,
  superiors_valid (entities_heap st) →
  Forall (λ p, is_Some (entities_heap st !! p)) ps →
  match register_loop st ps with
  | Ok _ => True
  | Fatal f => registration_failure f
  | Panic pn => ∃ pattern, pn = PanicMultipleRegistrations pattern
  end.
Proof.
  induction ps as [|p ps IH]; intros st Hv Hall; simpl; [done|].
  apply Forall_cons in Hall as [[e He] Hall].
  pose proof (register_entity_outcome st p e He (Hv _ _ He)) as Hstep.
  destruct (register_entity st p) as [st1| |] eqn:Hs; simpl; [|done|by eauto].
  destruct (register_entity_Ok _ _ _ Hs) as (e1 & hints & fe & _ & _ & _ & _ & ->).
  assert (same_core (entities_heap st) (alter (registered fe) p (entities_heap st))) as Hc
    by (apply same_core_alter, registered_core).
  apply IH; simpl.
  - by eapply superiors_valid_core.
  - eapply Forall_impl; [done|]. simpl. intros q [x Hx].
    destruct (same_core_lookup _ _ _ _ Hc Hx) as (x' & Hx' & _). eauto.
Qed.

(** The process after a registration that ran to its end on the graph
    [g]: every entity has its handler, a storage exactly when its kind
    owns one, and one entry in the table. *)
Lemma registration_spec config g pairs order st :
  graph_wf config g → graph_links g pairs →
  range_order (entityNodes g) order →
  register_loop {| entities_heap := heap g; mux := [] |} (visited g order) = Ok st →
  same_core (heap g) (entities_heap st) ∧
  NoDup (visited g order) ∧
  NoDup (mux st).*1 ∧
  (∀ pat q, (pat, q) ∈ mux st ↔ ∃ e, heap g !! q = Some e ∧ pat = host_pattern e) ∧
  (∀ p e, heap g !! p = Some e →
     ∃ hints fe,
       authorityHints (heap g) (Superiors e) = Ok hints ∧
       NewFedEntity (URL_String (Identifier e)) hints (SigningPrivateKey e) = inr fe ∧
       entities_heap st !! p = Some (registered fe e)).
Proof.
  intros Hwf Hl Hord Hloop.
  destruct (register_loop_inv _ _ _ Hloop) as (Hc & Hnd & Hmux & _ & Hndm & _ & Hin).
  simpl in *. split_and!; [done|done|apply Hndm; constructor| |].
  - intros pat q. rewrite Hmux. split.
    + intros [[]%elem_of_nil|(_ & e & He & ->)]. eauto.
    + intros (e & He & ->). right. split; [|by eauto].
      apply (elem_of_visited config); eauto.
  - intros p e He. apply Hin; [done|]. apply (elem_of_visited config); eauto.
Qed.

End StartupFacts.

(** * The claims *)

Section EdgeParsing.
Context `{W : Externals}.
Import GoStrings.

Lemma edge_names_two_arrows a b c :
  Index a "->" = None → Index b "->" = None →
  edge_names (a +:+ "->" +:+ b +:+ "->" +:+ c) = edge_names (a +:+ "->" +:+ b).
Proof.
  intros Ha Hb. unfold edge_names.
  rewrite !(GoStringsFacts.Split_arrow a) by done.
  rewrite (GoStringsFacts.Split_arrow b) by done.
  by rewrite (GoStringsFacts.Split_no_sep b).
Qed.

Lemma edge_step_by_names config g index edge edge' :
  edge_names edge = edge_names edge' →
  is_Some (edge_names edge) →
  edge_step config g index edge = edge_step config g index edge'.
Proof.
  intros Heq [[h t] Hn].
  rewrite (edge_step_names _ _ _ _ _ _ Hn). rewrite Heq in Hn.
  by rewrite (edge_step_names _ _ _ _ _ _ Hn).
Qed.

Lemma Split_length_Index s sep :
  2 ≤ length (Split s sep) → is_Some (Index s sep).
Proof.
  destruct (Index s sep) eqn:Hi; [by eauto|].
  rewrite GoStringsFacts.Split_no_sep by done. simpl. lia.
Qed.

(** C10: an edge string without the separator "->" makes the loop
    body index past the end of the split (a panic, index 1 of a slice
    of length 1, not a configuration error); in an edge string with
    two or more separators the text after the second one is ignored:
    the edge is read as if it ended there. *)
Theorem edge_parsing_indexes_two_pieces (config : Config) (g : Graph) (index : nat) :
  (∀ edge, Index edge "->" = None →
     Split edge "->" = [edge] ∧
     edge_step config g index edge = Panic (PanicIndexOutOfRange 1 1)) ∧
  (∀ a b c, Index a "->" = None → Index b "->" = None →
     edge_step config g index (a +:+ "->" +:+ b +:+ "->" +:+ c) =
     edge_step config g index (a +:+ "->" +:+ b)) ∧
  (∀ edge, 3 ≤ length (Split edge "->") →
     ∃ a b c, edge = a +:+ "->" +:+ b +:+ "->" +:+ c ∧
              Index a "->" = None ∧ Index b "->" = None).
Proof.
  split_and!.
  - intros edge Hi. split; [by apply GoStringsFacts.Split_no_sep|].
    apply edge_step_malformed. unfold edge_names.
    by rewrite GoStringsFacts.Split_no_sep.
  - intros a b c Ha Hb. apply edge_step_by_names; [by apply edge_names_two_arrows|].
    unfold edge_names. rewrite (GoStringsFacts.Split_arrow a) by done.
    rewrite (GoStringsFacts.Split_arrow b) by done. eauto.
  - intros edge Hlen.
    destruct (Split_length_Index edge "->") as [i Hi]; [lia|].
    assert ("->" ≠ "") as Hsep by done.
    rewrite (GoStringsFacts.Split_cut _ _ _ Hsep Hi) in Hlen. simpl in Hlen.
    set (rest := drop_bytes (i + 2) edge) in *.
    destruct (Split_length_Index rest "->") as [j Hj]; [lia|].
    exists (take_bytes i edge), (take_bytes j rest), (drop_bytes (j + 2) rest).
    split_and!.
    + pose proof (GoStringsFacts.Index_split rest "->" j Hj) as Hr.
      pose proof (GoStringsFacts.Index_split edge "->" i Hi) as He.
      change (String.length "->") with 2 in Hr, He. fold rest in He.
      by rewrite <-Hr.
    + by apply GoStringsFacts.Index_take.
    + by apply GoStringsFacts.Index_take.
Qed.

End EdgeParsing.

Lemma edge_parsing_indexes_two_pieces_witness :
  edge_step (W := Sample.world) Sample.example_config empty_graph 0 "TA-A" =
    Panic (PanicIndexOutOfRange 1 1) ∧
  edge_step (W := Sample.world) Sample.example_config empty_graph 0
    ("TA-A " +:+ "->" +:+ " OP-A " +:+ "->" +:+ " IM-A") =
  edge_step (W := Sample.world) Sample.example_config empty_graph 0
    ("TA-A " +:+ "->" +:+ " OP-A ").
Proof.
  destruct (edge_parsing_indexes_two_pieces (W := Sample.world)
              Sample.example_config empty_graph 0) as (Hpanic & Hignore & _).
  split.
  - apply Hpanic. reflexivity.
  - apply Hignore; reflexivity.
Defined.

Section TopologyClaims.
Context `{W : Externals}.

Lemma nodes_declared config g :
  graph_wf config g → dom (entityNodes g) ⊆ dom (Entities config).
Proof.
  intros Hwf n [p Hn]%elem_of_dom.
  destruct (wf_node _ _ Hwf _ _ Hn) as (e & He & <-).
  destruct (wf_config _ _ Hwf _ _ He) as (c & Hc & _). by apply elem_of_dom.
Qed.

(** C7: when the build returns a node map, the map has an entry for
    exactly the names that appear in some edge, each entry is the one
    entity of that name, and there are no more nodes than declared
    entities. *)
Theorem one_node_per_referenced_name (config : Config) (order0 : list string) (g : Graph) :
  mustParseConfig config order0 = Ok g →
  (∀ n, is_Some (entityNodes g !! n) ↔ n ∈ referenced (Edges config)) ∧
  (∀ n p, entityNodes g !! n = Some p →
     ∃ e, heap g !! p = Some e ∧ Name e = n ∧
          ∀ q e', heap g !! q = Some e' → Name e' = n → q = p) ∧
  length (heap g) = size (entityNodes g) ∧
  size (entityNodes g) ≤ size (Entities config).
Proof.
  intros (pairs & Hn & Hwf & Hl & Hdom)%mustParseConfig_spec. split_and!.
  - intros n. by rewrite <-elem_of_dom, Hdom.
  - intros n p Hp. destruct (wf_node _ _ Hwf _ _ Hp) as (e & He & Hname).
    exists e. split_and!; [done..|]. intros q e' He' Hname'.
    pose proof (wf_name _ _ Hwf _ _ He') as Hq. rewrite Hname' in Hq. congruence.
  - symmetry. by apply wf_size with config.
  - rewrite <-!size_dom. apply subseteq_size. by apply nodes_declared.
Qed.

(** C6: a key is drawn at most once per entity name.  Resolving a name
    that is already in the node map returns its node and leaves the
    graph, the count of draws included, as it was; whatever edges are
    read later, the name keeps its node and the node its key; and at
    the end of the build there are as many draws as names, the node
    at address [p] holding the key of draw [p]. *)
Theorem keypair_generated_once :
  (∀ g name c p,
     entityNodes g !! name = Some p → lookupOrCreate g name c = Ok (g, p)) ∧
  (∀ config g index edges g' n p e,
     edge_loop config g index edges = Ok g' →
     entityNodes g !! n = Some p → heap g !! p = Some e →
     entityNodes g' !! n = Some p ∧
     ∃ e', heap g' !! p = Some e' ∧ Name e' = Name e ∧
           SigningPrivateKey e' = SigningPrivateKey e) ∧
  (∀ config order0 g,
     mustParseConfig config order0 = Ok g →
     keygen_calls g = size (entityNodes g) ∧
     ∀ n p e, entityNodes g !! n = Some p → heap g !! p = Some e →
              GenerateKey p = inr (SigningPrivateKey e)).
Proof.
  split_and!.
  - intros g name c p Hp. unfold lookupOrCreate. by rewrite Hp.
  - intros config g index edges g' n p e Hx%edge_loop_extends Hn He.
    split; [by apply (ext_nodes _ _ Hx)|].
    destruct (ext_heap _ _ Hx _ _ He) as (e' & He' & ? & _ & _ & ?). eauto.
  - intros config order0 g (pairs & _ & Hwf & _ & _)%mustParseConfig_spec. split.
    + rewrite (wf_calls _ _ Hwf). symmetry. by apply wf_size with config.
    + intros n p e _ He. by apply (wf_key _ _ Hwf).
Qed.

Lemma trust_loop_frame ps : ∀ h h', trust_loop h ps = Ok h' → same_frame h h'.
Proof.
  induction ps as [|p ps IH]; intros h h'; simpl.
  - by intros [= <-].
  - unfold deref. destruct (h !! p) as [e|]; [|done]. simpl.
    destruct (subordinates_loop h p (Subordinates e)) as [h1| |] eqn:Hsub; [|done..].
    simpl. intros Hloop. eapply same_frame_trans; [|by eapply IH].
    by eapply subordinates_loop_frame.
Qed.

(** C2: in the graph the build returns, [b] is in the subordinates of
    [a] exactly when [a] is in the superiors of [b]; and this still
    holds after any number of rounds of the registration loop and of
    the materialization loop, which are all the operations the
    program performs on the graph afterwards. *)
Theorem graph_symmetry (config : Config) (order0 : list string) (g : Graph) :
  mustParseConfig config order0 = Ok g →
  links_symmetric (heap g) ∧
  ∀ ps st,
    register_loop {| entities_heap := heap g; mux := [] |} ps = Ok st →
    links_symmetric (entities_heap st) ∧
    ∀ ps' h', trust_loop (entities_heap st) ps' = Ok h' → links_symmetric h'.
Proof.
  intros (pairs & _ & _ & Hl & _)%mustParseConfig_spec.
  pose proof (graph_links_symmetric _ _ Hl) as Hsym. split; [done|].
  intros ps st (Hc & _)%register_loop_inv. simpl in Hc.
  pose proof (same_core_symmetric _ _ Hc Hsym) as Hsym1. split; [done|].
  intros ps' h' Hf%trust_loop_frame%same_frame_core.
  by eapply same_core_symmetric.
Qed.

End TopologyClaims.

Section EdgeSetClaims.
Context `{W : Externals}.

(** Two edge lists that denote the same set of edges. *)
Definition same_edges (edges1 edges2 : list string) : Prop :=
  ∀ x, x ∈ edge_names <$> edges1 ↔ x ∈ edge_names <$> edges2.

(** The names of the entities at the addresses [l]. *)
Definition names_at (g : Graph) (l : list ptr) : list string :=
  omap (λ q, Name <$> heap g !! q) l.

(** Two graphs with the same nodes by name, kind and identifier, and
    the same superiors and subordinates by name. *)
Definition same_graph (g1 g2 : Graph) : Prop :=
  (∀ n, is_Some (entityNodes g1 !! n) ↔ is_Some (entityNodes g2 !! n)) ∧
  ∀ n p1 p2 e1 e2,
    entityNodes g1 !! n = Some p1 → entityNodes g2 !! n = Some p2 →
    heap g1 !! p1 = Some e1 → heap g2 !! p2 = Some e2 →
    Name e1 = Name e2 ∧ Kind e1 = Kind e2 ∧ Identifier e1 = Identifier e2 ∧
    (∀ m, m ∈ names_at g1 (Subordinates e1) ↔ m ∈ names_at g2 (Subordinates e2)) ∧
    (∀ m, m ∈ names_at g1 (Superiors e1) ↔ m ∈ names_at g2 (Superiors e2)).

Lemma elem_of_names_at g l m :
  m ∈ names_at g l ↔ ∃ q s, q ∈ l ∧ heap g !! q = Some s ∧ Name s = m.
Proof.
  unfold names_at. rewrite list_elem_of_omap. split.
  - intros (q & Hq & Hm). destruct (heap g !! q) as [s|] eqn:Hs; [|done].
    injection Hm as <-. eauto.
  - intros (q & s & Hq & Hs & <-). exists q. by rewrite Hs.
Qed.

Lemma subordinate_names config g pairs n p e m :
  graph_wf config g → graph_links g pairs →
  entityNodes g !! n = Some p → heap g !! p = Some e →
  m ∈ names_at g (Subordinates e) ↔ (n, m) ∈ pairs.
Proof.
  intros Hwf Hl Hn He. rewrite elem_of_names_at. split.
  - intros (q & s & (h & t & Hin & Hh & Ht)%(links_sub _ _ Hl _ _ q He) & Hs & <-).
    rewrite (wf_inj _ _ _ _ _ Hwf Hn Hh).
    destruct (wf_node _ _ Hwf _ _ Ht) as (s' & Hs' & <-). congruence.
  - intros Hin. destruct (links_dom _ _ Hl _ _ Hin) as [_ [q Hq]].
    destruct (wf_node _ _ Hwf _ _ Hq) as (s & Hs & Hname).
    exists q, s. split_and!; [|done..].
    apply (links_sub _ _ Hl _ _ q He). eauto.
Qed.

Lemma superior_names config g pairs n p e m :
  graph_wf config g → graph_links g pairs →
  entityNodes g !! n = Some p → heap g !! p = Some e →
  m ∈ names_at g (Superiors e) ↔ (m, n) ∈ pairs.
Proof.
  intros Hwf Hl Hn He. rewrite elem_of_names_at. split.
  - intros (q & s & (h & t & Hin & Hh & Ht)%(links_sup _ _ Hl _ _ q He) & Hs & <-).
    rewrite (wf_inj _ _ _ _ _ Hwf Hn Ht).
    destruct (wf_node _ _ Hwf _ _ Hh) as (s' & Hs' & <-). congruence.
  - intros Hin. destruct (links_dom _ _ Hl _ _ Hin) as [[q Hq] _].
    destruct (wf_node _ _ Hwf _ _ Hq) as (s & Hs & Hname).
    exists q, s. split_and!; [|done..].
    apply (links_sup _ _ Hl _ _ q He). eauto.
Qed.

Lemma edge_good_names config edge edge' :
  edge_names edge = edge_names edge' → edge_good config edge = edge_good config edge'.
Proof.
  unfold edge_good, edge_malformed, edge_undefined, edge_invalid_url. by intros ->.
Qed.

Lemma same_edges_good config edges1 edges2 :
  same_edges edges1 edges2 →
  Forall (λ e, edge_good config e = true) edges1 →
  Forall (λ e, edge_good config e = true) edges2.
Proof.
  intros Hsame Hgood. apply Forall_forall. intros e' He'.
  assert (edge_names e' ∈ edge_names <$> edges2) as Hin
    by (apply list_elem_of_fmap; eauto).
  apply Hsame, list_elem_of_fmap in Hin as (e & Heq & He).
  rewrite (edge_good_names _ _ _ Heq). by eapply Forall_forall in Hgood.
Qed.

Lemma same_edges_referenced edges1 edges2 :
  same_edges edges1 edges2 → referenced edges1 = referenced edges2.
Proof.
  intros Hsame. apply set_eq. intros n. rewrite !elem_of_referenced.
  split; intros (e & h & t & He & Hn & Hor).
  - assert (Some (h, t) ∈ edge_names <$> edges1) as Hin
      by (apply list_elem_of_fmap; eauto).
    apply Hsame, list_elem_of_fmap in Hin as (e' & Heq & He'). eauto 10.
  - assert (Some (h, t) ∈ edge_names <$> edges2) as Hin
      by (apply list_elem_of_fmap; eauto).
    apply Hsame, list_elem_of_fmap in Hin as (e' & Heq & He'). eauto 10.
Qed.

Lemma same_edges_pairs edges1 edges2 pairs1 pairs2 x :
  same_edges edges1 edges2 →
  edge_names <$> edges1 = Some <$> pairs1 →
  edge_names <$> edges2 = Some <$> pairs2 →
  x ∈ pairs1 ↔ x ∈ pairs2.
Proof.
  intros Hsame H1 H2.
  rewrite <-(list_elem_of_fmap_inj Some pairs1 x), <-(list_elem_of_fmap_inj Some pairs2 x).
  rewrite <-H1, <-H2. apply Hsame.
Qed.

Lemma check_entities_order (m : gmap string EntityConfig) order order' :
  range_order m order → range_order m order' →
  check_entities (range_map m order) = Ok () →
  check_entities (range_map m order') = Ok ().
Proof.
  intros Hord Hord'. rewrite !check_entities_Ok, !Forall_forall.
  intros Hall [k c] [Hk Hc]%elem_of_range_map. apply Hall.
  apply elem_of_range_map. split; [|done]. apply (range_order_elem m); eauto.
Qed.

(** C5: with the same entity declarations, two edge lists that denote
    the same set of edges, in whatever order and with whatever
    repetitions, build the same graph: when one build returns a graph
    so does the other, with the same node names, kinds and
    identifiers and the same superiors and subordinates by name.
    (The keys drawn are not compared.) *)
Theorem edge_order_irrelevant (config1 config2 : Config) (order1 order2 : list string)
    (g1 : Graph) :
  Entities config1 = Entities config2 →
  same_edges (Edges config1) (Edges config2) →
  range_order (Entities config1) order1 →
  range_order (Entities config2) order2 →
  mustParseConfig config1 order1 = Ok g1 →
  ∃ g2, mustParseConfig config2 order2 = Ok g2 ∧ same_graph g1 g2.
Proof.
  intros Hent Hsame Hord1 Hord2 Hbuild.
  destruct (mustParseConfig_spec _ _ _ Hbuild) as (pairs1 & Hn1 & Hwf1 & Hl1 & Hdom1).
  assert (∃ g2, mustParseConfig config2 order2 = Ok g2) as [g2 Hbuild2].
  { unfold mustParseConfig in *.
    destruct (check_entities (range_map (Entities config1) order1)) as [[]| |] eqn:Hchk;
      [|done..].
    simpl in Hbuild. rewrite <-Hent in *.
    rewrite (check_entities_order _ _ _ Hord1 Hord2 Hchk). simpl.
    pose proof (edge_loop_outcome config1 (Edges config1) empty_graph 0
                  (empty_graph_wf config1)) as Hout.
    rewrite Hbuild in Hout.
    assert (∀ e, edge_good config2 e = edge_good config1 e) as Hgood.
    { intros e. unfold edge_good, edge_undefined, edge_invalid_url, url_fails.
      by rewrite Hent. }
    apply edge_loop_progress.
    - apply empty_graph_wf.
    - eapply Forall_impl; [by apply (same_edges_good config1 _ _ Hsame)|].
      simpl. intros e. by rewrite Hgood.
    - replace (dom (entityNodes empty_graph) ∪ referenced (Edges config2))
        with (dom (entityNodes g1))
        by (simpl; rewrite dom_empty_L, Hdom1, (same_edges_referenced _ _ Hsame);
            set_solver).
      intros k Hk. rewrite <-(wf_calls_size _ _ Hwf1), (wf_calls _ _ Hwf1) in Hk.
      destruct (lookup_lt_is_Some_2 _ _ Hk) as [e He].
      exists (SigningPrivateKey e). by apply (wf_key _ _ Hwf1). }
  exists g2. split; [done|].
  destruct (mustParseConfig_spec _ _ _ Hbuild2) as (pairs2 & Hn2 & Hwf2 & Hl2 & Hdom2).
  split.
  - intros n. rewrite <-!elem_of_dom, Hdom1, Hdom2.
    by rewrite (same_edges_referenced _ _ Hsame).
  - intros n p1 p2 e1 e2 Hp1 Hp2 He1 He2.
    destruct (wf_node _ _ Hwf1 _ _ Hp1) as (e1' & He1' & Hname1).
    destruct (wf_node _ _ Hwf2 _ _ Hp2) as (e2' & He2' & Hname2).
    assert (e1' = e1) as -> by congruence. assert (e2' = e2) as -> by congruence.
    destruct (wf_config _ _ Hwf1 _ _ He1) as (c1 & Hc1 & Hk1 & Hu1).
    destruct (wf_config _ _ Hwf2 _ _ He2) as (c2 & Hc2 & Hk2 & Hu2).
    rewrite Hname1 in Hc1. rewrite Hname2, <-Hent, Hc1 in Hc2. injection Hc2 as <-.
    split_and!; [congruence..| |].
    + intros m. rewrite (subordinate_names _ _ _ _ _ _ m Hwf1 Hl1 Hp1 He1).
      rewrite (subordinate_names _ _ _ _ _ _ m Hwf2 Hl2 Hp2 He2).
      by apply (same_edges_pairs _ _ _ _ _ Hsame).
    + intros m. rewrite (superior_names _ _ _ _ _ _ m Hwf1 Hl1 Hp1 He1).
      rewrite (superior_names _ _ _ _ _ _ m Hwf2 Hl2 Hp2 He2).
      by apply (same_edges_pairs _ _ _ _ _ Hsame).
Qed.

End EdgeSetClaims.

Section ConfigErrorClaims.
Context `{W : Externals}.

(** The three conditions under which a configuration is reported as
    invalid: a declaration with an empty kind or identifier, an edge
    naming an undeclared entity, an edge naming a declared entity
    whose identifier does not parse. *)
Definition config_invalid (config : Config) : Prop :=
  (∃ key c, Entities config !! key = Some c ∧ entity_invalid c = true) ∨
  Exists (λ e, edge_undefined config e = true) (Edges config) ∨
  Exists (λ e, edge_invalid_url config e = true) (Edges config).

(** The build stops with a fatal configuration error. *)
Definition config_error (config : Config) (order0 : list string) : Prop :=
  ∃ f, mustParseConfig config order0 = Fatal f ∧ is_config_error f = true.

Lemma entity_invalid_range (m : gmap string EntityConfig) order :
  range_order m order →
  Exists (λ kc : string * EntityConfig, entity_invalid kc.2 = true) (range_map m order) ↔
  ∃ key c, m !! key = Some c ∧ entity_invalid c = true.
Proof.
  intros Hord. rewrite Exists_exists. split.
  - intros ([k c] & [_ Hk]%elem_of_range_map & Hc). eauto.
  - intros (k & c & Hk & Hc). exists (k, c). split; [|done].
    apply elem_of_range_map. split; [|done]. apply (range_order_elem m); eauto.
Qed.

Lemma edge_bad_Exists config edges :
  Exists (λ e, edge_bad config e = true) edges ↔
  Exists (λ e, edge_undefined config e = true) edges ∨
  Exists (λ e, edge_invalid_url config e = true) edges.
Proof.
  unfold edge_bad. rewrite !Exists_exists. setoid_rewrite orb_true_iff. naive_solver.
Qed.

(** C3, as the code has it: when one of the three conditions holds the
    build returns no node map; a fatal configuration error is reported
    only when one of them holds; and it is reported whenever one holds
    provided every edge string contains the separator and no key
    generation fails.  A build that stops does so before the first
    handler is registered: [main] stops with the same error. *)
Theorem build_fails_on_invalid_config (config : Config) (order0 : list string) :
  range_order (Entities config) order0 →
  (config_invalid config → ∀ g, mustParseConfig config order0 ≠ Ok g) ∧
  (config_error config order0 → config_invalid config) ∧
  (Forall (λ e, edge_malformed e = false) (Edges config) →
   (∀ k, ∃ sk, GenerateKey k = inr sk) →
   config_invalid config → config_error config order0) ∧
  (∀ f order1 order2,
     mustParseConfig config order0 = Fatal f →
     main config order0 order1 order2 = Fatal f).
Proof.
  intros Hord. unfold config_invalid, config_error, mustParseConfig, main, mustParseConfig.
  rewrite <-(entity_invalid_range _ _ Hord), <-edge_bad_Exists.
  pose proof (check_entities_not_Ok (range_map (Entities config) order0)) as Hchk.
  pose proof (check_entities_Ok (range_map (Entities config) order0)) as Hok.
  pose proof (edge_loop_outcome config (Edges config) empty_graph 0
                (empty_graph_wf config)) as Hloop.
  destruct (check_entities (range_map (Entities config) order0)) as [[]|f0|] eqn:Hc;
    simpl; [|destruct Hchk as [Hcfg Hex]|done].
  - assert (¬ Exists (λ kc : string * EntityConfig, entity_invalid kc.2 = true)
              (range_map (Entities config) order0)) as Hnone.
    { rewrite Exists_exists. intros (kc & Hin & Hkc).
      destruct Hok as [Hok _]. specialize (Hok eq_refl).
      eapply Forall_forall in Hok; [|done]. congruence. }
    destruct (edge_loop config empty_graph 0 (Edges config)) as [g|f|pn] eqn:Hl.
    + split_and!; [|by intros (f & ? & _)| |done].
      * intros [?|Hbad] g' _; [done|].
        apply Exists_exists in Hbad as (e & He & Hbad).
        eapply Forall_forall in Hloop; [|done].
        apply edge_good_not_bad in Hloop. congruence.
      * intros _ _ [?|Hbad]; [done|].
        apply Exists_exists in Hbad as (e & He & Hbad).
        eapply Forall_forall in Hloop; [|done].
        apply edge_good_not_bad in Hloop. congruence.
    + split_and!; [done| | |by intros ? ? ? [= <-]].
      * intros (f' & [= <-] & Hcfg).
        destruct Hloop as [[_ ?]|(err & -> & _)]; [by right|done].
      * intros _ Hkeys _. exists f. split; [done|].
        destruct Hloop as [[? _]|(err & -> & k & Hk)]; [done|].
        destruct (Hkeys k) as [sk Hsk]. congruence.
    + split_and!; [done|by intros (f & ? & _)| |done].
      intros Hwell _ _. destruct Hloop as [Hmal _].
      apply Exists_exists in Hmal as (e & He & Hmal).
      eapply Forall_forall in Hwell; [|done]. congruence.
  - split_and!; [done| | |by intros ? ? ? [= <-]].
    + intros _. by left.
    + intros _ _ _. eauto.
Qed.

End ConfigErrorClaims.

Section DispatchClaims.
Context `{W : Externals}.
Import GoStrings GoNet.

Lemma visited_NoDup config g order :
  graph_wf config g → range_order (entityNodes g) order → NoDup (visited g order).
Proof.
  intros Hwf [Hnd _]. unfold visited, range_map.
  induction Hnd as [|k order Hk Hnd IH]; simpl; [constructor|].
  destruct (entityNodes g !! k) as [p|] eqn:Hp; simpl; [|done].
  constructor; [|done]. intros Hin. apply Hk.
  apply list_elem_of_fmap in Hin as ([k' p'] & -> & Hin). simpl in *.
  apply list_elem_of_omap in Hin as (k'' & Hk'' & Heq).
  destruct (entityNodes g !! k'') as [p''|] eqn:Hp''; [|done].
  injection Heq as -> ->. by rewrite (wf_inj _ _ _ _ _ Hwf Hp Hp'').
Qed.

Lemma main_unfold config order0 order1 order2 g :
  mustParseConfig config order0 = Ok g →
  main config order0 order1 order2 =
    st ← register_loop {| entities_heap := heap g; mux := [] |} (visited g order1);
    h ← trust_loop (entities_heap st) (visited g order2);
    Ok {| entities_heap := h; mux := mux st |}.
Proof. unfold main. by intros ->. Qed.

Lemma registered_pattern_inj config g pairs order st p q e s :
  graph_wf config g → graph_links g pairs →
  range_order (entityNodes g) order →
  register_loop {| entities_heap := heap g; mux := [] |} (visited g order) = Ok st →
  heap g !! p = Some e → heap g !! q = Some s →
  host_pattern e = host_pattern s → p = q.
Proof.
  intros Hwf Hl Hord Hreg He Hs Hpat.
  destruct (registration_spec _ _ _ _ _ Hwf Hl Hord Hreg) as (_ & _ & Hnd & Hmux & _).
  assert ((host_pattern e, p) ∈ mux st) as Hp by (apply Hmux; eauto).
  assert ((host_pattern e, q) ∈ mux st) as Hq by (apply Hmux; eauto).
  apply (GoNetFacts.mux_lookup_NoDup _ _ _ Hnd) in Hp, Hq. congruence.
Qed.

(** C4, as the code has it: when two entities of the graph have the
    same hostname, startup never gets to listen: the second
    registration of the pattern is refused by the dispatch table, and
    when the entity engine and the storage do not fail before it,
    [main] ends in the panic for a pattern registered twice.  No
    entry of the table is ever replaced. *)
Theorem shared_hostname_aborts (config : Config) (order0 order1 order2 : list string)
    (g : Graph) (n1 n2 : string) (p1 p2 : ptr) (e1 e2 : Entity) :
  mustParseConfig config order0 = Ok g →
  range_order (entityNodes g) order1 →
  entityNodes g !! n1 = Some p1 → entityNodes g !! n2 = Some p2 → n1 ≠ n2 →
  heap g !! p1 = Some e1 → heap g !! p2 = Some e2 →
  hostname e1 = hostname e2 →
  (∀ final, main config order0 order1 order2 ≠ Ok final) ∧
  ((∀ id hints sk, ∃ fe, NewFedEntity id hints sk = inr fe) →
   (∀ n, NewInMemoryBadgerStorage_err n = None) →
   ∃ pattern, main config order0 order1 order2 = Panic (PanicMultipleRegistrations pattern)).
Proof.
  intros Hbuild Hord Hn1 Hn2 Hne He1 He2 Hhost.
  destruct (mustParseConfig_spec _ _ _ Hbuild) as (pairs & Hn & Hwf & Hl & Hdom).
  rewrite (main_unfold _ _ _ _ _ Hbuild).
  assert (∀ st, register_loop {| entities_heap := heap g; mux := [] |}
                  (visited g order1) ≠ Ok st) as Hnot.
  { intros st Hreg. apply Hne.
    apply (wf_inj _ _ _ _ p1 Hwf Hn1).
    rewrite (registered_pattern_inj _ _ _ _ _ p1 p2 e1 e2 Hwf Hl Hord Hreg He1 He2); [done|].
    unfold host_pattern. by rewrite Hhost. }
  pose proof (register_loop_outcome (visited g order1)
                {| entities_heap := heap g; mux := [] |}) as Hout.
  destruct (register_loop _ _) as [st|f|pn] eqn:Hreg; simpl.
  - by destruct (Hnot st).
  - split; [done|]. intros Hfed Hsto. destruct Hout as [Hf|Hf]; simpl.
    + intros p e He. by apply (graph_links_valid _ _ _ _ _ Hwf Hl He).
    + apply Forall_forall. intros p Hp. by apply (elem_of_visited config) in Hp.
    + destruct Hf as (n & err & id & hints & sk & _ & Hf).
      destruct (Hfed id hints sk) as [fe Hfe]. congruence.
    + destruct Hf as (n & err & _ & Hf). rewrite Hsto in Hf. done.
  - split; [done|]. intros _ _. destruct Hout as [pattern ->]; simpl; [| |by eauto].
    + intros p e He. by apply (graph_links_valid _ _ _ _ _ Hwf Hl He).
    + apply Forall_forall. intros p Hp. by apply (elem_of_visited config) in Hp.
Qed.

Lemma all_digits_no_colon port : all_digits port = true → LastIndexByte port ":" = None.
Proof.
  induction port as [|c port IH]; [done|]. simpl all_digits.
  intros [Hc Hp]%andb_prop. apply GoStringsFacts.LastIndexByte_cons_None.
  split; [|by apply IH]. intros ->. done.
Qed.

Lemma LastIndexByte_app_Some a c r :
  LastIndexByte r c = None →
  LastIndexByte (a +:+ String c r) c = Some (String.length a).
Proof.
  intros Hr. induction a as [|d a IH].
  - rewrite GoStringsFacts.append_nil_l. cbn [LastIndexByte]. rewrite Hr. by case_decide.
  - rewrite GoStringsFacts.append_cons. cbn [LastIndexByte]. by rewrite IH.
Qed.

(** The port is cut off: a host of the form [host:port] with a
    numeric port, and a host part that is not an IPv6 literal, gives
    the hostname [host]. *)
Lemma stripPort_numeric_port host port :
  all_digits port = true → HasPrefix host "[" = false →
  stripPort (host +:+ ":" +:+ port) = host.
Proof.
  intros Hport Hbr. unfold stripPort.
  change (host +:+ ":" +:+ port) with (host +:+ String ":" port).
  rewrite (LastIndexByte_app_Some host ":" port) by by apply all_digits_no_colon.
  rewrite GoStringsFacts.drop_bytes_app. cbn [validOptionalPort].
  rewrite decide_True by done. rewrite Hport, GoStringsFacts.take_bytes_app.
  by rewrite Hbr.
Qed.

(** C8: when registration runs to its end, the dispatch table holds
    for every entity exactly one pattern, its hostname followed by a
    slash, the hostname being the host of its identifier with the port
    cut off; and a request whose host is the hostname of an entity is
    dispatched, whatever its path, to the handler of that entity.
    The host of a parsed URL contains no slash. *)
Theorem host_routing (config : Config) (order0 order1 : list string) (g : Graph)
    (st : Process) :
  (∀ s u, url_Parse s = inr u → LastIndexByte (URL_Host u) "/" = None) →
  mustParseConfig config order0 = Ok g →
  range_order (entityNodes g) order1 →
  register_loop {| entities_heap := heap g; mux := [] |} (visited g order1) = Ok st →
  (∀ pat q, (pat, q) ∈ mux st ↔
     ∃ e, heap g !! q = Some e ∧ pat = stripPort (URL_Host (Identifier e)) +:+ "/") ∧
  (∀ p q e s, heap g !! p = Some e → heap g !! q = Some s → p ≠ q →
     hostname e ≠ hostname s) ∧
  (∀ p e rest, heap g !! p = Some e →
     mux_handler (mux st) (hostname e) ("/" +:+ rest) = Some p) ∧
  (∀ p e host port, heap g !! p = Some e →
     URL_Host (Identifier e) = host +:+ ":" +:+ port →
     all_digits port = true → HasPrefix host "[" = false →
     hostname e = host).
Proof.
  intros Hslash Hbuild Hord Hreg.
  destruct (mustParseConfig_spec _ _ _ Hbuild) as (pairs & Hn & Hwf & Hl & Hdom).
  destruct (registration_spec _ _ _ _ _ Hwf Hl Hord Hreg) as (_ & _ & Hnd & Hmux & _).
  assert (∀ p e, heap g !! p = Some e → LastIndexByte (hostname e) "/" = None) as Hfree.
  { intros p e He. destruct (wf_config _ _ Hwf _ _ He) as (c & _ & _ & Hu).
    apply GoNetFacts.stripPort_free. by eapply Hslash. }
  split_and!.
  - done.
  - intros p q e s He Hs Hne Hhost. apply Hne.
    eapply registered_pattern_inj; [done..|]. unfold host_pattern. by rewrite Hhost.
  - intros p e rest He. apply GoNetFacts.mux_handler_host; [done| | |by eapply Hfree].
    + intros pat q (s & Hs & ->)%Hmux. exists (hostname s). split; [done|]. by eapply Hfree.
    + apply Hmux. eauto.
  - intros p e host port He Hhost Hport Hbr. unfold hostname. rewrite Hhost.
    by apply stripPort_numeric_port.
Qed.

End DispatchClaims.

Section TrustClaims.
Context `{W : Externals}.
Import GoStrings GoNet.

Lemma registered_Storage fe e :
  Storage e = None →
  Storage (registered fe e) = if owns_trust_store (Kind e) then Some ∅ else None.
Proof. unfold registered. by destruct (owns_trust_store (Kind e)). Qed.

Lemma registered_FedEntity fe e : FedEntity (registered fe e) = Some fe.
Proof. unfold registered. by destruct (owns_trust_store (Kind e)). Qed.

Lemma registered_Subordinates fe e : Subordinates (registered fe e) = Subordinates e.
Proof. unfold registered. by destruct (owns_trust_store (Kind e)). Qed.

Lemma registered_Identifier fe e : Identifier (registered fe e) = Identifier e.
Proof. unfold registered. by destruct (owns_trust_store (Kind e)). Qed.

Lemma registered_Name fe e : Name (registered fe e) = Name e.
Proof. unfold registered. by destruct (owns_trust_store (Kind e)). Qed.

Lemma registered_Kind fe e : Kind (registered fe e) = Kind e.
Proof. unfold registered. by destruct (owns_trust_store (Kind e)). Qed.

Lemma registered_key fe e : SigningPrivateKey (registered fe e) = SigningPrivateKey e.
Proof. unfold registered. by destruct (owns_trust_store (Kind e)). Qed.

(** The head of an edge, in the graph and after registration. *)
Lemma edge_head config g pairs order st edge h t :
  graph_wf config g → graph_links g pairs →
  edge_names <$> Edges config = Some <$> pairs →
  range_order (entityNodes g) order →
  register_loop {| entities_heap := heap g; mux := [] |} (visited g order) = Ok st →
  edge ∈ Edges config → edge_names edge = Some (h, t) →
  ∃ pP pC P C c feP feC hints,
    entityNodes g !! h = Some pP ∧ entityNodes g !! t = Some pC ∧
    heap g !! pP = Some P ∧ heap g !! pC = Some C ∧
    Name P = h ∧ Name C = t ∧
    Entities config !! h = Some c ∧ Kind P = cfg_Kind c ∧
    pC ∈ Subordinates P ∧
    entities_heap st !! pP = Some (registered feP P) ∧
    entities_heap st !! pC = Some (registered feC C) ∧
    NewFedEntity (URL_String (Identifier C)) hints (SigningPrivateKey C) = inr feC.
Proof.
  intros Hwf Hl Hn Hord Hreg Hedge Hnames.
  assert ((h, t) ∈ pairs) as Hin by (apply (edge_names_pairs _ _ _ _ Hn); eauto).
  destruct (links_dom _ _ Hl _ _ Hin) as [[pP HpP] [pC HpC]].
  destruct (wf_node _ _ Hwf _ _ HpP) as (P & HP & HnP).
  destruct (wf_node _ _ Hwf _ _ HpC) as (C & HC & HnC).
  destruct (wf_config _ _ Hwf _ _ HP) as (c & Hc & Hk & _). rewrite HnP in Hc.
  destruct (registration_spec _ _ _ _ _ Hwf Hl Hord Hreg) as (_ & _ & _ & _ & Hheap).
  destruct (Hheap _ _ HP) as (hintsP & feP & _ & _ & HstP).
  destruct (Hheap _ _ HC) as (hints & feC & _ & HfeC & HstC).
  exists pP, pC, P, C, c, feP, feC, hints. split_and!; try done.
  apply (links_sub _ _ Hl _ _ pC HP). eauto.
Qed.

(** C9: materialization walks the subordinates of every entity without
    looking at its kind, while only intermediates and trust anchors
    get a storage.  After a complete registration, when some edge has
    a head of another kind, [main] does not get to listen, and unless
    a write fails first it ends in a nil dereference, not in a
    reported error; when every edge head is an intermediate or a
    trust anchor, [main] does not panic. *)
Theorem leaf_head_nil_storage (config : Config) (order0 order1 order2 : list string)
    (g : Graph) (st : Process) :
  mustParseConfig config order0 = Ok g →
  range_order (entityNodes g) order1 →
  range_order (entityNodes g) order2 →
  register_loop {| entities_heap := heap g; mux := [] |} (visited g order1) = Ok st →
  ((∃ edge h t c, edge ∈ Edges config ∧ edge_names edge = Some (h, t) ∧
                  Entities config !! h = Some c ∧ owns_trust_store (cfg_Kind c) = false) →
   (∀ final, main config order0 order1 order2 ≠ Ok final) ∧
   ((∀ n k, Write_err n k = None) →
    main config order0 order1 order2 = Panic PanicNilDereference)) ∧
  ((∀ edge h t c, edge ∈ Edges config → edge_names edge = Some (h, t) →
                  Entities config !! h = Some c → owns_trust_store (cfg_Kind c) = true) →
   ∀ pn, main config order0 order1 order2 ≠ Panic pn).
Proof.
  intros Hbuild Hord1 Hord2 Hreg.
  destruct (mustParseConfig_spec _ _ _ Hbuild) as (pairs & Hn & Hwf & Hl & Hdom).
  rewrite (main_unfold _ _ _ _ _ Hbuild), Hreg. simpl.
  destruct (registration_spec _ _ _ _ _ Hwf Hl Hord1 Hreg) as (Hcore & _ & _ & _ & Hheap).
  pose proof (visited_NoDup _ _ _ Hwf Hord2) as Hnd.
  split.
  - intros (edge & h & t & c & Hedge & Hnames & Hc & Hown).
    destruct (edge_head _ _ _ _ _ _ _ _ Hwf Hl Hn Hord1 Hreg Hedge Hnames)
      as (pP & pC & P & C & c' & feP & feC & hints & HpP & HpC & HP & HC & HnP & HnC
          & Hc' & Hk & Hsub & HstP & HstC & _).
    assert (c' = c) as -> by congruence.
    assert (∀ hf, trust_loop (entities_heap st) (visited g order2) ≠ Ok hf) as Hnot.
    { intros hf Hloop. destruct (trust_loop_inv _ _ _ Hnd Hloop) as (_ & _ & Hin).
      destruct (Hin _ _ HstP) as [[Hnil _]|(db & Hdb & _)].
      - apply (elem_of_visited config); eauto.
      - rewrite registered_Subordinates in Hnil. rewrite Hnil in Hsub.
        by apply elem_of_nil in Hsub.
      - rewrite registered_Storage, Hk, Hown in Hdb; [done|].
        by apply (wf_fresh _ _ Hwf _ _ HP). }
    pose proof (trust_loop_outcome (visited g order2) (entities_heap st)) as Hout.
    destruct (trust_loop (entities_heap st) (visited g order2)) as [hf|f|pn]; simpl.
    + by destruct (Hnot hf).
    + split; [done|]. intros Hw. destruct Hout as (a & b & err & k & _ & Hf).
      by rewrite Hw in Hf.
    + split; [done|]. intros _. by rewrite Hout.
  - intros Hheads pn.
    assert (trust_loop (entities_heap st) (visited g order2) ≠ Panic pn) as Hnp.
    { apply trust_loop_no_Panic.
      - intros p e' He'.
        destruct (same_core_lookup_inv _ _ _ _ Hcore He') as (e & He & _).
        destruct (Hheap _ _ He) as (hints & fe & _ & _ & Hst).
        assert (e' = registered fe e) as -> by congruence.
        rewrite registered_Subordinates. split.
        + destruct (graph_links_valid _ _ _ _ _ Hwf Hl He) as [_ Hv].
          eapply Forall_impl; [done|]. simpl. intros q [s Hs].
          destruct (Hheap _ _ Hs) as (hints' & fe' & _ & _ & Hst').
          exists (registered fe' s). split; [done|]. rewrite registered_FedEntity. eauto.
        + intros Hne. destruct (Subordinates e) as [|q subs] eqn:Hsubs; [done|].
          assert (q ∈ Subordinates e) as Hq by (rewrite Hsubs; left).
          apply (links_sub _ _ Hl _ _ q He) in Hq as (h & t & Hin & Hh & _).
          apply (edge_names_pairs _ _ _ _ Hn) in Hin as (edge & Hedge & Hnames).
          destruct (wf_config _ _ Hwf _ _ He) as (c & Hc & Hk & _).
          destruct (wf_node _ _ Hwf _ _ Hh) as (e0 & He0 & Hname).
          assert (e0 = e) as -> by congruence. rewrite Hname in Hc.
          rewrite registered_Storage by by apply (wf_fresh _ _ Hwf _ _ He).
          rewrite Hk, (Hheads _ _ _ _ Hedge Hnames Hc). eauto.
      - apply Forall_forall. intros p [e He]%(elem_of_visited config); [|done..].
        destruct (same_core_lookup _ _ _ _ Hcore He) as (e' & He' & _). eauto. }
    destruct (trust_loop (entities_heap st) (visited g order2)); simpl; congruence.
Qed.

(** C1: when [main] gets to listen, then for every edge of the
    configuration, from [P] to [C], the storage of [P] holds under the
    identifier of [C] a record with that identifier, status active,
    and the key set that the handler of [C], made from the key
    generated for [C], publishes; and [P] is an intermediate or a
    trust anchor.  The identifier string of a parsed URL determines
    its host. *)
Theorem trust_completeness (config : Config) (order0 order1 order2 : list string)
    (g : Graph) (final : Process) (edge h t : string) :
  (∀ s1 s2 u v, url_Parse s1 = inr u → url_Parse s2 = inr v →
                URL_String u = URL_String v → URL_Host u = URL_Host v) →
  mustParseConfig config order0 = Ok g →
  range_order (entityNodes g) order1 →
  range_order (entityNodes g) order2 →
  main config order0 order1 order2 = Ok final →
  edge ∈ Edges config → edge_names edge = Some (h, t) →
  ∃ pP pC P C db info feC hints,
    entityNodes g !! h = Some pP ∧ entityNodes g !! t = Some pC ∧
    entities_heap final !! pP = Some P ∧ entities_heap final !! pC = Some C ∧
    Name P = h ∧ Name C = t ∧
    owns_trust_store (Kind P) = true ∧
    Storage P = Some db ∧
    db !! URL_String (Identifier C) = Some info ∧
    GenerateKey pC = inr (SigningPrivateKey C) ∧
    FedEntity C = Some feC ∧
    NewFedEntity (URL_String (Identifier C)) hints (SigningPrivateKey C) = inr feC ∧
    JWKS info = EntityConfigurationPayload_JWKS feC ∧
    EntityID info = URL_String (Identifier C) ∧
    InfoStatus info = StatusActive.
Proof.
  intros Hurl Hbuild Hord1 Hord2 Hmain Hedge Hnames.
  destruct (mustParseConfig_spec _ _ _ Hbuild) as (pairs & Hn & Hwf & Hl & Hdom).
  rewrite (main_unfold _ _ _ _ _ Hbuild) in Hmain.
  destruct (register_loop _ _) as [st| |] eqn:Hreg; [|done..]. simpl in Hmain.
  destruct (trust_loop _ _) as [hf| |] eqn:Hloop; [|done..]. simpl in Hmain.
  injection Hmain as <-. simpl.
  destruct (edge_head _ _ _ _ _ _ _ _ Hwf Hl Hn Hord1 Hreg Hedge Hnames)
    as (pP & pC & P & C & c & feP & feC & hints & HpP & HpC & HP & HC & HnP & HnC
        & Hc & Hk & Hsub & HstP & HstC & HfeC).
  destruct (registration_spec _ _ _ _ _ Hwf Hl Hord1 Hreg) as (Hcore & _ & _ & _ & Hheap).
  pose proof (visited_NoDup _ _ _ Hwf Hord2) as Hnd.
  destruct (trust_loop_inv _ _ _ Hnd Hloop) as (Hframe & _ & Hin).
  destruct (Hin _ _ HstP) as [[Hnil _]|(db & Hdb & Hall & HfP)].
  { apply (elem_of_visited config); eauto. }
  { rewrite registered_Subordinates in Hnil. rewrite Hnil in Hsub.
    by apply elem_of_nil in Hsub. }
  destruct (same_frame_lookup _ _ _ _ Hframe HstC) as (Cf & HCf & HfrC).
  destruct (frame_eq _ _ HfrC) as (HcoreC & HfedC & HkeyC & HrecC).
  assert (Identifier Cf = Identifier C ∧ Name Cf = Name C ∧
          SigningPrivateKey Cf = SigningPrivateKey C) as (HidC & HnameC & HskC).
  { unfold core in HcoreC.
    rewrite <-(registered_Identifier feC C), <-(registered_Name feC C),
      <-(registered_key feC C). split_and!; congruence. }
  rewrite registered_Subordinates in HfP, Hall.
  set (info := {| JWKS := EntityConfigurationPayload_JWKS feC; EntityTypes := [];
                  EntityID := trust_key (registered feC C);
                  InfoStatus := StatusActive |}).
  assert (trust_record (registered feC C) = Some info) as Hrec.
  { unfold trust_record. by rewrite registered_FedEntity. }
  exists pP, pC, (set_Storage (Some (foldl (write_record (entities_heap st)) db
                                   (Subordinates P))) (registered feP P)), Cf.
  eexists _, info, feC, hints. split_and!; try done.
  - simpl. by rewrite registered_Name.
  - congruence.
  - simpl. rewrite registered_Kind.
    rewrite registered_Storage in Hdb by by apply (wf_fresh _ _ Hwf _ _ HP).
    by destruct (owns_trust_store (Kind P)).
  - rewrite HidC, <-(registered_Identifier feC C).
    apply (foldl_write_record_lookup _ _ pC); [done..| |by left].
    intros q s' Hq Hs' Hkey.
    destruct (same_core_lookup_inv _ _ _ _ Hcore Hs') as (s & Hs & Hcs).
    assert (Identifier s' = Identifier s) as Hids by (unfold core in Hcs; congruence).
    unfold trust_key in Hkey. rewrite Hids, registered_Identifier in Hkey.
    destruct (wf_config _ _ Hwf _ _ Hs) as (cs & _ & _ & Hus).
    destruct (wf_config _ _ Hwf _ _ HC) as (cc & _ & _ & Huc).
    apply (registered_pattern_inj _ _ _ _ _ q pC s C Hwf Hl Hord1 Hreg Hs HC).
    unfold host_pattern, hostname. by rewrite (Hurl _ _ _ _ Hus Huc Hkey).
  - rewrite HskC. by apply (wf_key _ _ Hwf).
  - by rewrite HfedC, registered_FedEntity.
  - by rewrite HidC, HskC.
Qed.

End TrustClaims.

(** * Runs of the program in the sample world *)

Module Runs.
Import GoStrings GoNet Sample.

(** The graph of the example configuration. *)
Definition example_graph : Graph (W := world) :=
  Eval vm_compute in
    match mustParseConfig (W := world) example_config example_order with
    | Ok g => g
    | _ => empty_graph
    end.

Lemma example_build :
  mustParseConfig (W := world) example_config example_order = Ok example_graph.
Proof. vm_compute. reflexivity. Qed.

Lemma example_range_order : range_order (entityNodes example_graph) example_order.
Proof. split; [by apply (bool_decide_unpack _)|]. by vm_compute. Qed.

Lemma example_entities_order : range_order (Entities example_config) example_order.
Proof. split; [by apply (bool_decide_unpack _)|]. by vm_compute. Qed.

(** The process of the example configuration when it starts to listen. *)
Definition example_registered : Process (W := world) :=
  Eval vm_compute in
    match register_loop (W := world)
            {| entities_heap := heap example_graph; mux := [] |}
            (visited example_graph example_order) with
    | Ok st => st
    | _ => {| entities_heap := []; mux := [] |}
    end.

Lemma example_registration :
  register_loop (W := world) {| entities_heap := heap example_graph; mux := [] |}
    (visited example_graph example_order) = Ok example_registered.
Proof. vm_compute. reflexivity. Qed.

Definition example_process : Process (W := world) :=
  Eval vm_compute in
    match main (W := world) example_config example_order example_order example_order with
    | Ok st => st
    | _ => {| entities_heap := []; mux := [] |}
    end.

Lemma example_main :
  main (W := world) example_config example_order example_order example_order
  = Ok example_process.
Proof. vm_compute. reflexivity. Qed.

(** In the sample world a URL is its text and the host cut out of it. *)
Lemma parse_inr s u : parse s = inr u → url_text u = s ∧
  url_host u = match Index s "://" with
               | None => ""
               | Some i =>
                   match Index (drop_bytes (i + 3) s) "/" with
                   | Some j => take_bytes j (drop_bytes (i + 3) s)
                   | None => drop_bytes (i + 3) s
                   end
               end.
Proof.
  unfold parse. destruct (HasPrefix s ":"); [done|].
  destruct (Index s "://"); by intros [= <-].
Qed.

Lemma text_determines_host s1 s2 (u v : URL (Externals := world)) :
  url_Parse s1 = inr u → url_Parse s2 = inr v →
  URL_String u = URL_String v → URL_Host u = URL_Host v.
Proof.
  intros [Hu Hhu]%parse_inr [Hv Hhv]%parse_inr.
  change (url_text u = url_text v → url_host u = url_host v). intros Heq.
  assert (s1 = s2) as -> by congruence. congruence.
Qed.

Lemma Index_byte_None s c : Index s (String c "") = None → LastIndexByte s c = None.
Proof.
  induction s as [|d s IH]; [done|].
  intros [Hp Hs]%GoStringsFacts.Index_cons_None.
  apply GoStringsFacts.LastIndexByte_cons_None. split; [|by apply IH].
  intros ->. rewrite GoStringsFacts.HasPrefix_cons in Hp. by case_decide.
Qed.

Lemma host_without_slash s (u : URL (Externals := world)) :
  url_Parse s = inr u → LastIndexByte (URL_Host u) "/" = None.
Proof.
  intros [_ Hhost]%parse_inr.
  change (LastIndexByte (url_host u) "/" = None). rewrite Hhost.
  destruct (Index s "://") as [i|]; [|done].
  destruct (Index (drop_bytes (i + 3) s) "/") as [j|] eqn:Hj.
  - apply Index_byte_None. by apply GoStringsFacts.Index_take.
  - by apply Index_byte_None.
Qed.

(** Two entities behind one hostname. *)
Definition shared_host_config : Config := {|
  Entities := list_to_map
    [("TA", {| cfg_Kind := "trust-anchor"; cfg_Identifier := "https://fed.example.com/ta" |});
     ("OP", {| cfg_Kind := "leaf"; cfg_Identifier := "https://fed.example.com/op" |})];
  Edges := ["TA -> OP"];
|}.

Definition shared_host_graph : Graph (W := world) :=
  Eval vm_compute in
    match mustParseConfig (W := world) shared_host_config ["TA"; "OP"] with
    | Ok g => g
    | _ => empty_graph
    end.

Lemma shared_host_build :
  mustParseConfig (W := world) shared_host_config ["TA"; "OP"] = Ok shared_host_graph.
Proof. vm_compute. reflexivity. Qed.

Lemma shared_host_range_order : range_order (entityNodes shared_host_graph) ["TA"; "OP"].
Proof. split; [by apply (bool_decide_unpack _)|]. by vm_compute. Qed.

(** A leaf at the head of an edge. *)
Definition leaf_head_config : Config := {|
  Entities := list_to_map
    [("RP", {| cfg_Kind := "leaf"; cfg_Identifier := "https://rp.example.com" |});
     ("OP", {| cfg_Kind := "leaf"; cfg_Identifier := "https://op.example.com" |})];
  Edges := ["RP -> OP"];
|}.

Definition leaf_head_graph : Graph (W := world) :=
  Eval vm_compute in
    match mustParseConfig (W := world) leaf_head_config ["RP"; "OP"] with
    | Ok g => g
    | _ => empty_graph
    end.

Lemma leaf_head_build :
  mustParseConfig (W := world) leaf_head_config ["RP"; "OP"] = Ok leaf_head_graph.
Proof. vm_compute. reflexivity. Qed.

Lemma leaf_head_range_order : range_order (entityNodes leaf_head_graph) ["RP"; "OP"].
Proof. split; [by apply (bool_decide_unpack _)|]. by vm_compute. Qed.

Definition leaf_head_registered : Process (W := world) :=
  Eval vm_compute in
    match register_loop (W := world)
            {| entities_heap := heap leaf_head_graph; mux := [] |}
            (visited leaf_head_graph ["RP"; "OP"]) with
    | Ok st => st
    | _ => {| entities_heap := []; mux := [] |}
    end.

Lemma leaf_head_registration :
  register_loop (W := world) {| entities_heap := heap leaf_head_graph; mux := [] |}
    (visited leaf_head_graph ["RP"; "OP"]) = Ok leaf_head_registered.
Proof. vm_compute. reflexivity. Qed.

(** An edge to an entity that is not declared. *)
Definition undefined_config : Config := {|
  Entities := list_to_map
    [("TA", {| cfg_Kind := "trust-anchor"; cfg_Identifier := "https://ta.example.com" |})];
  Edges := ["TA -> OP"];
|}.

Lemma undefined_entities_order : range_order (Entities undefined_config) ["TA"].
Proof. split; [by apply (bool_decide_unpack _)|]. by vm_compute. Qed.

(** The same, after an edge string without separator. *)
Definition malformed_config : Config := {|
  Entities := list_to_map
    [("TA", {| cfg_Kind := "trust-anchor"; cfg_Identifier := "https://ta.example.com" |})];
  Edges := ["TA"; "TA -> OP"];
|}.

(** The example configuration with its edges in the other order, one
    of them twice. *)
Definition example_config_permuted : Config := {|
  Entities := Entities example_config;
  Edges := ["TA-A->IM-A"; " TA-A -> OP-A "; "TA-A -> IM-A"];
|}.

Lemma example_same_edges :
  same_edges (Edges example_config) (Edges example_config_permuted).
Proof.
  unfold same_edges.
  change (edge_names <$> Edges example_config)
    with [Some ("TA-A", "OP-A"); Some ("TA-A", "IM-A")].
  change (edge_names <$> Edges example_config_permuted)
    with [Some ("TA-A", "IM-A"); Some ("TA-A", "OP-A"); Some ("TA-A", "IM-A")].
  intros x. rewrite !elem_of_cons, !elem_of_nil. naive_solver.
Qed.

End Runs.

(** * The claims at concrete inputs *)

Lemma trust_completeness_witness :
  mustParseConfig (W := Sample.world) Sample.example_config Sample.example_order
    = Ok Runs.example_graph ∧
  main (W := Sample.world) Sample.example_config Sample.example_order
    Sample.example_order Sample.example_order = Ok Runs.example_process ∧
  ∃ pP pC P C db info feC hints,
    entityNodes Runs.example_graph !! "TA-A" = Some pP ∧
    entityNodes Runs.example_graph !! "OP-A" = Some pC ∧
    entities_heap Runs.example_process !! pP = Some P ∧
    entities_heap Runs.example_process !! pC = Some C ∧
    Name P = "TA-A" ∧ Name C = "OP-A" ∧
    owns_trust_store (Kind P) = true ∧
    Storage P = Some db ∧
    db !! URL_String (Identifier C) = Some info ∧
    GenerateKey pC = inr (SigningPrivateKey C) ∧
    FedEntity C = Some feC ∧
    NewFedEntity (URL_String (Identifier C)) hints (SigningPrivateKey C) = inr feC ∧
    JWKS info = EntityConfigurationPayload_JWKS feC ∧
    EntityID info = URL_String (Identifier C) ∧
    InfoStatus info = StatusActive.
Proof.
  split; [exact Runs.example_build|]. split; [exact Runs.example_main|].
  apply (trust_completeness (W := Sample.world) Sample.example_config
           Sample.example_order Sample.example_order Sample.example_order
           Runs.example_graph Runs.example_process "TA-A -> OP-A" "TA-A" "OP-A").
  - exact Runs.text_determines_host.
  - exact Runs.example_build.
  - exact Runs.example_range_order.
  - exact Runs.example_range_order.
  - exact Runs.example_main.
  - left.
  - reflexivity.
Defined.

Lemma graph_symmetry_witness :
  mustParseConfig (W := Sample.world) Sample.example_config Sample.example_order
    = Ok Runs.example_graph ∧
  links_symmetric (heap Runs.example_graph) ∧
  links_symmetric (entities_heap Runs.example_process).
Proof.
  split; [exact Runs.example_build|].
  destruct (graph_symmetry (W := Sample.world) Sample.example_config
              Sample.example_order Runs.example_graph Runs.example_build)
    as [Hbuilt Hlater].
  split; [exact Hbuilt|].
  destruct (Hlater (visited Runs.example_graph Sample.example_order)
              Runs.example_registered Runs.example_registration) as [_ Htrust].
  apply (Htrust (visited Runs.example_graph Sample.example_order)).
  vm_compute. reflexivity.
Defined.

Lemma build_fails_on_invalid_config_witness :
  range_order (Entities Runs.undefined_config) ["TA"] ∧
  config_invalid (W := Sample.world) Runs.undefined_config ∧
  config_error (W := Sample.world) Runs.undefined_config ["TA"].
Proof.
  split; [exact Runs.undefined_entities_order|].
  assert (config_invalid (W := Sample.world) Runs.undefined_config) as Hinvalid.
  { right; left. apply Exists_cons_hd. vm_compute. reflexivity. }
  split; [exact Hinvalid|].
  destruct (build_fails_on_invalid_config (W := Sample.world) Runs.undefined_config ["TA"]
              Runs.undefined_entities_order) as (_ & _ & Hreported & _).
  apply Hreported.
  - repeat constructor.
  - intros k. exists k. reflexivity.
  - exact Hinvalid.
Defined.

(** C3 as stated fails: after an edge string without separator the
    build panics, though a later edge names an undeclared entity. *)
Lemma build_panics_on_malformed_edge :
  mustParseConfig (W := Sample.world) Runs.malformed_config ["TA"]
    = Panic (PanicIndexOutOfRange 1 1) ∧
  config_invalid (W := Sample.world) Runs.malformed_config ∧
  ¬ (config_error (W := Sample.world) Runs.malformed_config ["TA"] ↔
     config_invalid (W := Sample.world) Runs.malformed_config).
Proof.
  assert (config_invalid (W := Sample.world) Runs.malformed_config) as Hinvalid.
  { right; left. apply Exists_cons_tl, Exists_cons_hd. vm_compute. reflexivity. }
  split; [vm_compute; reflexivity|]. split; [exact Hinvalid|].
  intros [_ Hreported]. destruct (Hreported Hinvalid) as (f & Hf & _).
  vm_compute in Hf. discriminate Hf.
Qed.

Lemma shared_hostname_aborts_witness :
  mustParseConfig (W := Sample.world) Runs.shared_host_config ["TA"; "OP"]
    = Ok Runs.shared_host_graph ∧
  range_order (entityNodes Runs.shared_host_graph) ["TA"; "OP"] ∧
  ∃ pattern,
    main (W := Sample.world) Runs.shared_host_config ["TA"; "OP"] ["TA"; "OP"] ["TA"; "OP"]
    = Panic (PanicMultipleRegistrations pattern).
Proof.
  split; [exact Runs.shared_host_build|].
  split; [exact Runs.shared_host_range_order|].
  refine (proj2 (shared_hostname_aborts (W := Sample.world) Runs.shared_host_config
                   ["TA"; "OP"] ["TA"; "OP"] ["TA"; "OP"] Runs.shared_host_graph
                   "TA" "OP" 0 1 _ _
                   Runs.shared_host_build Runs.shared_host_range_order
                   _ _ _ _ _ _) _ _).
  - reflexivity.
  - reflexivity.
  - discriminate.
  - reflexivity.
  - reflexivity.
  - reflexivity.
  - intros id hints sk. eexists. reflexivity.
  - intros n. reflexivity.
Defined.

(** C4 as stated fails: with two entities behind one hostname the
    second registration panics, in whichever order the entities are
    visited; nothing is replaced and the process does not listen. *)
Lemma shared_hostname_panics :
  main (W := Sample.world) Runs.shared_host_config ["TA"; "OP"] ["TA"; "OP"] ["TA"; "OP"]
    = Panic (PanicMultipleRegistrations "fed.example.com/") ∧
  main (W := Sample.world) Runs.shared_host_config ["TA"; "OP"] ["OP"; "TA"] ["TA"; "OP"]
    = Panic (PanicMultipleRegistrations "fed.example.com/").
Proof. split; vm_compute; reflexivity. Qed.

Lemma edge_order_irrelevant_witness :
  mustParseConfig (W := Sample.world) Sample.example_config Sample.example_order
    = Ok Runs.example_graph ∧
  same_edges (Edges Sample.example_config) (Edges Runs.example_config_permuted) ∧
  ∃ g2, mustParseConfig (W := Sample.world) Runs.example_config_permuted
          Sample.example_order = Ok g2 ∧
        same_graph Runs.example_graph g2.
Proof.
  split; [exact Runs.example_build|]. split; [exact Runs.example_same_edges|].
  apply (edge_order_irrelevant (W := Sample.world) Sample.example_config
           Runs.example_config_permuted Sample.example_order Sample.example_order
           Runs.example_graph).
  - reflexivity.
  - exact Runs.example_same_edges.
  - exact Runs.example_entities_order.
  - exact Runs.example_entities_order.
  - exact Runs.example_build.
Defined.

Lemma keypair_generated_once_witness :
  mustParseConfig (W := Sample.world) Sample.example_config Sample.example_order
    = Ok Runs.example_graph ∧
  keygen_calls Runs.example_graph = size (entityNodes Runs.example_graph) ∧
  lookupOrCreate (W := Sample.world) Runs.example_graph "TA-A"
    {| cfg_Kind := "trust-anchor"; cfg_Identifier := "https://ta-a.example.com" |}
  = Ok (Runs.example_graph, 0).
Proof.
  split; [exact Runs.example_build|].
  destruct (keypair_generated_once (W := Sample.world)) as (Hhit & _ & Hcount).
  split.
  - apply (Hcount Sample.example_config Sample.example_order Runs.example_graph).
    exact Runs.example_build.
  - apply Hhit. reflexivity.
Defined.

Lemma one_node_per_referenced_name_witness :
  mustParseConfig (W := Sample.world) Sample.example_config Sample.example_order
    = Ok Runs.example_graph ∧
  (∀ n, is_Some (entityNodes Runs.example_graph !! n) ↔
        n ∈ referenced (Edges Sample.example_config)) ∧
  (∀ n p, entityNodes Runs.example_graph !! n = Some p →
     ∃ e, heap Runs.example_graph !! p = Some e ∧ Name e = n ∧
          ∀ q e', heap Runs.example_graph !! q = Some e' → Name e' = n → q = p) ∧
  length (heap Runs.example_graph) = size (entityNodes Runs.example_graph) ∧
  size (entityNodes Runs.example_graph) ≤ size (Entities Sample.example_config).
Proof.
  split; [exact Runs.example_build|].
  apply (one_node_per_referenced_name (W := Sample.world) Sample.example_config
           Sample.example_order Runs.example_graph).
  exact Runs.example_build.
Defined.

Lemma host_routing_witness :
  register_loop (W := Sample.world)
    {| entities_heap := heap Runs.example_graph; mux := [] |}
    (visited Runs.example_graph Sample.example_order) = Ok Runs.example_registered ∧
  GoNet.mux_handler (mux Runs.example_registered) "im-a.example.com"
    ("/" +:+ ".well-known/openid-federation") = Some 2.
Proof.
  split; [exact Runs.example_registration|].
  destruct (host_routing (W := Sample.world) Sample.example_config Sample.example_order
              Sample.example_order Runs.example_graph Runs.example_registered
              Runs.host_without_slash Runs.example_build Runs.example_range_order
              Runs.example_registration) as (_ & _ & Hdispatch & _).
  pose proof (Hdispatch 2 _ ".well-known/openid-federation" eq_refl) as Hrequest.
  exact Hrequest.
Defined.

Lemma leaf_head_nil_storage_witness :
  mustParseConfig (W := Sample.world) Runs.leaf_head_config ["RP"; "OP"]
    = Ok Runs.leaf_head_graph ∧
  register_loop (W := Sample.world)
    {| entities_heap := heap Runs.leaf_head_graph; mux := [] |}
    (visited Runs.leaf_head_graph ["RP"; "OP"]) = Ok Runs.leaf_head_registered ∧
  main (W := Sample.world) Runs.leaf_head_config ["RP"; "OP"] ["RP"; "OP"] ["RP"; "OP"]
    = Panic PanicNilDereference ∧
  ∀ pn, main (W := Sample.world) Sample.example_config Sample.example_order
          Sample.example_order Sample.example_order ≠ Panic pn.
Proof.
  split; [exact Runs.leaf_head_build|]. split; [exact Runs.leaf_head_registration|].
  split.
  - destruct (leaf_head_nil_storage (W := Sample.world) Runs.leaf_head_config
                ["RP"; "OP"] ["RP"; "OP"] ["RP"; "OP"] Runs.leaf_head_graph
                Runs.leaf_head_registered Runs.leaf_head_build
                Runs.leaf_head_range_order Runs.leaf_head_range_order
                Runs.leaf_head_registration) as [Hleaf _].
    apply Hleaf.
    + exists "RP -> OP", "RP", "OP",
        {| cfg_Kind := "leaf"; cfg_Identifier := "https://rp.example.com" |}.
      split; [left|]. split; [reflexivity|]. split; reflexivity.
    + intros n k. reflexivity.
  - destruct (leaf_head_nil_storage (W := Sample.world) Sample.example_config
                Sample.example_order Sample.example_order Sample.example_order
                Runs.example_graph Runs.example_registered Runs.example_build
                Runs.example_range_order Runs.example_range_order
                Runs.example_registration) as [_ Hsafe].
    apply Hsafe. intros edge h t c Hedge Hnames Hc.
    assert (h = "TA-A") as ->.
    { apply elem_of_cons in Hedge as [->|Hedge]; [by injection Hnames as <- _|].
      apply elem_of_cons in Hedge as [->|Hedge]; [by injection Hnames as <- _|].
      by apply elem_of_nil in Hedge. }
    vm_compute in Hc. injection Hc as <-. reflexivity.
Defined.

(** The example of the specification: after startup the trust anchor
    has the leaf and the intermediate as subordinates, each of them has
    it as its only superior, and its storage holds a record under each
    of their identifiers. *)
Example specification_example :
  ∃ (TA OP IM : Entity (W := Sample.world))
    (db : gmap string (SubordinateInfo (W := Sample.world))),
    entities_heap Runs.example_process = [TA; OP; IM] ∧
    Name TA = "TA-A" ∧ Name OP = "OP-A" ∧ Name IM = "IM-A" ∧
    Subordinates TA = [1; 2] ∧ Superiors OP = [0] ∧ Superiors IM = [0] ∧
    Storage TA = Some db ∧
    EntityID (W := Sample.world) <$> db !! "https://op-a.example.com"
      = Some "https://op-a.example.com" ∧
    EntityID (W := Sample.world) <$> db !! "https://im-a.example.com"
      = Some "https://im-a.example.com" ∧
    Storage OP = None ∧ Storage IM = Some ∅.
Proof.
  unfold Runs.example_process. do 4 eexists.
  split; [reflexivity|]. repeat split; vm_compute; reflexivity.
Qed.

(** * Further properties of the program *)

(** ** The link lists, entry by entry *)

Section ExactLinks.
Context `{W : Externals}.

(** The tails of the edges that leave [n], and the heads of the edges that
    enter it, in the order of the edges and with their repetitions. *)
Definition tails_of (n : string) (pairs : list (string * string)) : list string :=
  (filter (λ x, x.1 = n) pairs).*2.

Definition heads_of (n : string) (pairs : list (string * string)) : list string :=
  (filter (λ x, x.2 = n) pairs).*1.

Definition sub_ptrs (g : Graph) (n : string) (pairs : list (string * string)) : list ptr :=
  omap (λ x : string * string, if decide (x.1 = n) then entityNodes g !! x.2 else None) pairs.

Definition sup_ptrs (g : Graph) (n : string) (pairs : list (string * string)) : list ptr :=
  omap (λ x : string * string, if decide (x.2 = n) then entityNodes g !! x.1 else None) pairs.

(** Every link list is the list of the nodes of the edges read so far,
    one entry per edge. *)
Record graph_links_exact (g : Graph) (pairs : list (string * string)) : Prop := {
  exact_sub : ∀ p e, heap g !! p = Some e → Subordinates e = sub_ptrs g (Name e) pairs;
  exact_sup : ∀ p e, heap g !! p = Some e → Superiors e = sup_ptrs g (Name e) pairs;
}.

Lemma omap_ext_elem {A B} (f f' : A → option B) (l : list A) :
  (∀ x, x ∈ l → f x = f' x) → omap f l = omap f' l.
Proof.
  intros Hf. apply list_omap_ext. induction l as [|x l IH]; constructor.
  - apply Hf. by left.
  - apply IH. intros y Hy. apply Hf. by right.
Qed.

Lemma omap_none {A B} (f : A → option B) (l : list A) :
  (∀ x, x ∈ l → f x = None) → omap f l = [].
Proof.
  induction l as [|x l IH]; intros Hf; [done|]. csimpl.
  rewrite (Hf x) by by left. apply IH. intros y Hy. apply Hf. by right.
Qed.

Lemma empty_graph_links_exact : graph_links_exact empty_graph [].
Proof. split; intros p e He; done. Qed.

Lemma alloc_links_exact config g pairs name c u sk :
  graph_wf config g → graph_links g pairs → graph_links_exact g pairs →
  entityNodes g !! name = None →
  graph_links_exact (alloc g name (new_entity name c u sk)) pairs.
Proof.
  intros Hwf Hl Hx Hnone.
  assert (∀ h t, (h, t) ∈ pairs → h ≠ name ∧ t ≠ name) as Hne.
  { intros h t [[? Hh] [? Ht]]%(links_dom _ _ Hl). split; congruence. }
  split; simpl.
  - intros p e [[_ He]|[-> <-]]%lookup_snoc_Some.
    + rewrite (exact_sub _ _ Hx _ _ He). apply omap_ext_elem.
      intros [h t] Hin. destruct (Hne _ _ Hin). simpl.
      case_decide; [|done]. by rewrite lookup_insert_ne.
    + simpl. symmetry. apply omap_none. intros [h t] Hin. destruct (Hne _ _ Hin).
      simpl. by case_decide.
  - intros p e [[_ He]|[-> <-]]%lookup_snoc_Some.
    + rewrite (exact_sup _ _ Hx _ _ He). apply omap_ext_elem.
      intros [h t] Hin. destruct (Hne _ _ Hin). simpl.
      case_decide; [|done]. by rewrite lookup_insert_ne.
    + simpl. symmetry. apply omap_none. intros [h t] Hin. destruct (Hne _ _ Hin).
      simpl. by case_decide.
Qed.

Lemma link_links_exact config g pairs h t headNode tailNode :
  graph_wf config g → graph_links_exact g pairs →
  entityNodes g !! h = Some headNode →
  entityNodes g !! t = Some tailNode →
  graph_links_exact (link g headNode tailNode) (pairs ++ [(h, t)]).
Proof.
  intros Hwf Hx Hh Ht. split.
  - intros p e' (e & He & ->)%link_lookup_Some. simpl.
    unfold sub_ptrs. rewrite omap_app.
    change (entityNodes (link g headNode tailNode)) with (entityNodes g).
    fold (sub_ptrs g (Name e) pairs).
    rewrite <-(exact_sub _ _ Hx _ _ He). csimpl.
    pose proof (wf_name _ _ Hwf _ _ He) as Hn.
    destruct (decide (headNode = p)) as [->|Hp].
    + assert (Name e = h) as -> by (by eapply wf_inj). by rewrite decide_True, Ht.
    + rewrite decide_False; [by rewrite app_nil_r|]. intros ->. congruence.
  - intros p e' (e & He & ->)%link_lookup_Some. simpl.
    unfold sup_ptrs. rewrite omap_app.
    change (entityNodes (link g headNode tailNode)) with (entityNodes g).
    fold (sup_ptrs g (Name e) pairs).
    rewrite <-(exact_sup _ _ Hx _ _ He). csimpl.
    pose proof (wf_name _ _ Hwf _ _ He) as Hn.
    destruct (decide (tailNode = p)) as [->|Hp].
    + assert (Name e = t) as -> by (by eapply wf_inj). by rewrite decide_True, Hh.
    + rewrite decide_False; [by rewrite app_nil_r|]. intros ->. congruence.
Qed.

Lemma lookupOrCreate_links_exact config g pairs name c g' p :
  graph_wf config g → graph_links g pairs → graph_links_exact g pairs →
  lookupOrCreate g name c = Ok (g', p) → graph_links_exact g' pairs.
Proof.
  intros Hwf Hl Hx [[Hp ->]|(Hnone & -> & u & sk & Hu & Hk & ->)]%lookupOrCreate_Ok; [done|].
  by eapply alloc_links_exact.
Qed.

(** The pieces of a round of the loop that runs to its end. *)
Lemma edge_step_Ok config g index edge g' :
  edge_step config g index edge = Ok g' →
  ∃ h t hc tc g1 g2 headNode tailNode,
    edge_names edge = Some (h, t) ∧
    Entities config !! h = Some hc ∧ Entities config !! t = Some tc ∧
    lookupOrCreate g h hc = Ok (g1, headNode) ∧
    lookupOrCreate g1 t tc = Ok (g2, tailNode) ∧
    g' = link g2 headNode tailNode.
Proof.
  intros Hstep.
  destruct (edge_names edge) as [[h t]|] eqn:Hnames;
    [|by rewrite edge_step_malformed in Hstep].
  rewrite (edge_step_names _ _ _ _ _ _ Hnames) in Hstep.
  destruct (Entities config !! h) as [hc|] eqn:Hhc; [|done].
  destruct (Entities config !! t) as [tc|] eqn:Htc; [|done].
  destruct (lookupOrCreate g h hc) as [[g1 hp]| |] eqn:H1; [|done..].
  simpl in Hstep.
  destruct (lookupOrCreate g1 t tc) as [[g2 tp]| |] eqn:H2; [|done..].
  simpl in Hstep. injection Hstep as <-. eauto 15.
Qed.

Lemma edge_step_links_exact config g pairs index edge g' h t :
  graph_wf config g → graph_links g pairs → graph_links_exact g pairs →
  edge_step config g index edge = Ok g' → edge_names edge = Some (h, t) →
  graph_links_exact g' (pairs ++ [(h, t)]).
Proof.
  intros Hwf Hl Hx Hstep Hnames.
  destruct (edge_step_Ok _ _ _ _ _ Hstep)
    as (h' & t' & hc & tc & g1 & g2 & hp & tp & Hn & Hhc & Htc & H1 & H2 & ->).
  assert (h' = h ∧ t' = t) as [-> ->] by (split; congruence).
  destruct (lookupOrCreate_inv _ _ _ _ _ _ _ Hwf Hl Hhc H1) as (Hwf1 & Hl1 & _ & Hh1 & _).
  destruct (lookupOrCreate_inv _ _ _ _ _ _ _ Hwf1 Hl1 Htc H2) as (Hwf2 & _ & Hx2 & Ht2 & _).
  pose proof (lookupOrCreate_links_exact _ _ _ _ _ _ _ Hwf Hl Hx H1) as Hx1.
  pose proof (lookupOrCreate_links_exact _ _ _ _ _ _ _ Hwf1 Hl1 Hx1 H2) as Hx2'.
  apply (link_links_exact config); [done|done| |done].
  by apply (ext_nodes _ _ Hx2).
Qed.

Lemma edge_loop_links_exact config edges : ∀ g pairs index g' pairs',
  graph_wf config g → graph_links g pairs → graph_links_exact g pairs →
  edge_loop config g index edges = Ok g' →
  edge_names <$> edges = Some <$> pairs' →
  graph_links_exact g' (pairs ++ pairs').
Proof.
  induction edges as [|edge edges IH]; intros g pairs index g' pairs' Hwf Hl Hx Hloop Hn.
  - injection Hloop as <-. destruct pairs'; [|done]. by rewrite app_nil_r.
  - destruct pairs' as [|[h t] pairs']; [done|].
    rewrite !fmap_cons in Hn. injection Hn as Hnames Hn.
    simpl in Hloop.
    destruct (edge_step config g index edge) as [g1| |] eqn:Hstep; [|done..].
    simpl in Hloop.
    destruct (edge_step_inv _ _ _ _ _ _ Hwf Hl Hstep)
      as (h' & t' & Hn' & Hwf1 & Hl1 & _).
    assert (h' = h ∧ t' = t) as [-> ->] by (split; congruence).
    rewrite (cons_middle (h, t)), app_assoc.
    pose proof (edge_step_links_exact _ _ _ _ _ _ _ _ Hwf Hl Hx Hstep Hnames) as Hx1.
    by apply (IH g1 _ (S index)).
Qed.

Lemma names_at_sub_ptrs config g pairs n :
  graph_wf config g → graph_links g pairs →
  names_at g (sub_ptrs g n pairs) = tails_of n pairs ∧
  length (sub_ptrs g n pairs) = length (tails_of n pairs).
Proof.
  intros Hwf Hl. pose proof (links_dom _ _ Hl) as Hdom. clear Hl.
  unfold names_at, sub_ptrs, tails_of.
  induction pairs as [|[h t] pairs IH]; [done|].
  destruct IH as [IH1 IH2]; [intros h' t' Hin; apply Hdom; by right|].
  rewrite filter_cons. csimpl. case_decide; csimpl; [|done].
  destruct (Hdom h t) as [_ [q Hq]]; [by left|]. rewrite Hq. csimpl.
  destruct (wf_node _ _ Hwf _ _ Hq) as (s & Hs & Hname). rewrite Hs. csimpl.
  split; [by rewrite IH1, Hname|by rewrite IH2].
Qed.

Lemma names_at_sup_ptrs config g pairs n :
  graph_wf config g → graph_links g pairs →
  names_at g (sup_ptrs g n pairs) = heads_of n pairs ∧
  length (sup_ptrs g n pairs) = length (heads_of n pairs).
Proof.
  intros Hwf Hl. pose proof (links_dom _ _ Hl) as Hdom. clear Hl.
  unfold names_at, sup_ptrs, heads_of.
  induction pairs as [|[h t] pairs IH]; [done|].
  destruct IH as [IH1 IH2]; [intros h' t' Hin; apply Hdom; by right|].
  rewrite filter_cons. csimpl. case_decide; csimpl; [|done].
  destruct (Hdom h t) as [[q Hq] _]; [by left|]. rewrite Hq. csimpl.
  destruct (wf_node _ _ Hwf _ _ Hq) as (s & Hs & Hname). rewrite Hs. csimpl.
  split; [by rewrite IH1, Hname|by rewrite IH2].
Qed.

(** The graph of a build, with its links entry by entry. *)
Lemma mustParseConfig_exact config order0 g :
  mustParseConfig config order0 = Ok g →
  ∃ pairs, edge_names <$> Edges config = Some <$> pairs ∧
    graph_wf config g ∧ graph_links g pairs ∧ graph_links_exact g pairs.
Proof.
  intros Hbuild.
  destruct (mustParseConfig_spec _ _ _ Hbuild) as (pairs & Hn & Hwf & Hl & _).
  exists pairs. split_and!; [done..|].
  unfold mustParseConfig in Hbuild.
  destruct (check_entities _); [|done..]. simpl in Hbuild.
  apply (edge_loop_links_exact _ _ _ [] _ _ _ (empty_graph_wf config)
           empty_graph_links empty_graph_links_exact Hbuild Hn).
Qed.

(** X1: in the graph a build returns, the subordinates of a node are,
    entry by entry, the tails of the edges that leave it, in the order
    of the edge list and once per edge, so that an edge written twice
    gives two entries; likewise its superiors are the heads of the
    edges that enter it. *)
Theorem links_follow_edge_order (config : Config) (order0 : list string) (g : Graph) :
  mustParseConfig config order0 = Ok g →
  ∃ pairs, edge_names <$> Edges config = Some <$> pairs ∧
    ∀ n p e, entityNodes g !! n = Some p → heap g !! p = Some e →
      names_at g (Subordinates e) = tails_of n pairs ∧
      length (Subordinates e) = length (tails_of n pairs) ∧
      names_at g (Superiors e) = heads_of n pairs ∧
      length (Superiors e) = length (heads_of n pairs).
Proof.
  intros (pairs & Hn & Hwf & Hl & Hx)%mustParseConfig_exact.
  exists pairs. split; [done|]. intros n p e Hp He.
  destruct (wf_node _ _ Hwf _ _ Hp) as (e' & He' & Hname).
  assert (e' = e) as -> by congruence.
  rewrite (exact_sub _ _ Hx _ _ He), (exact_sup _ _ Hx _ _ He), Hname.
  destruct (names_at_sub_ptrs config g pairs n Hwf Hl) as [-> ->].
  by destruct (names_at_sup_ptrs config g pairs n Hwf Hl) as [-> ->].
Qed.

End ExactLinks.

(** ** What the handlers and the storages are made of *)

Section RegistrationDetails.
Context `{W : Externals}.

Lemma authorityHints_Ok h superiors hints :
  authorityHints h superiors = Ok hints →
  Forall2 (λ a hint, ∃ s, h !! a = Some s ∧ hint = URL_String (Identifier s))
    superiors hints.
Proof.
  revert hints. induction superiors as [|a superiors IH]; intros hints; simpl.
  - intros [= <-]. constructor.
  - unfold deref. destruct (h !! a) as [s|] eqn:Hs; [|done]. simpl.
    destruct (authorityHints h superiors) as [hints'| |]; [|done..]. simpl.
    intros [= <-]. constructor; [by eauto|by apply IH].
Qed.

(** The identifier string of the declared entity [name]. *)
Definition declared_identifier (config : Config) (name : string) (id : string) : Prop :=
  ∃ c u, Entities config !! name = Some c ∧ url_Parse (cfg_Identifier c) = inr u ∧
         id = URL_String u.

Lemma sup_ptrs_hints config g pairs n : ∀ hints,
  graph_wf config g → graph_links g pairs →
  Forall2 (λ a hint, ∃ s, heap g !! a = Some s ∧ hint = URL_String (Identifier s))
    (sup_ptrs g n pairs) hints →
  Forall2 (λ hint h, declared_identifier config h hint) hints (heads_of n pairs).
Proof.
  intros hints Hwf Hl. pose proof (links_dom _ _ Hl) as Hdom. clear Hl. revert hints.
  unfold sup_ptrs, heads_of.
  induction pairs as [|[h t] pairs IH]; intros hints; csimpl.
  - intros ->%Forall2_nil_inv_l. constructor.
  - assert (∀ h' t', (h', t') ∈ pairs →
              is_Some (entityNodes g !! h') ∧ is_Some (entityNodes g !! t')) as Hdom'
      by (intros h' t' Hin; apply Hdom; by right).
    rewrite filter_cons. simpl. case_decide; [|by apply IH].
    destruct (Hdom h t) as [[q Hq] _]; [by left|]. rewrite Hq. csimpl.
    intros (hint & hints' & (s & Hs & ->) & Hrest & ->)%Forall2_cons_inv_l.
    constructor; [|by apply IH].
    destruct (wf_node _ _ Hwf _ _ Hq) as (s' & Hs' & Hname).
    assert (s' = s) as -> by congruence.
    destruct (wf_config _ _ Hwf _ _ Hs) as (c & Hc & _ & Hu). rewrite Hname in Hc.
    by exists c, (Identifier s).
Qed.

(** X2: when registration runs to its end, the handler of every node is
    the one the entity engine returns for the identifier string of the
    node, the key generated for the node, and as authority hints the
    identifier strings of the heads of the edges that enter the node, in
    the order of the edge list and once per edge; a node that no edge
    enters gets no hints. *)
Theorem authority_hints_follow_edges (config : Config) (order0 order1 : list string)
    (g : Graph) (st : Process) :
  mustParseConfig config order0 = Ok g →
  range_order (entityNodes g) order1 →
  register_loop {| entities_heap := heap g; mux := [] |} (visited g order1) = Ok st →
  ∃ pairs, edge_names <$> Edges config = Some <$> pairs ∧
    ∀ n p e, entityNodes g !! n = Some p → entities_heap st !! p = Some e →
      ∃ hints fe,
        FedEntity e = Some fe ∧
        NewFedEntity (URL_String (Identifier e)) hints (SigningPrivateKey e) = inr fe ∧
        GenerateKey p = inr (SigningPrivateKey e) ∧
        declared_identifier config n (URL_String (Identifier e)) ∧
        Forall2 (λ hint h, declared_identifier config h hint) hints (heads_of n pairs).
Proof.
  intros Hbuild Hord Hreg.
  destruct (mustParseConfig_exact _ _ _ Hbuild) as (pairs & Hn & Hwf & Hl & Hx).
  exists pairs. split; [done|]. intros n p e Hp He.
  destruct (registration_spec _ _ _ _ _ Hwf Hl Hord Hreg) as (_ & _ & _ & _ & Hheap).
  destruct (wf_node _ _ Hwf _ _ Hp) as (e0 & He0 & Hname).
  destruct (Hheap _ _ He0) as (hints & fe & Hh & Hfe & Hst).
  assert (e = registered fe e0) as -> by congruence.
  exists hints, fe.
  rewrite registered_FedEntity, registered_Identifier, registered_key.
  split_and!; [done|done|by apply (wf_key _ _ Hwf)| |].
  - destruct (wf_config _ _ Hwf _ _ He0) as (c & Hc & _ & Hu). rewrite Hname in Hc.
    by exists c, (Identifier e0).
  - apply (sup_ptrs_hints config g pairs n hints Hwf Hl).
    rewrite <-Hname, <-(exact_sup _ _ Hx _ _ He0). by apply authorityHints_Ok.
Qed.

Lemma foldl_write_record_sound h subs key info : ∀ db : gmap string SubordinateInfo,
  foldl (write_record h) db subs !! key = Some info →
  db !! key = Some info ∨
  ∃ q s, q ∈ subs ∧ h !! q = Some s ∧ trust_key s = key ∧ trust_record s = Some info.
Proof.
  induction subs as [|q subs IH]; intros db; simpl; [by left|].
  intros [Hdb|(q' & s & Hq' & Hs & Hk & Hr)]%IH.
  - unfold write_record, BadgerStorage in Hdb.
    destruct (h !! q) as [s|] eqn:Hs; [|by left].
    destruct (trust_record s) as [info'|] eqn:Hr; [|by left].
    destruct (decide (trust_key s = key)) as [<-|Hne].
    + rewrite lookup_insert_eq in Hdb. injection Hdb as <-.
      right. exists q, s. split_and!; [by left|done..].
    + rewrite lookup_insert_ne in Hdb by done. by left.
  - right. exists q', s. split_and!; [by right|done..].
Qed.

(** X3: when [main] gets to listen, an entity has a storage exactly when
    its kind is intermediate or trust-anchor, and a storage holds
    nothing but records of direct subordinates of its owner: every
    record is filed under the identifier of a subordinate, carries that
    identifier, the key set published by the handler of that
    subordinate, no entity types and the status active. *)
Theorem storage_holds_only_subordinates (config : Config)
    (order0 order1 order2 : list string) (g : Graph) (final : Process)
    (p : ptr) (P : Entity) :
  mustParseConfig config order0 = Ok g →
  range_order (entityNodes g) order1 →
  range_order (entityNodes g) order2 →
  main config order0 order1 order2 = Ok final →
  entities_heap final !! p = Some P →
  (is_Some (Storage P) ↔ owns_trust_store (Kind P) = true) ∧
  ∀ db key info, Storage P = Some db → db !! key = Some info →
    ∃ q C feC,
      q ∈ Subordinates P ∧ entities_heap final !! q = Some C ∧
      key = URL_String (Identifier C) ∧ FedEntity C = Some feC ∧
      JWKS info = EntityConfigurationPayload_JWKS feC ∧
      EntityTypes info = [] ∧ EntityID info = key ∧ InfoStatus info = StatusActive.
Proof.
  intros Hbuild Hord1 Hord2 Hmain HP.
  destruct (mustParseConfig_spec _ _ _ Hbuild) as (pairs & Hn & Hwf & Hl & Hdom).
  rewrite (main_unfold _ _ _ _ _ Hbuild) in Hmain.
  destruct (register_loop _ _) as [st| |] eqn:Hreg; [|done..]. simpl in Hmain.
  destruct (trust_loop _ _) as [hf| |] eqn:Hloop; [|done..]. simpl in Hmain.
  injection Hmain as <-. simpl in *.
  destruct (registration_spec _ _ _ _ _ Hwf Hl Hord1 Hreg) as (Hcore & _ & _ & _ & Hheap).
  pose proof (visited_NoDup _ _ _ Hwf Hord2) as Hnd.
  destruct (trust_loop_inv _ _ _ Hnd Hloop) as (Hframe & _ & Hin).
  destruct (same_frame_lookup_inv _ _ _ _ Hframe HP) as (e1 & He1 & Hfr).
  destruct (same_core_lookup_inv _ _ _ _ Hcore He1) as (e0 & He0 & _).
  destruct (Hheap _ _ He0) as (hints & fe & _ & _ & Hst).
  assert (e1 = registered fe e0) as -> by congruence.
  pose proof (registered_Storage fe e0 (proj2 (wf_fresh _ _ Hwf _ _ He0))) as Hsto.
  assert (∀ s info, trust_record s = Some info →
            ∃ fs, FedEntity s = Some fs ∧
                  JWKS info = EntityConfigurationPayload_JWKS fs ∧
                  EntityTypes info = [] ∧ EntityID info = trust_key s ∧
                  InfoStatus info = StatusActive) as Hrecord.
  { intros s info. unfold trust_record. destruct (FedEntity s) as [fs|]; [|done].
    intros [= <-]. eauto 10. }
  destruct (Hin _ _ He1) as [[Hnil HfP]|(db0 & Hdb0 & _ & HfP)].
  { apply (elem_of_visited config); eauto. }
  - assert (P = registered fe e0) as -> by congruence.
    rewrite registered_Kind, Hsto. split.
    + destruct (owns_trust_store (Kind e0)); [by eauto|]. split; [by intros [? ?]|done].
    + intros db key info Hdb Hinfo.
      destruct (owns_trust_store (Kind e0)); [|done]. injection Hdb as <-.
      unfold BadgerStorage in *. by rewrite lookup_empty in Hinfo.
  - assert (P = set_Storage (Some (foldl (write_record (entities_heap st)) db0
                                     (Subordinates (registered fe e0))))
                  (registered fe e0)) as -> by congruence.
    simpl. rewrite registered_Kind. rewrite Hsto in Hdb0.
    destruct (owns_trust_store (Kind e0)); [|done]. injection Hdb0 as <-.
    split; [by eauto|].
    intros db key info [= <-] Hinfo.
    apply foldl_write_record_sound in Hinfo as [Hinfo|(q & s & Hq & Hs & Hk & Hr)];
      [unfold BadgerStorage in *; by rewrite lookup_empty in Hinfo|].
    destruct (same_frame_lookup _ _ _ _ Hframe Hs) as (C & HC & HfrC).
    destruct (frame_eq _ _ HfrC) as (_ & HfedC & HkeyC & _).
    destruct (Hrecord _ _ Hr) as (fs & Hfs & ? & ? & ? & ?).
    exists q, C, fs. rewrite HfedC.
    split_and!; try done; unfold trust_key in *; congruence.
Qed.

End RegistrationDetails.

(** ** Requests for hosts that are not registered *)

Section UnknownHosts.
Context `{W : Externals}.
Import GoStrings GoNet.

Lemma foldl_longer_match_none {H} path (mux : ServeMux H) :
  (∀ e, e ∈ mux → ends_in_slash e.1 && HasPrefix path e.1 = false) →
  foldl (longer_match path) None mux = None.
Proof.
  induction mux as [|e mux IH]; intros Hno; simpl; [done|].
  unfold longer_match at 2. rewrite (Hno e) by by left.
  apply IH. intros e' He'. apply Hno. by right.
Qed.

(** No pattern of a table of host patterns fits a request for a host
    that has no pattern. *)
Lemma mux_match_unregistered {H} (mux : ServeMux H) host rest :
  (∀ pat q, (pat, q) ∈ mux →
     ∃ host', pat = host' +:+ "/" ∧ LastIndexByte host' "/" = None) →
  host +:+ "/" ∉ mux.*1 →
  LastIndexByte host "/" = None →
  mux_match mux (host +:+ "/" +:+ rest) = None.
Proof.
  intros Hpat Hno Hhost.
  assert (∀ pat q, (pat, q) ∈ mux → HasPrefix (host +:+ "/" +:+ rest) pat = false) as Hfit.
  { intros pat q Hq. destruct (HasPrefix _ pat) eqn:Hp; [|done].
    destruct (Hpat _ _ Hq) as (host' & -> & Hfree).
    apply GoStringsFacts.HasPrefix_terminated in Hp; [|done..]. subst host'.
    destruct Hno. apply list_elem_of_fmap. by exists (host +:+ "/", q). }
  unfold mux_match.
  destruct (mux_lookup mux (host +:+ "/" +:+ rest)) as [h|] eqn:Hl.
  - apply GoNetFacts.mux_lookup_Some in Hl.
    pose proof (GoStringsFacts.HasPrefix_refl (host +:+ "/" +:+ rest)) as Hr.
    by rewrite (Hfit _ _ Hl) in Hr.
  - rewrite foldl_longer_match_none; [done|].
    intros [pat q] Hq. simpl. rewrite (Hfit _ _ Hq). apply andb_false_r.
Qed.

Lemma mux_handler_unregistered {H} (mux : ServeMux H) host rest :
  (∀ pat q, (pat, q) ∈ mux →
     ∃ host', pat = host' +:+ "/" ∧ LastIndexByte host' "/" = None) →
  host +:+ "/" ∉ mux.*1 →
  LastIndexByte host "/" = None →
  mux_handler mux host ("/" +:+ rest) = mux_match mux ("/" +:+ rest).
Proof.
  intros Hpat Hno Hhost. unfold mux_handler.
  destruct (mux_hosts mux); [|done].
  by rewrite (mux_match_unregistered mux host rest).
Qed.

(** X4: when registration runs to its end, a request for a host that is
    the hostname of no entity reaches no handler, unless some entity has
    an empty hostname (an identifier without host): the pattern of that
    entity is the bare slash, and the request goes to its handler.
    Entities that no edge refers to have no node and so no pattern. *)
Theorem unknown_host_not_served (config : Config) (order0 order1 : list string)
    (g : Graph) (st : Process) (host rest : string) :
  (∀ s u, url_Parse s = inr u → LastIndexByte (URL_Host u) "/" = None) →
  mustParseConfig config order0 = Ok g →
  range_order (entityNodes g) order1 →
  register_loop {| entities_heap := heap g; mux := [] |} (visited g order1) = Ok st →
  LastIndexByte host "/" = None →
  (∀ p e, heap g !! p = Some e → hostname e ≠ host) →
  ((∀ p e, heap g !! p = Some e → hostname e ≠ "") →
   mux_handler (mux st) host ("/" +:+ rest) = None) ∧
  (∀ p e, heap g !! p = Some e → hostname e = "" →
   mux_handler (mux st) host ("/" +:+ rest) = Some p).
Proof.
  intros Hslash Hbuild Hord Hreg Hhost Hunknown.
  destruct (mustParseConfig_spec _ _ _ Hbuild) as (pairs & Hn & Hwf & Hl & Hdom).
  destruct (registration_spec _ _ _ _ _ Hwf Hl Hord Hreg) as (_ & _ & Hnd & Hmux & _).
  assert (∀ p e, heap g !! p = Some e → LastIndexByte (hostname e) "/" = None) as Hfree.
  { intros p e He. destruct (wf_config _ _ Hwf _ _ He) as (c & _ & _ & Hu).
    apply GoNetFacts.stripPort_free. by eapply Hslash. }
  assert (∀ pat q, (pat, q) ∈ mux st →
            ∃ host', pat = host' +:+ "/" ∧ LastIndexByte host' "/" = None) as Hpat.
  { intros pat q (s & Hs & ->)%Hmux. exists (hostname s). split; [done|]. by eapply Hfree. }
  assert (∀ x, (∀ p e, heap g !! p = Some e → hostname e ≠ x) →
               LastIndexByte x "/" = None → x +:+ "/" ∉ (mux st).*1) as Hno.
  { intros x Hx Hxfree ([pat q] & Heq & (s & Hs & ->)%Hmux)%list_elem_of_fmap.
    simpl in Heq. apply (Hx _ _ Hs). unfold host_pattern in Heq.
    symmetry. apply (GoStringsFacts.HasPrefix_terminated "/"%char _ _ "");
      [done|by eapply Hfree|].
    change (hostname s +:+ String "/" "") with (hostname s +:+ "/").
    change (x +:+ String "/" "") with (x +:+ "/").
    rewrite Heq. apply GoStringsFacts.HasPrefix_refl. }
  rewrite (mux_handler_unregistered (mux st) host rest Hpat (Hno _ Hunknown Hhost) Hhost).
  split.
  - intros Hnonempty.
    apply (mux_match_unregistered (mux st) "" rest Hpat); [|done].
    by apply Hno.
  - intros p e He Hempty.
    assert (mux_handler (mux st) "" ("/" +:+ rest) = Some p) as Hroot.
    { apply GoNetFacts.mux_handler_host; [done|done| |done].
      apply Hmux. exists e. split; [done|]. unfold host_pattern. by rewrite Hempty. }
    unfold mux_handler in Hroot.
    change ("" +:+ "/" +:+ rest) with ("/" +:+ rest) in Hroot.
    destruct (mux_hosts (mux st)); [|done].
    by destruct (mux_match (mux st) ("/" +:+ rest)).
Qed.

(** X5: the port of an identifier plays no part in the routing, so two
    entities whose identifiers have the same host name and different
    numeric ports ask for the same pattern: registration does not run to
    its end, and [main] does not get to listen. *)
Theorem ports_do_not_separate_entities (config : Config)
    (order0 order1 order2 : list string) (g : Graph) (n1 n2 : string) (p1 p2 : ptr)
    (e1 e2 : Entity) (host port1 port2 : string) :
  mustParseConfig config order0 = Ok g →
  range_order (entityNodes g) order1 →
  entityNodes g !! n1 = Some p1 → entityNodes g !! n2 = Some p2 → n1 ≠ n2 →
  heap g !! p1 = Some e1 → heap g !! p2 = Some e2 →
  URL_Host (Identifier e1) = host +:+ ":" +:+ port1 →
  URL_Host (Identifier e2) = host +:+ ":" +:+ port2 →
  all_digits port1 = true → all_digits port2 = true →
  HasPrefix host "[" = false →
  (∀ st, register_loop {| entities_heap := heap g; mux := [] |} (visited g order1)
         ≠ Ok st) ∧
  (∀ final, main config order0 order1 order2 ≠ Ok final).
Proof.
  intros Hbuild Hord Hn1 Hn2 Hne He1 He2 Hh1 Hh2 Hd1 Hd2 Hbr.
  destruct (mustParseConfig_spec _ _ _ Hbuild) as (pairs & Hn & Hwf & Hl & Hdom).
  assert (∀ st, register_loop {| entities_heap := heap g; mux := [] |}
                  (visited g order1) ≠ Ok st) as Hnot.
  { intros st Hreg. apply Hne. apply (wf_inj _ _ _ _ p1 Hwf Hn1).
    rewrite (registered_pattern_inj _ _ _ _ _ p1 p2 e1 e2 Hwf Hl Hord Hreg He1 He2); [done|].
    unfold host_pattern, hostname. rewrite Hh1, Hh2.
    by rewrite !stripPort_numeric_port. }
  split; [done|]. intros final. rewrite (main_unfold _ _ _ _ _ Hbuild).
  destruct (register_loop _ _) as [st| |] eqn:Hreg; [|done..]. by destruct (Hnot st).
Qed.

End UnknownHosts.

(** ** Which error a build stops with *)

Section BuildOutcomes.
Context `{W : Externals}.
Import GoStrings GoNet.

Lemma edge_loop_app config edges1 : ∀ edges2 g index,
  edge_loop config g index (edges1 ++ edges2) =
    g' ← edge_loop config g index edges1;
    edge_loop config g' (index + length edges1) edges2.
Proof.
  induction edges1 as [|e edges1 IH]; intros edges2 g index; simpl.
  - by rewrite Nat.add_0_r.
  - destruct (edge_step config g index e) as [g1| |]; simpl; [|done..].
    rewrite IH. by rewrite Nat.add_succ_r.
Qed.

Lemma declarations_checked config order0 :
  range_order (Entities config) order0 →
  (∀ k c, Entities config !! k = Some c → entity_invalid c = false) →
  check_entities (range_map (Entities config) order0) = Ok ().
Proof.
  intros Hord Hvalid. apply check_entities_Ok, Forall_forall.
  intros [k c] [_ Hk]%elem_of_range_map. by apply (Hvalid k).
Qed.

(** The graph the loop has built when it gets to the first edge that
    is not good. *)
Lemma good_prefix_built config prefix :
  Forall (λ e, edge_good config e = true) prefix →
  keys_available (referenced prefix) →
  ∃ g, edge_loop config empty_graph 0 prefix = Ok g ∧ graph_wf config g ∧
       dom (entityNodes g) = referenced prefix.
Proof.
  intros Hgood Hkeys.
  destruct (edge_loop_progress config prefix empty_graph 0) as [g Hloop];
    [apply empty_graph_wf|done| |].
  { simpl. by rewrite dom_empty_L, (left_id_L ∅ (∪)). }
  exists g. split; [done|].
  destruct (edge_loop_inv _ _ _ _ _ _ (empty_graph_wf config) empty_graph_links Hloop)
    as (pairs & Hn & Hwf & _ & _ & Hd).
  split; [done|]. apply set_eq. intros n.
  rewrite elem_of_dom, Hd, (referenced_pairs _ _ _ Hn). simpl. rewrite lookup_empty.
  split; [|by eauto]. by intros [[? ?]|?].
Qed.

(** X6: with valid declarations, the outcome of a build is decided by
    the first edge that is not good, whatever follows it.  Without the
    separator the build panics; with a name that has no declaration it
    reports an undefined reference that names the head of the edge and
    the position of the edge, also when it is the tail that is not
    declared, and also when an identifier of the edge does not parse;
    with both names declared it reports the head whose identifier does
    not parse, and otherwise the tail. *)
Theorem first_offending_edge_decides (config : Config) (order0 : list string)
    (prefix rest : list string) (edge : string) :
  range_order (Entities config) order0 →
  (∀ k c, Entities config !! k = Some c → entity_invalid c = false) →
  Edges config = prefix ++ edge :: rest →
  Forall (λ e, edge_good config e = true) prefix →
  keys_available (referenced prefix) →
  (edge_names edge = None →
   mustParseConfig config order0 = Panic (PanicIndexOutOfRange 1 1)) ∧
  (∀ h t, edge_names edge = Some (h, t) →
     Entities config !! h = None ∨ Entities config !! t = None →
     mustParseConfig config order0 = Fatal (FatalUndefinedReference h (length prefix))) ∧
  (∀ h t c err, edge_names edge = Some (h, t) →
     Entities config !! h = Some c → is_Some (Entities config !! t) →
     url_Parse (cfg_Identifier c) = inl err →
     mustParseConfig config order0 = Fatal (FatalInvalidURL h err)) ∧
  (∀ h t c err, edge_names edge = Some (h, t) →
     is_Some (Entities config !! h) → url_fails config h = false →
     keys_available (referenced prefix ∪ {[h]}) →
     Entities config !! t = Some c →
     url_Parse (cfg_Identifier c) = inl err →
     mustParseConfig config order0 = Fatal (FatalInvalidURL t err)).
Proof.
  intros Hord Hvalid Hedges Hgood Hkeys.
  destruct (good_prefix_built config prefix Hgood Hkeys) as (g & Hloop & Hwf & Hdom).
  assert (mustParseConfig config order0 =
            (g' ← edge_step config g (length prefix) edge;
             edge_loop config g' (S (length prefix)) rest)) as ->.
  { unfold mustParseConfig. rewrite (declarations_checked _ _ Hord Hvalid), Hedges.
    simpl. by rewrite edge_loop_app, Hloop. }
  assert (∀ n c err, Entities config !! n = Some c →
            url_Parse (cfg_Identifier c) = inl err →
            ∀ g0, graph_wf config g0 →
            lookupOrCreate g0 n c = Fatal (FatalInvalidURL n err)) as Hfail.
  { intros n c err Hc Herr g0 Hwf0. unfold lookupOrCreate.
    destruct (entityNodes g0 !! n) as [p|] eqn:Hp; [|by rewrite Herr].
    pose proof (wf_url_parses _ _ _ _ Hwf0 Hp) as Hu. unfold url_fails in Hu.
    by rewrite Hc, Herr in Hu. }
  split_and!.
  - intros Hnames. by rewrite edge_step_malformed.
  - intros h t Hnames Hundef. rewrite (edge_step_names _ _ _ _ _ _ Hnames).
    destruct (Entities config !! h); [|done].
    destruct (Entities config !! t); [|done]. by destruct Hundef.
  - intros h t c err Hnames Hc [tc Htc] Herr.
    rewrite (edge_step_names _ _ _ _ _ _ Hnames), Hc, Htc.
    by rewrite (Hfail _ _ _ Hc Herr g Hwf).
  - intros h t c err Hnames [hc Hhc] Hu Hkeys' Hc Herr.
    rewrite (edge_step_names _ _ _ _ _ _ Hnames), Hhc, Hc.
    destruct (lookupOrCreate_progress config g h hc Hwf Hhc Hu) as (g1 & hp & H1).
    { intros Hnone. apply (keys_available_next config g h (referenced prefix ∪ {[h]}));
        [done|done|set_solver|set_solver|done]. }
    rewrite H1. simpl.
    by rewrite (Hfail _ _ _ Hc Herr g1 (lookupOrCreate_wf _ _ _ _ _ _ Hwf Hhc H1)).
Qed.

Lemma check_entities_first (m : gmap string EntityConfig) (order : list string) :
  (∃ k c, k ∈ order ∧ m !! k = Some c ∧ entity_invalid c = true) →
  ∃ before k after c,
    order = before ++ k :: after ∧ m !! k = Some c ∧ entity_invalid c = true ∧
    (∀ k' c', k' ∈ before → m !! k' = Some c' → entity_invalid c' = false) ∧
    check_entities (range_map m order) =
      Fatal (if decide (cfg_Kind c = "") then FatalKindMissing k
             else FatalIdentifierMissing k).
Proof.
  induction order as [|k0 order IH]; intros (k & c & Hin & Hk & Hc).
  { by apply elem_of_nil in Hin. }
  unfold range_map. simpl. fold (range_map m order).
  destruct (m !! k0) as [c0|] eqn:Hk0; simpl.
  - destruct (entity_invalid c0) eqn:Hc0.
    + exists [], k0, order, c0. split_and!; [done..| |].
      { intros k' c' []%elem_of_nil. }
      unfold entity_invalid in Hc0.
      destruct (decide (cfg_Kind c0 = "")) as [|Hkind]; [done|].
      rewrite (bool_decide_eq_false_2 _ Hkind) in Hc0. simpl in Hc0.
      apply bool_decide_eq_true in Hc0. by rewrite decide_True.
    + destruct IH as (before & k1 & after & c1 & -> & Hk1 & Hc1 & Hbefore & Hchk).
      { exists k, c. split; [|done].
        apply elem_of_cons in Hin as [->|Hin]; [|done]. congruence. }
      exists (k0 :: before), k1, after, c1. split_and!; [done..| |].
      { intros k' c' [->|Hin']%elem_of_cons Hk'; [congruence|by eapply Hbefore]. }
      unfold entity_invalid in Hc0. apply orb_false_elim in Hc0 as [Hkind Hid].
      apply bool_decide_eq_false in Hkind, Hid.
      rewrite (decide_False _ _ Hkind), (decide_False _ _ Hid). exact Hchk.
  - destruct IH as (before & k1 & after & c1 & -> & Hk1 & Hc1 & Hbefore & Hchk).
    { exists k, c. split; [|done].
      apply elem_of_cons in Hin as [->|Hin]; [|done]. congruence. }
    exists (k0 :: before), k1, after, c1. split_and!; [done..| |exact Hchk].
    intros k' c' [->|Hin']%elem_of_cons Hk'; [congruence|by eapply Hbefore].
Qed.

(** X7: the declarations are checked before any edge is looked at, the
    unreferenced ones too.  When some declaration has an empty kind or
    an empty identifier, the build reports the first such declaration
    in the order in which the map is visited, with the kind message
    when its kind is empty and the identifier message otherwise,
    whatever the edges are. *)
Theorem invalid_declaration_reported_first (config : Config) (order0 : list string) :
  range_order (Entities config) order0 →
  (∃ k c, Entities config !! k = Some c ∧ entity_invalid c = true) →
  ∃ before k after c,
    order0 = before ++ k :: after ∧
    Entities config !! k = Some c ∧ entity_invalid c = true ∧
    (∀ k' c', k' ∈ before → Entities config !! k' = Some c' → entity_invalid c' = false) ∧
    mustParseConfig config order0 =
      Fatal (if decide (cfg_Kind c = "") then FatalKindMissing k
             else FatalIdentifierMissing k).
Proof.
  intros Hord (k & c & Hk & Hc).
  destruct (check_entities_first (Entities config) order0)
    as (before & k1 & after & c1 & Horder & Hk1 & Hc1 & Hbefore & Hchk).
  { exists k, c. split; [|done]. apply (range_order_elem (Entities config)); eauto. }
  exists before, k1, after, c1. split_and!; [done..|].
  unfold mustParseConfig. by rewrite Hchk.
Qed.

(** X8: a build returns a graph exactly when every declaration has a
    kind and an identifier, every edge has the separator and names
    declared entities whose identifiers parse, and the key generation
    succeeds once for each name the edges refer to. *)
Theorem build_succeeds_iff (config : Config) (order0 : list string) :
  range_order (Entities config) order0 →
  (∃ g, mustParseConfig config order0 = Ok g) ↔
  (∀ k c, Entities config !! k = Some c → entity_invalid c = false) ∧
  Forall (λ e, edge_good config e = true) (Edges config) ∧
  keys_available (referenced (Edges config)).
Proof.
  intros Hord. split.
  - intros [g Hbuild].
    destruct (mustParseConfig_spec _ _ _ Hbuild) as (pairs & Hn & Hwf & Hl & Hdom).
    unfold mustParseConfig in Hbuild.
    destruct (check_entities _) as [[]| |] eqn:Hchk; [|done..]. simpl in Hbuild.
    split_and!.
    + intros k c Hk. apply check_entities_Ok in Hchk.
      rewrite Forall_forall in Hchk. apply (Hchk (k, c)).
      apply elem_of_range_map. split; [|done].
      apply (range_order_elem (Entities config)); eauto.
    + pose proof (edge_loop_outcome config (Edges config) empty_graph 0
                    (empty_graph_wf config)) as Hout.
      by rewrite Hbuild in Hout.
    + intros k Hk. rewrite <-Hdom, <-(wf_calls_size _ _ Hwf), (wf_calls _ _ Hwf) in Hk.
      destruct (lookup_lt_is_Some_2 _ _ Hk) as [e He].
      exists (SigningPrivateKey e). by apply (wf_key _ _ Hwf).
  - intros (Hvalid & Hgood & Hkeys).
    destruct (good_prefix_built config (Edges config) Hgood Hkeys) as (g & Hloop & _).
    exists g. unfold mustParseConfig.
    by rewrite (declarations_checked _ _ Hord Hvalid).
Qed.

End BuildOutcomes.

(** ** When the program gets to listen *)

Section StartupSuccess.
Context `{W : Externals}.
Import GoStrings GoNet.

Lemma append_byte_inj a b c : a +:+ String c "" = b +:+ String c "" → a = b.
Proof.
  revert b. induction a as [|x a IH]; intros [|y b].
  - done.
  - rewrite GoStringsFacts.append_nil_l, GoStringsFacts.append_cons.
    intros [= _ Heq]. by destruct b.
  - rewrite GoStringsFacts.append_nil_l, GoStringsFacts.append_cons.
    intros [= _ Heq]. by destruct a.
  - rewrite !GoStringsFacts.append_cons. intros [= -> Heq]. by rewrite (IH b).
Qed.

Lemma host_pattern_inj e s : host_pattern e = host_pattern s → hostname e = hostname s.
Proof. apply append_byte_inj. Qed.

(** What the environment has to grant for the registration of [e]:
    the entity engine accepts its identifier, authority hints and key,
    and a storage can be opened if it is to own one. *)
Definition can_register (h : list Entity) (e : Entity) : Prop :=
  (∃ hints fe, authorityHints h (Superiors e) = Ok hints ∧
     NewFedEntity (URL_String (Identifier e)) hints (SigningPrivateKey e) = inr fe) ∧
  (owns_trust_store (Kind e) = true → NewInMemoryBadgerStorage_err (Name e) = None).

Lemma can_register_core h h' e e' :
  same_core h h' → core e' = core e → can_register h e ↔ can_register h' e'.
Proof.
  intros Hcore Hc. unfold can_register.
  rewrite (authorityHints_same_core _ _ _ Hcore).
  assert (Superiors e' = Superiors e ∧ Name e' = Name e ∧ Kind e' = Kind e ∧
          Identifier e' = Identifier e ∧ SigningPrivateKey e' = SigningPrivateKey e)
    as (-> & -> & -> & -> & ->) by (unfold core in Hc; split_and!; congruence).
  done.
Qed.

Lemma can_register_always h e :
  (∀ id hints sk, ∃ fe, NewFedEntity id hints sk = inr fe) →
  (∀ n, NewInMemoryBadgerStorage_err n = None) →
  Forall (λ a, is_Some (h !! a)) (Superiors e) →
  can_register h e.
Proof.
  intros Hfe Hdb Hsup. split; [|done].
  destruct (authorityHints_valid _ _ Hsup) as [hints Hhints].
  destruct (Hfe (URL_String (Identifier e)) hints (SigningPrivateKey e)) as [fe Hfed].
  eauto.
Qed.

Lemma register_entity_progress st p e :
  entities_heap st !! p = Some e →
  can_register (entities_heap st) e →
  host_pattern e ∉ (mux st).*1 →
  ∃ st', register_entity st p = Ok st'.
Proof.
  intros He [(hints & fe & Hhints & Hfe) Hdb] Hpat.
  unfold register_entity, deref. rewrite He. simpl. rewrite Hhints. simpl. rewrite Hfe.
  apply GoNetFacts.mux_lookup_None in Hpat. unfold host_pattern, hostname in Hpat.
  assert (Handle (mux st) (stripPort (URL_Host (Identifier e)) +:+ "/") p =
          Ok (mux st ++ [(stripPort (URL_Host (Identifier e)) +:+ "/", p)])) as Hh.
  { unfold Handle. rewrite decide_False by apply (host_pattern_nonempty e).
    by rewrite Hpat. }
  destruct (owns_trust_store (Kind e)); [rewrite Hdb by done|];
    simpl; rewrite Hh; simpl; eauto.
Qed.

Lemma register_entity_granted st p st' e :
  register_entity st p = Ok st' → entities_heap st !! p = Some e →
  can_register (entities_heap st) e.
Proof.
  unfold register_entity, deref. intros Hreg He. rewrite He in Hreg. simpl in Hreg.
  destruct (authorityHints _ _) as [hints| |] eqn:Hhints; [|done..]. simpl in Hreg.
  destruct (NewFedEntity _ _ _) as [err|fe] eqn:Hfe; [done|].
  split; [by eauto|]. intros Hown. rewrite Hown in Hreg.
  by destruct (NewInMemoryBadgerStorage_err (Name e)).
Qed.

Lemma register_loop_progress ps : ∀ st,
  NoDup ps →
  (∀ p, p ∈ ps → ∃ e, entities_heap st !! p = Some e ∧
     can_register (entities_heap st) e ∧ host_pattern e ∉ (mux st).*1) →
  (∀ p q e s, p ∈ ps → q ∈ ps → p ≠ q →
     entities_heap st !! p = Some e → entities_heap st !! q = Some s →
     host_pattern e ≠ host_pattern s) →
  ∃ st', register_loop st ps = Ok st'.
Proof.
  induction ps as [|p ps IH]; intros st Hnd Hin Hdist; simpl; [by eauto|].
  apply NoDup_cons in Hnd as [Hp Hnd].
  destruct (Hin p) as (e & He & Hcan & Hpat); [by left|].
  destruct (register_entity_progress st p e He Hcan Hpat) as [st1 Hst1].
  rewrite Hst1. simpl.
  destruct (register_entity_Ok _ _ _ Hst1) as (e0 & hints & fe & He0 & _ & _ & _ & ->).
  assert (e0 = e) as -> by congruence.
  assert (∀ q, q ∈ ps →
            alter (registered fe) p (entities_heap st) !! q = entities_heap st !! q) as Hsame.
  { intros q Hq. apply list_lookup_alter_ne. intros ->. done. }
  assert (same_core (entities_heap st) (alter (registered fe) p (entities_heap st)))
    as Hcore by (apply same_core_alter; intros e'; apply registered_core).
  apply IH; simpl; [done| |].
  - intros q Hq. rewrite (Hsame q Hq).
    destruct (Hin q) as (s & Hs & Hcans & Hpat'); [by right|].
    exists s. split_and!; [done| |].
    + by apply (can_register_core _ _ s s Hcore eq_refl).
    + rewrite fmap_app. simpl. apply not_elem_of_app. split; [done|].
      intros Heq%list_elem_of_singleton.
      apply (Hdist p q e s); [by left|by right| |done..]. intros ->. done.
  - intros q1 q2 e1 e2 Hq1 Hq2 Hne. rewrite (Hsame q1 Hq1), (Hsame q2 Hq2).
    apply Hdist; [by right|by right|done].
Qed.

Lemma register_loop_granted ps : ∀ st st' q e,
  register_loop st ps = Ok st' → q ∈ ps → entities_heap st !! q = Some e →
  can_register (entities_heap st) e.
Proof.
  induction ps as [|p ps IH]; intros st st' q e Hloop Hq He; simpl in Hloop.
  { by apply elem_of_nil in Hq. }
  destruct (register_entity st p) as [st1| |] eqn:Hst1; [|done..]. simpl in Hloop.
  apply elem_of_cons in Hq as [->|Hq]; [by eapply register_entity_granted|].
  destruct (register_entity_Ok _ _ _ Hst1) as (e0 & hints & fe & He0 & _ & _ & _ & ->).
  assert (same_core (entities_heap st) (alter (registered fe) p (entities_heap st)))
    as Hcore by (apply same_core_alter; intros e'; apply registered_core).
  destruct (same_core_lookup _ _ _ _ Hcore He) as (e1 & He1 & Hc).
  apply (can_register_core _ _ e e1 Hcore Hc).
  by apply (IH _ st' q e1 Hloop).
Qed.

(** X9: the program gets to listen when the build returns a graph, the
    nodes have pairwise different hostnames, the head of every edge is
    an intermediate or a trust anchor, and the entity engine and the
    storage report no error. *)
Theorem startup_succeeds (config : Config) (order0 order1 order2 : list string)
    (g : Graph) :
  mustParseConfig config order0 = Ok g →
  range_order (entityNodes g) order1 →
  range_order (entityNodes g) order2 →
  (∀ id hints sk, ∃ fe, NewFedEntity id hints sk = inr fe) →
  (∀ n, NewInMemoryBadgerStorage_err n = None) →
  (∀ n k, Write_err n k = None) →
  (∀ p q e s, heap g !! p = Some e → heap g !! q = Some s → p ≠ q →
     hostname e ≠ hostname s) →
  (∀ edge h t c, edge ∈ Edges config → edge_names edge = Some (h, t) →
     Entities config !! h = Some c → owns_trust_store (cfg_Kind c) = true) →
  ∃ final, main config order0 order1 order2 = Ok final.
Proof.
  intros Hbuild Hord1 Hord2 Hfe Hdb Hw Hhosts Hheads.
  destruct (mustParseConfig_spec _ _ _ Hbuild) as (pairs & Hn & Hwf & Hl & Hdom).
  rewrite (main_unfold _ _ _ _ _ Hbuild).
  destruct (register_loop_progress (visited g order1)
              {| entities_heap := heap g; mux := [] |}) as [st Hreg]; simpl.
  { by apply (visited_NoDup config). }
  { intros p [e He]%(elem_of_visited config); [|done..].
    exists e. split_and!; [done| |apply not_elem_of_nil].
    apply can_register_always; [done..|].
    by apply (graph_links_valid _ _ _ _ _ Hwf Hl He). }
  { intros p q e s _ _ Hne He Hs Hpat. apply (Hhosts p q e s He Hs Hne).
    by apply host_pattern_inj. }
  rewrite Hreg. simpl.
  destruct (registration_spec _ _ _ _ _ Hwf Hl Hord1 Hreg) as (Hcore & _ & _ & _ & Hheap).
  pose proof (trust_loop_outcome (visited g order2) (entities_heap st)) as Hout.
  destruct (trust_loop (entities_heap st) (visited g order2)) as [hf|f|pn] eqn:Hloop;
    simpl; [by eauto| |].
  - destruct Hout as (a & b & err & k & _ & Hf). by rewrite Hw in Hf.
  - exfalso. revert Hloop. apply trust_loop_no_Panic.
    + intros p e' He'.
      destruct (same_core_lookup_inv _ _ _ _ Hcore He') as (e & He & _).
      destruct (Hheap _ _ He) as (hints & fe & _ & _ & Hst).
      assert (e' = registered fe e) as -> by congruence.
      rewrite registered_Subordinates. split.
      * destruct (graph_links_valid _ _ _ _ _ Hwf Hl He) as [_ Hv].
        eapply Forall_impl; [done|]. simpl. intros q [s Hs].
        destruct (Hheap _ _ Hs) as (hints' & fe' & _ & _ & Hst').
        exists (registered fe' s). split; [done|]. rewrite registered_FedEntity. eauto.
      * intros Hne. destruct (Subordinates e) as [|q subs] eqn:Hsubs; [done|].
        assert (q ∈ Subordinates e) as Hq by (rewrite Hsubs; left).
        apply (links_sub _ _ Hl _ _ q He) in Hq as (h & t & Hin & Hh & _).
        apply (edge_names_pairs _ _ _ _ Hn) in Hin as (edge & Hedge & Hnames).
        destruct (wf_config _ _ Hwf _ _ He) as (c & Hc & Hk & _).
        destruct (wf_node _ _ Hwf _ _ Hh) as (e0 & He0 & Hname).
        assert (e0 = e) as -> by congruence. rewrite Hname in Hc.
        rewrite registered_Storage by by apply (wf_fresh _ _ Hwf _ _ He).
        rewrite Hk, (Hheads _ _ _ _ Hedge Hnames Hc). eauto.
    + apply Forall_forall. intros p [e He]%(elem_of_visited config); [|done..].
      destruct (same_core_lookup _ _ _ _ Hcore He) as (e' & He' & _). eauto.
Qed.

End StartupSuccess.

(** ** The printed form of an entity *)

Section Printing.
Context `{W : Externals}.
Import GoStrings GoNet.

(** The two loops of [Entity.String]: the names of the entities behind
    the pointers, appended one by one. *)
Fixpoint names_loop (h : list Entity) (names : list string) (l : list ptr)
    : outcome (list string) :=
  match l with
  | [] => Ok names
  | p :: l' => e ← deref h p; names_loop h (names ++ [Name e]) l'
  end.

(** A slice of strings under the verb [%+v]: the elements between
    square brackets, separated by one space. *)
Fixpoint join_space (l : list string) : string :=
  match l with
  | [] => ""
  | [x] => x
  | x :: l' => x +:+ " " +:+ join_space l'
  end.

Definition fmt_strings (l : list string) : string := "[" +:+ join_space l +:+ "]".

(** The format of [Entity.String] applied to its five arguments; the
    identifier is printed by its [String] method. *)
Definition fmt_entity (superiors subordinates : list string) (name kind : string)
    (identifier : URL) : string :=
  "EntityNode{Superiors:" +:+ fmt_strings superiors +:+
  ", Subordinates:" +:+ fmt_strings subordinates +:+
  ", Name:" +:+ name +:+ ", Kind:" +:+ kind +:+
  ", Identifier:" +:+ URL_String identifier +:+ "}".

(** [Entity.String] *)
Definition Entity_String (h : list Entity) (e : Entity) : outcome string :=
  superiors ← names_loop h [] (Superiors e);
  subordinates ← names_loop h [] (Subordinates e);
  Ok (fmt_entity superiors subordinates (Name e) (Kind e) (Identifier e)).

Lemma names_loop_Ok h l : ∀ names,
  Forall (λ p, is_Some (h !! p)) l →
  names_loop h names l = Ok (names ++ omap (λ q, Name <$> h !! q) l).
Proof.
  induction l as [|p l IH]; intros names Hall; simpl.
  - by rewrite app_nil_r.
  - apply Forall_cons in Hall as [[e He] Hall]. unfold deref. rewrite He. simpl.
    rewrite (IH _ Hall). by rewrite <-app_assoc.
Qed.

Lemma names_loop_nil h l names :
  ¬ Forall (λ p, is_Some (h !! p)) l →
  names_loop h names l = Panic PanicNilDereference.
Proof.
  revert names. induction l as [|p l IH]; intros names Hall; simpl.
  - destruct Hall. constructor.
  - unfold deref. destruct (h !! p) as [e|] eqn:He; [|done]. simpl.
    apply IH. intros Hl. apply Hall. constructor; [by eauto|done].
Qed.

Lemma names_same_core g h l :
  same_core (heap g) h →
  omap (λ q, Name <$> h !! q) l = names_at g l.
Proof.
  intros Hcore. unfold names_at. apply omap_ext_elem. intros q _.
  specialize (Hcore q).
  destruct (h !! q) as [e'|], (heap g !! q) as [e|]; simpl in *; try done.
  unfold core in Hcore. f_equal. congruence.
Qed.

(** X10: printing a node of the graph does not fail, at any time after
    the build: the text lists the superiors of the node by name, one
    for each edge that has the node as its tail, in the order of the
    edges, then its subordinates in the same way, then its name and
    the kind and the parsed identifier of its declaration. *)
Theorem entity_string_lists_edges (config : Config) (order0 : list string) (g : Graph)
    (h : list Entity) :
  mustParseConfig config order0 = Ok g →
  same_core (heap g) h →
  ∃ pairs, edge_names <$> Edges config = Some <$> pairs ∧
    ∀ n p e, entityNodes g !! n = Some p → h !! p = Some e →
      ∃ c u, Entities config !! n = Some c ∧
        url_Parse (cfg_Identifier c) = inr u ∧
        Entity_String h e =
          Ok (fmt_entity (heads_of n pairs) (tails_of n pairs) n (cfg_Kind c) u).
Proof.
  intros (pairs & Hn & Hwf & Hl & Hx)%mustParseConfig_exact Hcore.
  exists pairs. split; [done|]. intros n p e' Hp He'.
  destruct (same_core_lookup_inv _ _ _ _ Hcore He') as (e & He & Hc).
  destruct (wf_node _ _ Hwf _ _ Hp) as (e0 & He0 & Hname).
  assert (e0 = e) as -> by congruence.
  destruct (wf_config _ _ Hwf _ _ He) as (c & Hcfg & Hkind & Hu).
  rewrite Hname in Hcfg. exists c, (Identifier e). split_and!; [done..|].
  assert (Superiors e' = Superiors e ∧ Subordinates e' = Subordinates e ∧
          Name e' = Name e ∧ Kind e' = Kind e ∧ Identifier e' = Identifier e)
    as (Hsup & Hsub & Hnm & Hkd & Hid) by (unfold core in Hc; split_and!; congruence).
  destruct (graph_links_valid _ _ _ _ _ Hwf Hl He) as [Hvsup Hvsub].
  assert (∀ l, Forall (λ a, is_Some (heap g !! a)) l → Forall (λ a, is_Some (h !! a)) l)
    as Hvalid.
  { intros l Hall. eapply Forall_impl; [done|]. simpl. intros a [s Hs].
    destruct (same_core_lookup _ _ _ _ Hcore Hs) as (s' & Hs' & _). eauto. }
  unfold Entity_String. rewrite Hsup, Hsub, Hnm, Hkd, Hid.
  rewrite (names_loop_Ok h _ [] (Hvalid _ Hvsup)), (names_same_core g h _ Hcore). simpl.
  rewrite (names_loop_Ok h _ [] (Hvalid _ Hvsub)), (names_same_core g h _ Hcore). simpl.
  rewrite (exact_sub _ _ Hx _ _ He), (exact_sup _ _ Hx _ _ He), Hname.
  destruct (names_at_sub_ptrs config g pairs n Hwf Hl) as [-> _].
  destruct (names_at_sup_ptrs config g pairs n Hwf Hl) as [-> _].
  by rewrite Hkind.
Qed.

End Printing.

(** ** White space around the names of an edge *)

Module GoStringsTrim.
Import GoStrings.

(** The first rune of a string as the two trimming loops look at it:
    the rest of the string when that rune is white space.  The tests on
    two and on three bytes are parameters, the loops differ in the
    order in which they hand over the bytes. *)
Definition leading (sp2 : ascii → ascii → bool) (sp3 : ascii → ascii → ascii → bool)
    (s : string) : option string :=
  match s with
  | EmptyString => None
  | String c1 r1 =>
      if asciiSpace c1 then Some r1
      else match r1 with
           | EmptyString => None
           | String c2 r2 =>
               if sp2 c1 c2 then Some r2
               else match r2 with
                    | EmptyString => None
                    | String c3 r3 => if sp3 c1 c2 c3 then Some r3 else None
                    end
           end
  end.

Definition fwd2 (c1 c2 : ascii) : bool := space2 (nat_of_ascii c1) (nat_of_ascii c2).
Definition fwd3 (c1 c2 c3 : ascii) : bool :=
  space3 (nat_of_ascii c1) (nat_of_ascii c2) (nat_of_ascii c3).
Definition bwd2 (c1 c2 : ascii) : bool := space2 (nat_of_ascii c2) (nat_of_ascii c1).
Definition bwd3 (c1 c2 c3 : ascii) : bool :=
  space3 (nat_of_ascii c3) (nat_of_ascii c2) (nat_of_ascii c1).

(** A string of ASCII white space *)
Fixpoint all_space (s : string) : bool :=
  match s with
  | EmptyString => true
  | String c r => asciiSpace c && all_space r
  end.

Lemma TrimLeftSpace_step s :
  TrimLeftSpace s =
    match leading fwd2 fwd3 s with Some r => TrimLeftSpace r | None => s end.
Proof.
  destruct s as [|c1 r1]; [done|]. simpl. destruct (asciiSpace c1); [done|].
  destruct r1 as [|c2 r2]; [done|]. unfold fwd2. destruct (space2 _ _); [done|].
  destruct r2 as [|c3 r3]; [done|]. unfold fwd3. by destruct (space3 _ _ _).
Qed.

Lemma TrimLeftSpace_rev_step s :
  TrimLeftSpace_rev s =
    match leading bwd2 bwd3 s with Some r => TrimLeftSpace_rev r | None => s end.
Proof.
  destruct s as [|c1 r1]; [done|]. simpl. destruct (asciiSpace c1); [done|].
  destruct r1 as [|c2 r2]; [done|]. unfold bwd2. destruct (space2 _ _); [done|].
  destruct r2 as [|c3 r3]; [done|]. unfold bwd3. by destruct (space3 _ _ _).
Qed.

Lemma string_length_ind (P : string → Prop) :
  (∀ s, (∀ t, String.length t < String.length s → P t) → P s) → ∀ s, P s.
Proof.
  intros Hstep s. remember (String.length s) as n eqn:Hn. revert s Hn.
  induction n as [n IH] using lt_wf_ind. intros s ->.
  apply Hstep. intros t Ht. by apply (IH _ Ht).
Qed.

Lemma length_append a b : String.length (a +:+ b) = String.length a + String.length b.
Proof.
  induction a as [|c a IH]; [done|].
  rewrite GoStringsFacts.append_cons. simpl. by rewrite IH.
Qed.

Section Trim.
Variables (sp2 : ascii → ascii → bool) (sp3 : ascii → ascii → ascii → bool).
Variable trim : string → string.
Hypothesis trim_step :
  ∀ s, trim s = match leading sp2 sp3 s with Some r => trim r | None => s end.

Lemma leading_Some s r :
  leading sp2 sp3 s = Some r → ∃ pre, s = pre +:+ r ∧ pre ≠ "".
Proof.
  destruct s as [|c1 r1]; [done|]. simpl.
  destruct (asciiSpace c1); [intros [= <-]; by exists (String c1 "")|].
  destruct r1 as [|c2 r2]; [done|].
  destruct (sp2 c1 c2); [intros [= <-]; by exists (String c1 (String c2 ""))|].
  destruct r2 as [|c3 r3]; [done|].
  destruct (sp3 c1 c2 c3); [|done].
  intros [= <-]. by exists (String c1 (String c2 (String c3 ""))).
Qed.

Lemma leading_shorter s r :
  leading sp2 sp3 s = Some r → String.length r < String.length s.
Proof.
  intros (pre & -> & Hpre)%leading_Some. rewrite length_append.
  destruct pre; [done|]. simpl. lia.
Qed.

(** What is trimmed is a prefix, and what is left has no white space
    in front. *)
Lemma trim_suffix s : ∃ pre, s = pre +:+ trim s.
Proof using trim_step.
  induction s as [s IH] using string_length_ind. rewrite trim_step.
  destruct (leading sp2 sp3 s) as [r|] eqn:Hr; [|by exists ""].
  destruct (leading_Some _ _ Hr) as (pre & -> & _).
  destruct (IH r (leading_shorter _ _ Hr)) as [pre' Hpre'].
  exists (pre +:+ pre'). by rewrite GoStringsFacts.append_assoc, <-Hpre'.
Qed.

Lemma trim_leading s : leading sp2 sp3 (trim s) = None.
Proof using trim_step.
  induction s as [s IH] using string_length_ind. rewrite trim_step.
  destruct (leading sp2 sp3 s) as [r|] eqn:Hr; [|done].
  apply IH. by apply leading_shorter.
Qed.

Lemma trim_fixed s : trim s = s ↔ leading sp2 sp3 s = None.
Proof using trim_step.
  split; [intros <-; apply trim_leading|]. intros Hs. by rewrite trim_step, Hs.
Qed.

Lemma trim_length s : String.length (trim s) ≤ String.length s.
Proof using trim_step.
  destruct (trim_suffix s) as [pre Hpre]. rewrite Hpre at 2. rewrite length_append. lia.
Qed.

Lemma leading_None_head c r : leading sp2 sp3 (String c r) = None → asciiSpace c = false.
Proof. simpl. by destruct (asciiSpace c). Qed.

(** A prefix of a string without white space in front has none either. *)
Lemma leading_prefix a b : leading sp2 sp3 (a +:+ b) = None → leading sp2 sp3 a = None.
Proof.
  destruct a as [|c1 [|c2 [|c3 a]]]; [done| | |].
  - rewrite GoStringsFacts.append_cons. intros Hc%leading_None_head. simpl. by rewrite Hc.
  - rewrite !GoStringsFacts.append_cons, GoStringsFacts.append_nil_l. simpl.
    destruct (asciiSpace c1); [done|]. by destruct (sp2 c1 c2).
  - rewrite !GoStringsFacts.append_cons. simpl.
    destruct (asciiSpace c1); [done|]. destruct (sp2 c1 c2); [done|].
    by destruct (sp3 c1 c2 c3).
Qed.

Lemma trim_pad l x : all_space l = true → trim (l +:+ x) = trim x.
Proof using trim_step.
  induction l as [|c l IH]; [done|]. simpl. intros [Hc Hl]%andb_prop.
  rewrite GoStringsFacts.append_cons, trim_step. simpl. rewrite Hc. by apply IH.
Qed.

Lemma trim_all_space l : all_space l = true → trim l = "".
Proof using trim_step.
  intros Hl. rewrite <-(GoStringsFacts.append_nil_r l), (trim_pad _ _ Hl).
  by rewrite trim_step.
Qed.

End Trim.

Lemma asciiSpace_low c : asciiSpace c = true → nat_of_ascii c < 128.
Proof.
  destruct c as [b0 b1 b2 b3 b4 b5 b6 []]; [by destruct b0, b1, b2, b3, b4, b5, b6|].
  intros _. destruct b0, b1, b2, b3, b4, b5, b6; vm_compute; lia.
Qed.

Lemma space2_low b1 b2 : b2 < 128 → space2 b1 b2 = false.
Proof.
  intros Hb. unfold space2.
  destruct (b2 =? 133) eqn:H1; [apply Nat.eqb_eq in H1; lia|].
  destruct (b2 =? 160) eqn:H2; [apply Nat.eqb_eq in H2; lia|].
  apply andb_false_r.
Qed.

Lemma space3_mid c1 d b3 :
  asciiSpace d = true → space3 (nat_of_ascii c1) (nat_of_ascii d) b3 = false.
Proof.
  intros Hd.
  destruct d as [[] [] [] [] [] [] [] []]; try discriminate Hd;
    destruct c1 as [[] [] [] [] [] [] [] []]; reflexivity.
Qed.

Lemma space3_last c1 c2 d :
  asciiSpace d = true →
  space3 (nat_of_ascii c1) (nat_of_ascii c2) (nat_of_ascii d) = false.
Proof.
  intros Hd.
  destruct d as [[] [] [] [] [] [] [] []]; try discriminate Hd;
    destruct c1 as [[] [] [] [] [] [] [] []]; try reflexivity;
    destruct c2 as [[] [] [] [] [] [] [] []]; reflexivity.
Qed.

(** White space after a string does not make its first rune one. *)
Lemma leading_app_pad h r :
  h ≠ "" → leading fwd2 fwd3 h = None → all_space r = true →
  leading fwd2 fwd3 (h +:+ r) = None.
Proof.
  intros Hne Hh Hr. destruct h as [|c1 [|c2 [|c3 h]]]; [done| | |].
  - rewrite GoStringsFacts.append_cons, GoStringsFacts.append_nil_l.
    apply leading_None_head in Hh. simpl. rewrite Hh.
    destruct r as [|d1 r]; [done|]. simpl in Hr. apply andb_prop in Hr as [Hd1 Hr].
    unfold fwd2. rewrite space2_low by by apply asciiSpace_low.
    destruct r as [|d2 r]; [done|]. unfold fwd3. by rewrite space3_mid.
  - rewrite !GoStringsFacts.append_cons, GoStringsFacts.append_nil_l.
    simpl in *. destruct (asciiSpace c1); [done|]. destruct (fwd2 c1 c2); [done|].
    destruct r as [|d1 r]; [done|]. simpl in Hr. apply andb_prop in Hr as [Hd1 Hr].
    unfold fwd3. by rewrite space3_last.
  - rewrite !GoStringsFacts.append_cons. simpl in *.
    destruct (asciiSpace c1); [done|]. destruct (fwd2 c1 c2); [done|].
    by destruct (fwd3 c1 c2 c3).
Qed.

Lemma rev_bytes_involutive s : rev_bytes (rev_bytes s) = s.
Proof.
  unfold rev_bytes.
  by rewrite list_ascii_of_string_of_list_ascii, rev_involutive,
    string_of_list_ascii_of_string.
Qed.

Lemma rev_bytes_cons c s : rev_bytes (String c s) = rev_bytes s +:+ String c "".
Proof.
  rewrite <-(rev_bytes_involutive (rev_bytes s +:+ String c "")).
  by rewrite GoStringsFacts.rev_bytes_snoc, rev_bytes_involutive.
Qed.

Lemma rev_bytes_app a b : rev_bytes (a +:+ b) = rev_bytes b +:+ rev_bytes a.
Proof.
  induction a as [|c a IH].
  - by rewrite GoStringsFacts.append_nil_l, GoStringsFacts.append_nil_r.
  - by rewrite GoStringsFacts.append_cons, !rev_bytes_cons, IH,
      GoStringsFacts.append_assoc.
Qed.

Lemma rev_bytes_length s : String.length (rev_bytes s) = String.length s.
Proof.
  induction s as [|c s IH]; [done|].
  rewrite rev_bytes_cons, length_append, IH. simpl. lia.
Qed.

Lemma all_space_app a b : all_space (a +:+ b) = all_space a && all_space b.
Proof.
  induction a as [|c a IH]; [done|].
  rewrite GoStringsFacts.append_cons. simpl. by rewrite IH, andb_assoc.
Qed.

Lemma all_space_rev s : all_space (rev_bytes s) = all_space s.
Proof.
  induction s as [|c s IH]; [done|].
  rewrite rev_bytes_cons, all_space_app, IH. simpl.
  by rewrite andb_true_r, andb_comm.
Qed.

Lemma append_length_eq pre s : s = pre +:+ s → pre = "".
Proof.
  intros Heq. apply (f_equal String.length) in Heq. rewrite length_append in Heq.
  destruct pre; [done|]. simpl in Heq. lia.
Qed.

(** A string is its own trimmed form exactly when neither its first nor
    its last rune is white space. *)
Lemma TrimSpace_fixed n :
  TrimSpace n = n ↔
  leading fwd2 fwd3 n = None ∧ leading bwd2 bwd3 (rev_bytes n) = None.
Proof.
  unfold TrimSpace, TrimRightSpace. split.
  - intros Hn.
    assert (TrimLeftSpace n = n) as Hleft.
    { destruct (trim_suffix fwd2 fwd3 TrimLeftSpace TrimLeftSpace_step n) as [pre Hpre].
      pose proof (trim_length bwd2 bwd3 TrimLeftSpace_rev TrimLeftSpace_rev_step
                    (rev_bytes (TrimLeftSpace n))) as Hlen.
      rewrite <-(rev_bytes_length (TrimLeftSpace_rev _)), Hn, rev_bytes_length in Hlen.
      rewrite Hpre, length_append in Hlen at 1.
      destruct pre; [done|]. simpl in Hlen. lia. }
    rewrite Hleft in Hn. split.
    + by apply (trim_fixed fwd2 fwd3 TrimLeftSpace TrimLeftSpace_step).
    + apply (trim_fixed bwd2 bwd3 TrimLeftSpace_rev TrimLeftSpace_rev_step).
      rewrite <-Hn at 2. by rewrite rev_bytes_involutive.
  - intros [Hl Hr].
    apply (trim_fixed fwd2 fwd3 TrimLeftSpace TrimLeftSpace_step) in Hl.
    apply (trim_fixed bwd2 bwd3 TrimLeftSpace_rev TrimLeftSpace_rev_step) in Hr.
    by rewrite Hl, Hr, rev_bytes_involutive.
Qed.

(** Trimming leaves nothing to trim. *)
Lemma TrimSpace_trimmed s : TrimSpace (TrimSpace s) = TrimSpace s.
Proof.
  apply TrimSpace_fixed. unfold TrimSpace, TrimRightSpace. split.
  - destruct (trim_suffix bwd2 bwd3 TrimLeftSpace_rev TrimLeftSpace_rev_step
                (rev_bytes (TrimLeftSpace s))) as [pre Hpre].
    apply (f_equal rev_bytes) in Hpre.
    rewrite rev_bytes_involutive, rev_bytes_app in Hpre.
    apply (leading_prefix fwd2 fwd3 _ (rev_bytes pre)). rewrite <-Hpre.
    apply (trim_leading fwd2 fwd3 TrimLeftSpace TrimLeftSpace_step).
  - rewrite rev_bytes_involutive.
    apply (trim_leading bwd2 bwd3 TrimLeftSpace_rev TrimLeftSpace_rev_step).
Qed.

Lemma HasPrefix_byte s c :
  HasPrefix s (String c "") = true ↔ ∃ r, s = String c r.
Proof.
  destruct s as [|d s]; simpl.
  - split; [done|]. by intros [r ?].
  - case_decide.
    + subst. split; [by eauto|]. intros _. by destruct s.
    + split; [done|]. intros [r [= ? ?]]. congruence.
Qed.

(** A trimmed string neither begins nor ends with an ASCII white-space
    byte. *)
Lemma TrimSpace_no_space n c :
  TrimSpace n = n → asciiSpace c = true →
  HasPrefix n (String c "") = false ∧ HasSuffix n (String c "") = false.
Proof.
  intros [Hl Hr]%TrimSpace_fixed Hc. unfold HasSuffix.
  change (rev_bytes (String c "")) with (String c ""). split.
  - destruct (HasPrefix n (String c "")) eqn:Hp; [|done].
    apply HasPrefix_byte in Hp as [r ->]. apply leading_None_head in Hl. congruence.
  - destruct (HasPrefix (rev_bytes n) (String c "")) eqn:Hp; [|done].
    apply HasPrefix_byte in Hp as [r Heq]. rewrite Heq in Hr.
    apply leading_None_head in Hr. congruence.
Qed.

(** ASCII white space on either side of a trimmed string is trimmed
    away, and nothing else. *)
Lemma TrimSpace_pad l h r :
  all_space l = true → all_space r = true → TrimSpace h = h →
  TrimSpace (l +:+ h +:+ r) = h.
Proof.
  intros Hl Hr Hh. pose proof Hh as [Hfwd Hbwd]%TrimSpace_fixed.
  unfold TrimSpace, TrimRightSpace.
  rewrite (trim_pad fwd2 fwd3 TrimLeftSpace TrimLeftSpace_step l _ Hl).
  destruct (decide (h = "")) as [->|Hne].
  - rewrite GoStringsFacts.append_nil_l.
    by rewrite (trim_all_space fwd2 fwd3 TrimLeftSpace TrimLeftSpace_step r Hr).
  - pose proof (leading_app_pad h r Hne Hfwd Hr) as Happ.
    apply (trim_fixed fwd2 fwd3 TrimLeftSpace TrimLeftSpace_step) in Happ.
    rewrite Happ, rev_bytes_app.
    rewrite (trim_pad bwd2 bwd3 TrimLeftSpace_rev TrimLeftSpace_rev_step)
      by by rewrite all_space_rev.
    apply (trim_fixed bwd2 bwd3 TrimLeftSpace_rev TrimLeftSpace_rev_step) in Hbwd.
    by rewrite Hbwd, rev_bytes_involutive.
Qed.

Lemma asciiSpace_not_dash c : asciiSpace c = true → c ≠ "-"%char.
Proof. by intros Hc ->. Qed.

Lemma Index_pad_l l x :
  all_space l = true → Index x "->" = None → Index (l +:+ x) "->" = None.
Proof.
  intros Hl Hx. induction l as [|c l IH]; [done|].
  simpl in Hl. apply andb_prop in Hl as [Hc Hl].
  rewrite GoStringsFacts.append_cons. apply GoStringsFacts.Index_cons_None.
  split; [|by apply IH]. rewrite GoStringsFacts.HasPrefix_cons.
  rewrite decide_False; [done|]. intros Heq. by apply (asciiSpace_not_dash c).
Qed.

Lemma Index_pad_r h r :
  Index h "->" = None → all_space r = true → Index (h +:+ r) "->" = None.
Proof.
  intros Hh Hr. induction h as [|c h IH].
  - rewrite GoStringsFacts.append_nil_l, <-(GoStringsFacts.append_nil_r r).
    by apply Index_pad_l.
  - apply GoStringsFacts.Index_cons_None in Hh as [Hp Hh].
    rewrite GoStringsFacts.append_cons. apply GoStringsFacts.Index_cons_None.
    split; [|by apply IH]. rewrite GoStringsFacts.HasPrefix_cons in *.
    case_decide; [|done]. destruct h as [|d h].
    + rewrite GoStringsFacts.append_nil_l. destruct r as [|d r]; [done|].
      simpl in Hr. apply andb_prop in Hr as [Hd _].
      rewrite GoStringsFacts.HasPrefix_cons. rewrite decide_False; [done|].
      intros <-. done.
    + rewrite GoStringsFacts.append_cons, GoStringsFacts.HasPrefix_cons in *.
      by case_decide.
Qed.

End GoStringsTrim.

Section EdgeSyntax.
Context `{W : Externals}.
Import GoStrings GoNet GoStringsTrim.

Lemma edge_names_trimmed edge h t :
  edge_names edge = Some (h, t) → TrimSpace h = h ∧ TrimSpace t = t.
Proof.
  unfold edge_names. destruct (Split edge "->") as [|p [|q ps]]; try done.
  intros [= <- <-]. split; apply TrimSpace_trimmed.
Qed.

Lemma edge_names_arrow a b :
  Index a "->" = None → Index b "->" = None →
  edge_names (a +:+ "->" +:+ b) = Some (TrimSpace a, TrimSpace b).
Proof.
  intros Ha Hb. unfold edge_names.
  by rewrite (GoStringsFacts.Split_arrow a b Ha), (GoStringsFacts.Split_no_sep b "->" Hb).
Qed.

(** X11: the names of the nodes are trimmed pieces of edge strings, so
    no node name begins or ends with white space: trimming it again
    changes nothing.  A declaration whose key has white space at
    either end cannot be referred to by any edge and is never a
    node. *)
Theorem node_names_are_trimmed (config : Config) (order0 : list string) (g : Graph) :
  mustParseConfig config order0 = Ok g →
  (∀ n p, entityNodes g !! n = Some p →
     TrimSpace n = n ∧
     ∀ c, asciiSpace c = true →
       HasPrefix n (String c "") = false ∧ HasSuffix n (String c "") = false) ∧
  (∀ k, TrimSpace k ≠ k → entityNodes g !! k = None).
Proof.
  intros Hbuild.
  destruct (mustParseConfig_spec _ _ _ Hbuild) as (pairs & Hn & Hwf & Hl & Hdom).
  assert (∀ n p, entityNodes g !! n = Some p → TrimSpace n = n) as Htrim.
  { intros n p Hp. apply elem_of_dom_2 in Hp. rewrite Hdom in Hp.
    apply elem_of_referenced in Hp as (e & h & t & _ & Hnames & Hor).
    destruct (edge_names_trimmed _ _ _ Hnames) as [Hh Ht]. by destruct Hor as [->| ->]. }
  split.
  - intros n p Hp. split; [by eapply Htrim|].
    intros c Hc. apply TrimSpace_no_space; [by eapply Htrim|done].
  - intros k Hk. destruct (entityNodes g !! k) as [p|] eqn:Hp; [|done].
    destruct Hk. by eapply Htrim.
Qed.

(** X12: ASCII white space around the two names of an edge is
    ignored.  An edge string made of two trimmed names without the
    separator in them, with any ASCII white space before and after
    each, is read as the edge between these two names, and the round
    of the loop does what it does for the plain edge string. *)
Theorem edge_padding_ignored (config : Config) (g : Graph) (index : nat)
    (l1 h r1 l2 t r2 : string) :
  all_space l1 = true → all_space r1 = true →
  all_space l2 = true → all_space r2 = true →
  TrimSpace h = h → TrimSpace t = t →
  Index h "->" = None → Index t "->" = None →
  edge_names (l1 +:+ h +:+ r1 +:+ "->" +:+ l2 +:+ t +:+ r2) = Some (h, t) ∧
  edge_step config g index (l1 +:+ h +:+ r1 +:+ "->" +:+ l2 +:+ t +:+ r2) =
    edge_step config g index (h +:+ "->" +:+ t).
Proof.
  intros Hl1 Hr1 Hl2 Hr2 Hh Ht Hih Hit.
  assert (edge_names (l1 +:+ h +:+ r1 +:+ "->" +:+ l2 +:+ t +:+ r2) = Some (h, t))
    as Hpadded.
  { rewrite <-(GoStringsFacts.append_assoc h r1), <-(GoStringsFacts.append_assoc l1 (h +:+ r1)).
    rewrite edge_names_arrow.
    - by rewrite !TrimSpace_pad.
    - by apply Index_pad_l, Index_pad_r.
    - by apply Index_pad_l, Index_pad_r. }
  split; [done|]. apply edge_step_by_names; [|by rewrite Hpadded].
  by rewrite Hpadded, (edge_names_arrow h t Hih Hit), Hh, Ht.
Qed.

End EdgeSyntax.

(** ** Declarations that no edge refers to *)

Section Unreferenced.
Context `{W : Externals}.

Lemma edge_step_declarations config1 config2 g index edge :
  (∀ h t, edge_names edge = Some (h, t) →
     Entities config1 !! h = Entities config2 !! h ∧
     Entities config1 !! t = Entities config2 !! t) →
  edge_step config1 g index edge = edge_step config2 g index edge.
Proof.
  intros Hsame. destruct (edge_names edge) as [[h t]|] eqn:Hnames.
  - rewrite !(edge_step_names _ _ _ _ _ _ Hnames).
    by destruct (Hsame h t eq_refl) as [-> ->].
  - by rewrite !edge_step_malformed.
Qed.

Lemma edge_loop_declarations config1 config2 edges : ∀ g index,
  (∀ n, n ∈ referenced edges → Entities config1 !! n = Entities config2 !! n) →
  edge_loop config1 g index edges = edge_loop config2 g index edges.
Proof.
  induction edges as [|edge edges IH]; intros g index Hsame; simpl; [done|].
  rewrite (edge_step_declarations config1 config2).
  - destruct (edge_step config2 g index edge) as [g'| |]; simpl; [|done..].
    apply IH. intros n Hn. apply Hsame. simpl. set_solver.
  - intros h t Hnames. split; apply Hsame; simpl; rewrite Hnames; set_solver.
Qed.

(** X13: a declaration that no edge refers to is checked for its kind
    and identifier and has no other influence.  Two configurations
    with the same edges and the same declarations for the names the
    edges refer to, all of whose declarations pass the check, have the
    same outcome: the same graph with the same keys, or the same
    error. *)
Theorem unreferenced_declarations_ignored (config1 config2 : Config)
    (order1 order2 : list string) :
  range_order (Entities config1) order1 →
  range_order (Entities config2) order2 →
  (∀ k c, Entities config1 !! k = Some c → entity_invalid c = false) →
  (∀ k c, Entities config2 !! k = Some c → entity_invalid c = false) →
  Edges config1 = Edges config2 →
  (∀ n, n ∈ referenced (Edges config1) → Entities config1 !! n = Entities config2 !! n) →
  mustParseConfig config1 order1 = mustParseConfig config2 order2.
Proof.
  intros Hord1 Hord2 Hv1 Hv2 Hedges Hsame. unfold mustParseConfig.
  rewrite (declarations_checked _ _ Hord1 Hv1), (declarations_checked _ _ Hord2 Hv2).
  simpl. rewrite <-Hedges. by apply edge_loop_declarations.
Qed.

End Unreferenced.

(** ** The order in which the maps are visited *)

Section VisitingOrder.
Context `{W : Externals}.
Import GoStrings GoNet.

(** What the second loop needs of an entity: no subordinates, or a
    storage and, for each subordinate, a handler to take the key set
    from and a write that reports no error. *)
Definition can_write (h : list Entity) (e : Entity) : Prop :=
  Forall (λ q, ∃ s, h !! q = Some s ∧ is_Some (FedEntity s) ∧
               Write_err (Name e) (trust_key s) = None) (Subordinates e) ∧
  (Subordinates e ≠ [] → is_Some (Storage e)).

Lemma same_frame_sym h h' : same_frame h h' → same_frame h' h.
Proof. intros Hf p. by rewrite Hf. Qed.

Lemma can_write_frame h h' e :
  same_frame h h' → can_write h e → can_write h' e.
Proof.
  intros Hf [Hall Hdb]. split; [|done].
  eapply Forall_impl; [done|]. simpl. intros q (s & Hs & Hfe & Hw).
  destruct (same_frame_lookup _ _ _ _ Hf Hs) as (s' & Hs' & Hfr).
  destruct (frame_eq _ _ Hfr) as (_ & Hfed & Hkey & _).
  exists s'. by rewrite Hfed, Hkey.
Qed.

Lemma subordinates_loop_progress parent subs : ∀ h e,
  h !! parent = Some e → is_Some (Storage e) →
  Forall (λ q, ∃ s, h !! q = Some s ∧ is_Some (FedEntity s) ∧
               Write_err (Name e) (trust_key s) = None) subs →
  ∃ h', subordinates_loop h parent subs = Ok h'.
Proof.
  induction subs as [|sub subs IH]; intros h e He [db Hdb] Hall; simpl; [by eauto|].
  apply Forall_cons in Hall as [(s & Hs & [fe Hfe] & Hw) Hall].
  unfold establish_trust, deref. rewrite He, Hs. simpl. rewrite Hfe, Hdb.
  unfold trust_key in Hw. rewrite Hw. simpl.
  set (db' := <[URL_String (Identifier s) := _]> db).
  apply (IH _ (set_Storage (Some db') e)).
  - by rewrite list_lookup_alter_eq, He.
  - simpl. eauto.
  - eapply Forall_impl; [done|]. simpl. intros q (s0 & Hs0 & Hfe0 & Hw0).
    destruct (same_frame_lookup _ _ _ _ (same_frame_alter (Some db') parent h) Hs0)
      as (s' & Hs' & Hfr).
    destruct (frame_eq _ _ Hfr) as (_ & Hfed & Hkey & _).
    exists s'. by rewrite Hfed, Hkey.
Qed.

Lemma subordinates_loop_granted parent subs : ∀ h h' e,
  subordinates_loop h parent subs = Ok h' → h !! parent = Some e →
  Forall (λ q, ∃ s, h !! q = Some s ∧ is_Some (FedEntity s) ∧
               Write_err (Name e) (trust_key s) = None) subs ∧
  (subs ≠ [] → is_Some (Storage e)).
Proof.
  induction subs as [|sub subs IH]; intros h h' e Hloop He; simpl in Hloop; [done|].
  destruct (establish_trust h parent sub) as [h1| |] eqn:Hstep; [|done..]. simpl in Hloop.
  destruct (establish_trust_Ok _ _ _ _ Hstep)
    as (e0 & s & info & db & He0 & Hs & Hinfo & Hdb & Hw & ->).
  assert (e0 = e) as -> by congruence.
  split; [|by eauto]. apply Forall_cons. split.
  - exists s. split_and!; [done| |done]. unfold trust_record in Hinfo.
    by destruct (FedEntity s).
  - destruct (IH _ _ (set_Storage (Some (write_record h db sub)) e) Hloop) as [Hall _].
    { by rewrite list_lookup_alter_eq, He. }
    eapply Forall_impl; [done|]. simpl. intros q (s' & Hs' & Hfe' & Hw').
    destruct (same_frame_lookup_inv _ _ _ _ (same_frame_alter _ parent h) Hs')
      as (s0 & Hs0 & Hfr).
    destruct (frame_eq _ _ Hfr) as (_ & Hfed & Hkey & _).
    exists s0. by rewrite <-Hfed, <-Hkey.
Qed.

Lemma subordinates_loop_elsewhere parent subs h h' q :
  subordinates_loop h parent subs = Ok h' → q ≠ parent → h' !! q = h !! q.
Proof.
  intros [[_ ->]|(e & db & _ & _ & _ & ->)]%subordinates_loop_inv Hq; [done|].
  by apply list_lookup_alter_ne.
Qed.

Lemma trust_loop_progress ps : ∀ h,
  NoDup ps →
  (∀ p, p ∈ ps → ∃ e, h !! p = Some e ∧ can_write h e) →
  ∃ h', trust_loop h ps = Ok h'.
Proof.
  induction ps as [|p ps IH]; intros h Hnd Hin; simpl; [by eauto|].
  apply NoDup_cons in Hnd as [Hp Hnd].
  destruct (Hin p) as (e & He & Hall & Hdb); [by left|].
  unfold deref. rewrite He. simpl.
  assert (∃ h1, subordinates_loop h p (Subordinates e) = Ok h1) as [h1 Hsub].
  { destruct (Subordinates e) as [|q subs] eqn:Hsubs; [simpl; by eauto|].
    rewrite <-Hsubs. apply (subordinates_loop_progress _ _ _ e He); [|by rewrite Hsubs].
    by apply Hdb. }
  rewrite Hsub. simpl. apply IH; [done|].
  intros q Hq. destruct (Hin q) as (s & Hs & Hcan); [by right|].
  exists s. split.
  - rewrite (subordinates_loop_elsewhere _ _ _ _ q Hsub); [done|]. intros ->. done.
  - apply (can_write_frame h); [|done]. by eapply subordinates_loop_frame.
Qed.

Lemma trust_loop_granted ps : ∀ h h' q e,
  NoDup ps → trust_loop h ps = Ok h' → q ∈ ps → h !! q = Some e → can_write h e.
Proof.
  induction ps as [|p ps IH]; intros h h' q e Hnd Hloop Hq He; simpl in Hloop.
  { by apply elem_of_nil in Hq. }
  apply NoDup_cons in Hnd as [Hp Hnd]. unfold deref in Hloop.
  destruct (h !! p) as [e0|] eqn:He0; [|done]. simpl in Hloop.
  destruct (subordinates_loop h p (Subordinates e0)) as [h1| |] eqn:Hsub; [|done..].
  simpl in Hloop. apply elem_of_cons in Hq as [->|Hq].
  - assert (e0 = e) as -> by congruence. by eapply subordinates_loop_granted.
  - apply (can_write_frame h1).
    { apply same_frame_sym. by eapply subordinates_loop_frame. }
    apply (IH h1 h' q e Hnd Hloop Hq).
    rewrite (subordinates_loop_elsewhere _ _ _ _ q Hsub); [done|]. intros ->. done.
Qed.

Lemma set_Storage_same e db : Storage e = Some db → set_Storage (Some db) e = e.
Proof. destruct e. simpl. by intros ->. Qed.

(** The heap the second loop leaves does not depend on the order in
    which it visits the entities. *)
Lemma trust_loop_order h ps ps' hf hf' :
  NoDup ps → NoDup ps' → (∀ p, p ∈ ps ↔ p ∈ ps') →
  trust_loop h ps = Ok hf → trust_loop h ps' = Ok hf' → hf' = hf.
Proof.
  intros Hnd Hnd' Hsame Hloop Hloop'.
  destruct (trust_loop_inv _ _ _ Hnd Hloop) as (Hf & Hout & Hin).
  destruct (trust_loop_inv _ _ _ Hnd' Hloop') as (Hf' & Hout' & Hin').
  apply list_eq. intros p.
  destruct (h !! p) as [e|] eqn:He.
  - destruct (decide (p ∈ ps)) as [Hp|Hp].
    + destruct (Hin _ _ He Hp) as [[Hnil ->]|(db & Hdb & _ & ->)];
        (destruct (Hin' _ _ He) as [[Hnil' ->]|(db' & Hdb' & _ & ->)];
           [by apply Hsame|..]); try done.
      * rewrite Hnil. simpl. by rewrite set_Storage_same.
      * rewrite Hnil'. simpl. by rewrite set_Storage_same.
      * congruence.
    + rewrite (Hout _ _ He Hp). apply Hout'; [done|]. by rewrite <-Hsame.
  - pose proof (Hf p) as H1. pose proof (Hf' p) as H2. rewrite He in H1, H2.
    destruct (hf !! p), (hf' !! p); done.
Qed.

(** X14: the maps of the program are visited in an order that changes
    from run to run.  When the program gets to listen with one choice
    of the three orders it does so with any other, with the same
    entities, handlers and storages, and the same patterns in the
    dispatch table. *)
Theorem visiting_order_irrelevant (config : Config)
    (order0 order1 order2 order0' order1' order2' : list string)
    (g : Graph) (final : Process) :
  range_order (Entities config) order0 → range_order (Entities config) order0' →
  mustParseConfig config order0 = Ok g →
  range_order (entityNodes g) order1 → range_order (entityNodes g) order2 →
  range_order (entityNodes g) order1' → range_order (entityNodes g) order2' →
  main config order0 order1 order2 = Ok final →
  ∃ final', main config order0' order1' order2' = Ok final' ∧
    entities_heap final' = entities_heap final ∧
    mux final' ≡ₚ mux final.
Proof.
  intros Hord0 Hord0' Hbuild Hord1 Hord2 Hord1' Hord2' Hmain.
  destruct (mustParseConfig_spec _ _ _ Hbuild) as (pairs & Hn & Hwf & Hl & Hdom).
  assert (mustParseConfig config order0' = Ok g) as Hbuild'.
  { unfold mustParseConfig in *.
    destruct (check_entities (range_map (Entities config) order0)) as [[]| |] eqn:Hchk;
      [|done..].
    by rewrite (check_entities_order _ _ _ Hord0 Hord0' Hchk). }
  rewrite (main_unfold _ _ _ _ _ Hbuild) in Hmain.
  rewrite (main_unfold _ _ _ _ _ Hbuild').
  destruct (register_loop _ (visited g order1)) as [st| |] eqn:Hreg; [|done..].
  simpl in Hmain.
  destruct (trust_loop _ (visited g order2)) as [hf| |] eqn:Hloop; [|done..].
  simpl in Hmain. injection Hmain as <-. simpl.
  destruct (registration_spec _ _ _ _ _ Hwf Hl Hord1 Hreg)
    as (Hcore & _ & Hndm & Hmux & Hheap).
  (* the first loop, in the other order *)
  destruct (register_loop_progress (visited g order1')
              {| entities_heap := heap g; mux := [] |}) as [st' Hreg']; simpl.
  { by apply (visited_NoDup config). }
  { intros p [e He]%(elem_of_visited config); [|done..].
    exists e. split_and!; [done| |apply not_elem_of_nil].
    apply (register_loop_granted _ _ _ p e Hreg); [|done].
    apply (elem_of_visited config); eauto. }
  { intros p q e s _ _ Hne He Hs Hpat. apply Hne.
    by apply (registered_pattern_inj _ _ _ _ _ p q e s Hwf Hl Hord1 Hreg He Hs). }
  rewrite Hreg'. simpl.
  destruct (registration_spec _ _ _ _ _ Hwf Hl Hord1' Hreg')
    as (Hcore' & _ & Hndm' & Hmux' & Hheap').
  assert (entities_heap st' = entities_heap st) as Hsame.
  { apply list_eq. intros p. destruct (heap g !! p) as [e|] eqn:He.
    - destruct (Hheap _ _ He) as (hints & fe & Hh & Hfe & ->).
      destruct (Hheap' _ _ He) as (hints' & fe' & Hh' & Hfe' & ->).
      congruence.
    - pose proof (Hcore p) as H1. pose proof (Hcore' p) as H2. rewrite He in H1, H2.
      destruct (entities_heap st !! p), (entities_heap st' !! p); done. }
  rewrite Hsame.
  (* the second loop, in the other order *)
  pose proof (visited_NoDup _ _ _ Hwf Hord2) as Hnd2.
  pose proof (visited_NoDup _ _ _ Hwf Hord2') as Hnd2'.
  assert (∀ p, p ∈ visited g order2 ↔ p ∈ visited g order2') as Hvis.
  { intros p. by rewrite !(elem_of_visited config). }
  destruct (trust_loop_progress (visited g order2') (entities_heap st) Hnd2')
    as [hf' Hloop'].
  { intros p Hp. apply Hvis in Hp as Hp2.
    apply (elem_of_visited config) in Hp as [e He]; [|done..].
    destruct (same_core_lookup _ _ _ _ Hcore He) as (e' & He' & _).
    exists e'. split; [done|]. by apply (trust_loop_granted _ _ _ p e' Hnd2 Hloop). }
  rewrite Hloop'. simpl. eexists. split; [done|]. simpl. split.
  - by apply (trust_loop_order (entities_heap st) (visited g order2) (visited g order2')).
  - apply NoDup_Permutation.
    + by eapply NoDup_fmap_1.
    + by eapply NoDup_fmap_1.
    + intros [pat q]. by rewrite Hmux, Hmux'.
Qed.

End VisitingOrder.

(** ** A key generation that fails *)

Section KeyFailure.
Context `{W : Externals}.
Import GoStrings GoNet.

Lemma lookupOrCreate_until config g name c k err :
  graph_wf config g → Entities config !! name = Some c →
  url_fails config name = false →
  (∀ j, j < k → ∃ sk, GenerateKey j = inr sk) → GenerateKey k = inl err →
  keygen_calls g ≤ k →
  lookupOrCreate g name c = Fatal (FatalGenerateKey err) ∨
  ∃ g' p, lookupOrCreate g name c = Ok (g', p) ∧ keygen_calls g' ≤ k.
Proof.
  intros Hwf Hc Hu Hbefore Hk Hcalls. unfold lookupOrCreate, mustGenerateECDSAPrivateKey.
  destruct (entityNodes g !! name) as [p|]; [right; by eauto|].
  unfold url_fails in Hu. rewrite Hc in Hu.
  destruct (url_Parse (cfg_Identifier c)) as [|u]; [done|].
  destruct (decide (keygen_calls g = k)) as [->|Hne].
  - left. by rewrite Hk.
  - right. destruct (Hbefore (keygen_calls g)) as [sk ->]; [lia|]. simpl.
    do 2 eexists. split; [done|]. simpl. lia.
Qed.

Lemma edge_loop_key_failure config edges : ∀ g index k err,
  graph_wf config g →
  Forall (λ e, edge_good config e = true) edges →
  (∀ j, j < k → ∃ sk, GenerateKey j = inr sk) → GenerateKey k = inl err →
  keygen_calls g ≤ k → k < size (dom (entityNodes g) ∪ referenced edges) →
  edge_loop config g index edges = Fatal (FatalGenerateKey err).
Proof.
  induction edges as [|edge edges IH]; intros g index k err Hwf Hgood Hbefore Hk Hcalls Hsize.
  { simpl in Hsize. rewrite (right_id_L ∅ (∪)), <-(wf_calls_size _ _ Hwf) in Hsize. lia. }
  apply Forall_cons in Hgood as [Hedge Hgood]. simpl in *.
  unfold edge_good, edge_malformed, edge_undefined, edge_invalid_url in Hedge.
  destruct (edge_names edge) as [[h t]|] eqn:Hnames;
    [|by rewrite bool_decide_eq_true_2 in Hedge].
  rewrite (edge_step_names _ _ _ _ _ _ Hnames).
  destruct (Entities config !! h) as [hc|] eqn:Hhc;
    [|by rewrite (bool_decide_eq_true_2 (None = None)), andb_false_r in Hedge].
  destruct (Entities config !! t) as [tc|] eqn:Htc;
    [|by rewrite (bool_decide_eq_true_2 (None = None)), orb_true_r, andb_false_r in Hedge].
  apply andb_prop in Hedge as [_ [Huh Hut]%negb_true_iff%orb_false_elim].
  destruct (lookupOrCreate_until config g h hc k err Hwf Hhc Huh Hbefore Hk Hcalls)
    as [->|(g1 & hp & H1 & Hcalls1)]; [done|].
  rewrite H1. simpl.
  pose proof (lookupOrCreate_wf _ _ _ _ _ _ Hwf Hhc H1) as Hwf1.
  pose proof (lookupOrCreate_dom _ _ _ _ _ H1) as Hd1.
  destruct (lookupOrCreate_until config g1 t tc k err Hwf1 Htc Hut Hbefore Hk Hcalls1)
    as [->|(g2 & tp & H2 & Hcalls2)]; [done|].
  rewrite H2. simpl.
  pose proof (lookupOrCreate_wf _ _ _ _ _ _ Hwf1 Htc H2) as Hwf2.
  pose proof (lookupOrCreate_dom _ _ _ _ _ H2) as Hd2.
  apply (IH _ _ k); [by apply link_wf|done..|].
  simpl. replace (dom (entityNodes g2) ∪ referenced edges)
    with (dom (entityNodes g) ∪ ({[h; t]} ∪ referenced edges)); [done|].
  rewrite Hd2, Hd1. set_solver.
Qed.

(** X15: when the declarations and the edges are good and the key
    generation fails at one of the draws the edges ask for, after
    succeeding at the earlier ones, the build stops with the error of
    that draw. *)
Theorem key_generation_failure_is_fatal (config : Config) (order0 : list string)
    (k : nat) (err : string) :
  range_order (Entities config) order0 →
  (∀ n c, Entities config !! n = Some c → entity_invalid c = false) →
  Forall (λ e, edge_good config e = true) (Edges config) →
  (∀ j, j < k → ∃ sk, GenerateKey j = inr sk) →
  GenerateKey k = inl err →
  k < size (referenced (Edges config)) →
  mustParseConfig config order0 = Fatal (FatalGenerateKey err).
Proof.
  intros Hord Hvalid Hgood Hbefore Hk Hsize. unfold mustParseConfig.
  rewrite (declarations_checked _ _ Hord Hvalid). simpl.
  apply (edge_loop_key_failure _ _ _ _ k); [apply empty_graph_wf|done..|simpl; lia|].
  simpl. by rewrite dom_empty_L, (left_id_L ∅ (∪)).
Qed.

End KeyFailure.

(** ** Every way in which the program stops before it listens *)

Section Stops.
Context `{W : Externals}.
Import GoStrings GoNet.









End Stops.

(** * Further runs in the sample world *)

Module MoreRuns.
Import GoStrings GoNet Sample.

(** Two entities on one host name, on different ports. *)
Definition ports_config : Config := {|
  Entities := list_to_map
    [("TA", {| cfg_Kind := "trust-anchor"; cfg_Identifier := "https://fed.example.com:8443" |});
     ("OP", {| cfg_Kind := "leaf"; cfg_Identifier := "https://fed.example.com:9443" |})];
  Edges := ["TA -> OP"];
|}.

Definition ports_graph : Graph (W := world) :=
  Eval vm_compute in
    match mustParseConfig (W := world) ports_config ["TA"; "OP"] with
    | Ok g => g
    | _ => empty_graph
    end.

Lemma ports_build :
  mustParseConfig (W := world) ports_config ["TA"; "OP"] = Ok ports_graph.
Proof. vm_compute. reflexivity. Qed.

Lemma ports_range_order : range_order (entityNodes ports_graph) ["TA"; "OP"].
Proof. split; [by apply (bool_decide_unpack _)|]. by vm_compute. Qed.

(** A good edge, then an edge to an entity that is not declared. *)
Definition late_error_config : Config := {|
  Entities := list_to_map
    [("TA", {| cfg_Kind := "trust-anchor"; cfg_Identifier := "https://ta.example.com" |});
     ("IM", {| cfg_Kind := "intermediate"; cfg_Identifier := "https://im.example.com" |})];
  Edges := ["TA -> IM"; "IM -> OP"; "TA"];
|}.

Lemma late_error_entities_order : range_order (Entities late_error_config) ["TA"; "IM"].
Proof. split; [by apply (bool_decide_unpack _)|]. by vm_compute. Qed.

Lemma late_error_declarations k c :
  Entities late_error_config !! k = Some c → entity_invalid c = false.
Proof.
  assert (map_Forall (λ _ c, entity_invalid c = false) (Entities late_error_config)) as Hall.
  { apply (bool_decide_unpack _). by vm_compute. }
  apply Hall.
Qed.

(** A declaration without kind, and one without identifier after it. *)
Definition missing_kind_config : Config := {|
  Entities := list_to_map
    [("TA", {| cfg_Kind := "trust-anchor"; cfg_Identifier := "https://ta.example.com" |});
     ("IM", {| cfg_Kind := ""; cfg_Identifier := "https://im.example.com" |});
     ("OP", {| cfg_Kind := "leaf"; cfg_Identifier := "" |})];
  Edges := ["TA -> XX"; "TA"];
|}.

Lemma missing_kind_entities_order :
  range_order (Entities missing_kind_config) ["TA"; "IM"; "OP"].
Proof. split; [by apply (bool_decide_unpack _)|]. by vm_compute. Qed.

(** The example configuration with one more declaration, which no edge
    refers to. *)
Definition example_config_extended : Config := {|
  Entities := <["RP-X" := {| cfg_Kind := "leaf"; cfg_Identifier := "https://rp-x.example.com" |}]>
                (Entities example_config);
  Edges := Edges example_config;
|}.

Lemma example_extended_order :
  range_order (Entities example_config_extended) ["TA-A"; "IM-A"; "OP-A"; "RP-X"].
Proof. split; [by apply (bool_decide_unpack _)|]. by vm_compute. Qed.

Lemma example_declarations k c :
  Entities example_config !! k = Some c → entity_invalid c = false.
Proof.
  assert (map_Forall (λ _ c, entity_invalid c = false) (Entities example_config)) as Hall.
  { apply (bool_decide_unpack _). by vm_compute. }
  apply Hall.
Qed.

Lemma example_extended_declarations k c :
  Entities example_config_extended !! k = Some c → entity_invalid c = false.
Proof.
  assert (map_Forall (λ _ c, entity_invalid c = false) (Entities example_config_extended))
    as Hall.
  { apply (bool_decide_unpack _). by vm_compute. }
  apply Hall.
Qed.

Lemma example_heads edge h t c :
  edge ∈ Edges example_config → edge_names edge = Some (h, t) →
  Entities example_config !! h = Some c → owns_trust_store (cfg_Kind c) = true.
Proof.
  intros Hedge Hnames Hc.
  assert (h = "TA-A") as ->.
  { apply elem_of_cons in Hedge as [->|Hedge]; [by injection Hnames as <- _|].
    apply elem_of_cons in Hedge as [->|Hedge]; [by injection Hnames as <- _|].
    by apply elem_of_nil in Hedge. }
  vm_compute in Hc. injection Hc as <-. reflexivity.
Qed.

Lemma example_hostnames p q (e s : Entity (W := world)) :
  heap Runs.example_graph !! p = Some e → heap Runs.example_graph !! q = Some s →
  p ≠ q → hostname e ≠ hostname s.
Proof.
  intros He Hs Hne.
  destruct p as [|[|[|p]]]; [| | |done];
    (destruct q as [|[|[|q]]]; [| | |done]); try done;
    injection He as <-; injection Hs as <-; vm_compute; discriminate.
Qed.

Lemma sample_keys names : keys_available (W := world) names.
Proof. intros k _. exists k. reflexivity. Qed.

(** The entities of the example, visited in another order. *)
Definition example_order_reversed : list string := ["OP-A"; "IM-A"; "TA-A"].

Lemma example_reversed_range_order :
  range_order (entityNodes Runs.example_graph) example_order_reversed.
Proof. split; [by apply (bool_decide_unpack _)|]. by vm_compute. Qed.

Lemma example_reversed_entities_order :
  range_order (Entities example_config) example_order_reversed.
Proof. split; [by apply (bool_decide_unpack _)|]. by vm_compute. Qed.

(** The sample world with a key generation that fails at its second
    draw. *)
Definition short_of_keys : Externals := {|
  URL := url;
  url_Parse := parse;
  URL_String := url_text;
  URL_Host := url_host;
  Signer := nat;
  GenerateKey := λ n, if decide (n = 1) then inl "unexpected EOF" else inr n;
  fedentities_FedEntity := string * list string * nat;
  NewFedEntity := λ id hints sk, inr (id, hints, sk);
  JWKSet := list nat;
  EntityConfigurationPayload_JWKS := λ fe, [fe.2];
  Status := ();
  StatusActive := ();
  NewInMemoryBadgerStorage_err := λ _, None;
  Write_err := λ _ _, None;
|}.

End MoreRuns.

(** * The further properties at concrete inputs *)

Lemma links_follow_edge_order_witness :
  mustParseConfig (W := Sample.world) Sample.example_config Sample.example_order
    = Ok Runs.example_graph ∧
  ∃ pairs, edge_names <$> Edges Sample.example_config = Some <$> pairs ∧
    ∀ n p (e : Entity (W := Sample.world)),
      entityNodes Runs.example_graph !! n = Some p →
      heap Runs.example_graph !! p = Some e →
      names_at Runs.example_graph (Subordinates e) = tails_of n pairs ∧
      length (Subordinates e) = length (tails_of n pairs) ∧
      names_at Runs.example_graph (Superiors e) = heads_of n pairs ∧
      length (Superiors e) = length (heads_of n pairs).
Proof.
  split; [exact Runs.example_build|].
  apply (links_follow_edge_order (W := Sample.world) Sample.example_config
           Sample.example_order Runs.example_graph).
  exact Runs.example_build.
Defined.

Lemma authority_hints_follow_edges_witness :
  mustParseConfig (W := Sample.world) Sample.example_config Sample.example_order
    = Ok Runs.example_graph ∧
  register_loop (W := Sample.world)
    {| entities_heap := heap Runs.example_graph; mux := [] |}
    (visited Runs.example_graph Sample.example_order) = Ok Runs.example_registered ∧
  ∃ pairs, edge_names <$> Edges Sample.example_config = Some <$> pairs ∧
    ∀ n p (e : Entity (W := Sample.world)),
      entityNodes Runs.example_graph !! n = Some p →
      entities_heap Runs.example_registered !! p = Some e →
      ∃ hints fe, FedEntity e = Some fe ∧
        NewFedEntity (URL_String (Identifier e)) hints (SigningPrivateKey e) = inr fe ∧
        GenerateKey p = inr (SigningPrivateKey e) ∧
        declared_identifier (W := Sample.world) Sample.example_config n
          (URL_String (Identifier e)) ∧
        Forall2 (λ hint h, declared_identifier (W := Sample.world)
                             Sample.example_config h hint)
          hints (heads_of n pairs).
Proof.
  split; [exact Runs.example_build|]. split; [exact Runs.example_registration|].
  apply (authority_hints_follow_edges (W := Sample.world) Sample.example_config
           Sample.example_order Sample.example_order Runs.example_graph
           Runs.example_registered).
  - exact Runs.example_build.
  - exact Runs.example_range_order.
  - exact Runs.example_registration.
Defined.

Lemma storage_holds_only_subordinates_witness :
  main (W := Sample.world) Sample.example_config Sample.example_order
    Sample.example_order Sample.example_order = Ok Runs.example_process ∧
  ∃ P : Entity (W := Sample.world), entities_heap Runs.example_process !! 0 = Some P ∧
    (is_Some (Storage P) ↔ owns_trust_store (Kind P) = true) ∧
    ∀ db key (info : SubordinateInfo (W := Sample.world)),
      Storage P = Some db → db !! key = Some info →
      ∃ q (C : Entity (W := Sample.world)) feC, q ∈ Subordinates P ∧
        entities_heap Runs.example_process !! q = Some C ∧
        key = URL_String (Identifier C) ∧ FedEntity C = Some feC ∧
        JWKS info = EntityConfigurationPayload_JWKS feC ∧
        EntityTypes info = [] ∧ EntityID info = key ∧ InfoStatus info = StatusActive.
Proof.
  split; [exact Runs.example_main|]. eexists. split; [reflexivity|].
  apply (storage_holds_only_subordinates (W := Sample.world) Sample.example_config
           Sample.example_order Sample.example_order Sample.example_order
           Runs.example_graph Runs.example_process 0).
  - exact Runs.example_build.
  - exact Runs.example_range_order.
  - exact Runs.example_range_order.
  - exact Runs.example_main.
  - reflexivity.
Defined.

Lemma unknown_host_not_served_witness :
  register_loop (W := Sample.world)
    {| entities_heap := heap Runs.example_graph; mux := [] |}
    (visited Runs.example_graph Sample.example_order) = Ok Runs.example_registered ∧
  GoNet.mux_handler (mux Runs.example_registered) "rp.example.org"
    ("/" +:+ ".well-known/openid-federation") = None.
Proof.
  split; [exact Runs.example_registration|].
  refine (proj1 (unknown_host_not_served (W := Sample.world) Sample.example_config
                   Sample.example_order Sample.example_order Runs.example_graph
                   Runs.example_registered "rp.example.org" ".well-known/openid-federation"
                   Runs.host_without_slash Runs.example_build Runs.example_range_order
                   Runs.example_registration _ _) _).
  - reflexivity.
  - intros p e He. destruct p as [|[|[|p]]]; [| | |done];
      injection He as <-; vm_compute; discriminate.
  - intros p e He. destruct p as [|[|[|p]]]; [| | |done];
      injection He as <-; vm_compute; discriminate.
Defined.

Lemma ports_do_not_separate_entities_witness :
  mustParseConfig (W := Sample.world) MoreRuns.ports_config ["TA"; "OP"]
    = Ok MoreRuns.ports_graph ∧
  ∀ final, main (W := Sample.world) MoreRuns.ports_config ["TA"; "OP"] ["TA"; "OP"]
             ["TA"; "OP"] ≠ Ok final.
Proof.
  split; [exact MoreRuns.ports_build|].
  refine (proj2 (ports_do_not_separate_entities (W := Sample.world) MoreRuns.ports_config
                   ["TA"; "OP"] ["TA"; "OP"] ["TA"; "OP"] MoreRuns.ports_graph
                   "TA" "OP" 0 1 _ _ "fed.example.com" "8443" "9443"
                   MoreRuns.ports_build MoreRuns.ports_range_order
                   _ _ _ _ _ _ _ _ _ _)).
  - reflexivity.
  - reflexivity.
  - discriminate.
  - reflexivity.
  - reflexivity.
  - reflexivity.
  - reflexivity.
  - reflexivity.
  - reflexivity.
  - reflexivity.
Defined.

Lemma first_offending_edge_decides_witness :
  range_order (Entities MoreRuns.late_error_config) ["TA"; "IM"] ∧
  mustParseConfig (W := Sample.world) MoreRuns.late_error_config ["TA"; "IM"]
    = Fatal (FatalUndefinedReference "IM" 1).
Proof.
  split; [exact MoreRuns.late_error_entities_order|].
  destruct (first_offending_edge_decides (W := Sample.world) MoreRuns.late_error_config
              ["TA"; "IM"] ["TA -> IM"] ["TA"] "IM -> OP"
              MoreRuns.late_error_entities_order MoreRuns.late_error_declarations
              eq_refl) as (_ & Hundefined & _).
  - repeat constructor.
  - apply MoreRuns.sample_keys.
  - apply (Hundefined "IM" "OP"); [reflexivity|]. right. reflexivity.
Defined.

Lemma invalid_declaration_reported_first_witness :
  range_order (Entities MoreRuns.missing_kind_config) ["TA"; "IM"; "OP"] ∧
  ∃ before k after c,
    ["TA"; "IM"; "OP"] = before ++ k :: after ∧
    Entities MoreRuns.missing_kind_config !! k = Some c ∧ entity_invalid c = true ∧
    (∀ k' c', k' ∈ before → Entities MoreRuns.missing_kind_config !! k' = Some c' →
              entity_invalid c' = false) ∧
    mustParseConfig (W := Sample.world) MoreRuns.missing_kind_config ["TA"; "IM"; "OP"] =
      Fatal (if decide (cfg_Kind c = "") then FatalKindMissing k
             else FatalIdentifierMissing k).
Proof.
  split; [exact MoreRuns.missing_kind_entities_order|].
  apply (invalid_declaration_reported_first (W := Sample.world)
           MoreRuns.missing_kind_config ["TA"; "IM"; "OP"]
           MoreRuns.missing_kind_entities_order).
  exists "OP", {| cfg_Kind := "leaf"; cfg_Identifier := "" |}. split; reflexivity.
Defined.

Lemma build_succeeds_iff_witness :
  range_order (Entities Sample.example_config) Sample.example_order ∧
  ((∃ g, mustParseConfig (W := Sample.world) Sample.example_config Sample.example_order
         = Ok g) ↔
   (∀ k c, Entities Sample.example_config !! k = Some c → entity_invalid c = false) ∧
   Forall (λ e, edge_good (W := Sample.world) Sample.example_config e = true)
     (Edges Sample.example_config) ∧
   keys_available (W := Sample.world) (referenced (Edges Sample.example_config))).
Proof.
  split; [exact Runs.example_entities_order|].
  apply (build_succeeds_iff (W := Sample.world) Sample.example_config Sample.example_order).
  exact Runs.example_entities_order.
Defined.

Lemma startup_succeeds_witness :
  mustParseConfig (W := Sample.world) Sample.example_config Sample.example_order
    = Ok Runs.example_graph ∧
  ∃ final, main (W := Sample.world) Sample.example_config Sample.example_order
             Sample.example_order Sample.example_order = Ok final.
Proof.
  split; [exact Runs.example_build|].
  apply (startup_succeeds (W := Sample.world) Sample.example_config Sample.example_order
           Sample.example_order Sample.example_order Runs.example_graph).
  - exact Runs.example_build.
  - exact Runs.example_range_order.
  - exact Runs.example_range_order.
  - intros id hints sk. eexists. reflexivity.
  - intros n. reflexivity.
  - intros n k. reflexivity.
  - exact MoreRuns.example_hostnames.
  - exact MoreRuns.example_heads.
Defined.

Lemma entity_string_lists_edges_witness :
  mustParseConfig (W := Sample.world) Sample.example_config Sample.example_order
    = Ok Runs.example_graph ∧
  same_core (heap Runs.example_graph) (entities_heap Runs.example_process) ∧
  ∃ pairs, edge_names <$> Edges Sample.example_config = Some <$> pairs ∧
    ∀ n p (e : Entity (W := Sample.world)),
      entityNodes Runs.example_graph !! n = Some p →
      entities_heap Runs.example_process !! p = Some e →
      ∃ c (u : URL (Externals := Sample.world)),
        Entities Sample.example_config !! n = Some c ∧
        url_Parse (cfg_Identifier c) = inr u ∧
        Entity_String (entities_heap Runs.example_process) e =
          Ok (fmt_entity (heads_of n pairs) (tails_of n pairs) n (cfg_Kind c) u).
Proof.
  assert (same_core (W := Sample.world) (heap Runs.example_graph)
            (entities_heap Runs.example_process)) as Hcore.
  { intros p. destruct p as [|[|[|p]]]; reflexivity. }
  split; [exact Runs.example_build|]. split; [exact Hcore|].
  apply (entity_string_lists_edges (W := Sample.world) Sample.example_config
           Sample.example_order Runs.example_graph (entities_heap Runs.example_process)).
  - exact Runs.example_build.
  - exact Hcore.
Defined.

Lemma node_names_are_trimmed_witness :
  mustParseConfig (W := Sample.world) Sample.example_config Sample.example_order
    = Ok Runs.example_graph ∧
  GoStrings.TrimSpace "OP-A" = "OP-A" ∧
  entityNodes Runs.example_graph !! " OP-A " = None.
Proof.
  split; [exact Runs.example_build|].
  destruct (node_names_are_trimmed (W := Sample.world) Sample.example_config
              Sample.example_order Runs.example_graph Runs.example_build)
    as [Hnodes Hkeys].
  split.
  - apply (Hnodes "OP-A" 1). reflexivity.
  - apply Hkeys. discriminate.
Defined.

Lemma edge_padding_ignored_witness :
  edge_names "  TA-A	-> OP-A " = Some ("TA-A", "OP-A") ∧
  edge_step (W := Sample.world) Sample.example_config empty_graph 0 "  TA-A	-> OP-A " =
    edge_step (W := Sample.world) Sample.example_config empty_graph 0 "TA-A->OP-A".
Proof.
  apply (edge_padding_ignored (W := Sample.world) Sample.example_config empty_graph 0
           "  " "TA-A" "	" " " "OP-A" " "); reflexivity.
Defined.

Lemma unreferenced_declarations_ignored_witness :
  range_order (Entities MoreRuns.example_config_extended)
    ["TA-A"; "IM-A"; "OP-A"; "RP-X"] ∧
  mustParseConfig (W := Sample.world) Sample.example_config Sample.example_order =
    mustParseConfig (W := Sample.world) MoreRuns.example_config_extended
      ["TA-A"; "IM-A"; "OP-A"; "RP-X"].
Proof.
  split; [exact MoreRuns.example_extended_order|].
  apply (unreferenced_declarations_ignored (W := Sample.world)).
  - exact Runs.example_entities_order.
  - exact MoreRuns.example_extended_order.
  - exact MoreRuns.example_declarations.
  - exact MoreRuns.example_extended_declarations.
  - reflexivity.
  - intros n (e & h & t & He & Hnames & Hor)%elem_of_referenced.
    apply elem_of_cons in He as [->|He].
    { injection Hnames as <- <-. by destruct Hor as [->| ->]. }
    apply elem_of_cons in He as [->|He].
    { injection Hnames as <- <-. by destruct Hor as [->| ->]. }
    by apply elem_of_nil in He.
Defined.

Lemma visiting_order_irrelevant_witness :
  main (W := Sample.world) Sample.example_config Sample.example_order
    Sample.example_order Sample.example_order = Ok Runs.example_process ∧
  ∃ final', main (W := Sample.world) Sample.example_config
              MoreRuns.example_order_reversed MoreRuns.example_order_reversed
              MoreRuns.example_order_reversed = Ok final' ∧
    entities_heap final' = entities_heap Runs.example_process ∧
    mux final' ≡ₚ mux Runs.example_process.
Proof.
  split; [exact Runs.example_main|].
  apply (visiting_order_irrelevant (W := Sample.world) Sample.example_config
           Sample.example_order Sample.example_order Sample.example_order
           MoreRuns.example_order_reversed MoreRuns.example_order_reversed
           MoreRuns.example_order_reversed Runs.example_graph Runs.example_process).
  - exact Runs.example_entities_order.
  - exact MoreRuns.example_reversed_entities_order.
  - exact Runs.example_build.
  - exact Runs.example_range_order.
  - exact Runs.example_range_order.
  - exact MoreRuns.example_reversed_range_order.
  - exact MoreRuns.example_reversed_range_order.
  - exact Runs.example_main.
Defined.

Lemma key_generation_failure_is_fatal_witness :
  GenerateKey (Externals := MoreRuns.short_of_keys) 1 = inl "unexpected EOF" ∧
  mustParseConfig (W := MoreRuns.short_of_keys) Sample.example_config Sample.example_order
    = Fatal (FatalGenerateKey "unexpected EOF").
Proof.
  split; [reflexivity|].
  apply (key_generation_failure_is_fatal (W := MoreRuns.short_of_keys)
           Sample.example_config Sample.example_order 1 "unexpected EOF").
  - exact Runs.example_entities_order.
  - exact MoreRuns.example_declarations.
  - repeat constructor.
  - intros j Hj. exists j. destruct j as [|j]; [reflexivity|lia].
  - reflexivity.
  - apply (bool_decide_unpack _). by vm_compute.
Defined.


